(** * SP3-Conv: the BRR codec and the signal helpers, embedded in Rocq

    The JavaScript sources are embedded shallowly:

    - integers that the program keeps in the int16/int32 range are [Z], and
      every bitwise operator goes through its ECMAScript conversion
      ([ToInt32], a shift count taken modulo 32);
    - typed arrays ([Uint8Array], [Int16Array], [Float32Array]) are lists,
      read with stdpp's lookup and written with stdpp's insert (a typed
      array ignores a write past its end, as the list insert does), each
      store going through the conversion of the element type;
    - numbers that are genuinely floating point are Rocq's binary64
      [float]; the two signal helpers that only add, multiply, divide and
      compare are written once over a small interface of those operations,
      which has the IEEE instance and an exact rational instance;
    - an exception is [None]: the [RangeError] of a typed-array constructor,
      of [set] and of the setters of a [DataView], whose buffer is the list
      of its bytes.

    Part I holds the definitions, Part II the theorems. *)

From Stdlib Require Import ZArith QArith Qround Qabs Qminmax Floats Lia Lqa.
From Stdlib Require Import Ascii.
From stdpp Require Import list.

Set Warnings "-inexact-float".
Local Open Scope Z_scope.

(** * Part I: definitions *)

(** ** ECMAScript integer conversions and bitwise operators *)

Module JS.

(** [ToInt32]: reduction modulo 2^32 into the signed range. *)
Definition toInt32 (n : Z) : Z := (n + 2 ^ 31) mod 2 ^ 32 - 2 ^ 31.

(** The conversions applied by a store into an [Int16Array] and into a
    [Uint8Array], at an integer value. *)
Definition toInt16 (n : Z) : Z := (n + 2 ^ 15) mod 2 ^ 16 - 2 ^ 15.
Definition toUint8 (n : Z) : Z := n mod 2 ^ 8.

(** [a << b], [a >> b], [a & b], [a | b]. *)
Definition shl (a b : Z) : Z := toInt32 (Z.shiftl (toInt32 a) (b mod 32)).
Definition sar (a b : Z) : Z := Z.shiftr (toInt32 a) (b mod 32).
Definition band (a b : Z) : Z := Z.land (toInt32 a) (toInt32 b).
Definition bor (a b : Z) : Z := Z.lor (toInt32 a) (toInt32 b).

(** [Math.round] at an exact rational: the nearest integer, a tie going
    up. *)
Definition Math_round (q : Q) : Z := Qfloor (q + 0.5)%Q.

(** The truncation towards zero that a bitwise operator applies to a
    fractional operand before [ToInt32]. *)
Definition Qtruncate (q : Q) : Z := Z.quot (Qnum q) (Z.pos (Qden q)).

Definition int16 (n : Z) : Prop := - 2 ^ 15 <= n < 2 ^ 15.
Definition int32 (n : Z) : Prop := - 2 ^ 31 <= n < 2 ^ 31.
Definition uint8 (n : Z) : Prop := 0 <= n < 2 ^ 8.

(** The numbers that an error of the encoder's search can be: a finite
    value (an exact rational: every error is an integer below 2^53 divided
    by 16), [Infinity], or [NaN]. *)
Inductive number := Fin (q : Q) | Infinity | NaN.

(** [a < b] on those numbers: false as soon as one side is [NaN]. *)
Definition num_ltb (a b : number) : bool :=
  match a, b with
  | Fin x, Fin y => negb (Qle_bool y x)
  | Fin _, Infinity => true
  | _, _ => false
  end.

End JS.

(** ** Binary64 numbers and the conversions of the typed arrays *)

Module F64.

Local Open Scope float_scope.

(** An integer as a number (exact below 2^53 in magnitude). *)
Definition of_Z (z : Z) : float := SF2Prim (binary_normalize prec emax z 0 false).

Definition signed (s : bool) (m : positive) : Z := if s then Z.neg m else Z.pos m.

(** The store into a [Float32Array]: rounding to the nearest binary32
    value, ties to even. *)
Definition store32 (x : float) : float :=
  match Prim2SF x with
  | S754_finite s m e => SF2Prim (binary_normalize 24 128 (signed s m) e s)
  | _ => x
  end.

(** [Math.floor]. *)
Definition Math_floor (x : float) : float :=
  match Prim2SF x with
  | S754_finite s m e =>
      if (0 <=? e)%Z then x else of_Z (Z.shiftr (signed s m) (- e))
  | _ => x
  end.

(** [Math.round]: [floor(x + 1/2)] computed exactly (the sign of a zero
    result is not tracked; no caller observes it). *)
Definition Math_round (x : float) : float :=
  match Prim2SF x with
  | S754_finite s m e =>
      if (0 <=? e)%Z then x
      else of_Z (Z.shiftr (signed s m + 2 ^ (- e - 1)) (- e))
  | _ => x
  end.

(** Truncation towards zero of a number, 0 for [NaN] and the infinities:
    the first step of [ToInt16]. *)
Definition trunc (x : float) : Z :=
  match Prim2SF x with
  | S754_finite s m e =>
      if (0 <=? e)%Z then signed s m * 2 ^ e
      else Z.quot (signed s m) (2 ^ (- e))
  | _ => 0%Z
  end.

(** The store into an [Int16Array]. *)
Definition store16 (x : float) : Z := JS.toInt16 (trunc x).

(** [ToIndex], as [new Float32Array(n)] applies it to its length:
    [NaN] counts as 0, a negative or infinite length is a [RangeError]
    ([None]).  The engine's allocation limit is not modelled. *)
Definition toIndex (x : float) : option nat :=
  match Prim2SF x with
  | S754_nan | S754_zero _ => Some 0%nat
  | S754_infinity _ => None
  | S754_finite _ _ _ =>
      if (trunc x <? 0)%Z then None
      else if (2 ^ 53 <=? trunc x)%Z then None
      else Some (Z.to_nat (trunc x))
  end.

(** [new Float32Array(n)]. *)
Definition Float32Array_new (n : float) : option (list float) :=
  (fun len => replicate len 0) <$> toIndex n.

(** [a[x]] on a [Float32Array] for a number [x]: the element when [x] is an
    integer index inside the array, [undefined] otherwise. *)
Definition at_number (a : list float) (x : float) : option float :=
  match Prim2SF x with
  | S754_zero _ => a !! 0%nat
  | S754_finite false m e =>
      if (0 <=? e)%Z then a !! Z.to_nat (Z.pos m * 2 ^ e)
      else if (Z.pos m mod 2 ^ (- e) =? 0)%Z then a !! Z.to_nat (Z.pos m / 2 ^ (- e))
      else None
  | _ => None
  end.

(** The exact value of a finite number. *)
Definition value (x : float) : option Q :=
  match Prim2SF x with
  | S754_zero _ => Some 0%Q
  | S754_finite s m e =>
      Some (if (0 <=? e)%Z then inject_Z (signed s m * 2 ^ e)
            else signed s m # Z.to_pos (2 ^ (- e)))
  | _ => None
  end.

(** [clamp16] at a floating-point argument (the call of [encodeBRR]). *)
Definition clamp16 (n : float) : float :=
  if 32767 <? n then 32767
  else if n <? -32768 then -32768
  else Math_round n.

End F64.

(** ** The arithmetic used by the signal helpers *)

(** [normalizeCoupled] and [applyGaussFilter] only read numeric literals,
    add, multiply, divide, take absolute values, compare, and store into a
    [Float32Array]. *)
Class Arith (F : Type) := {
  ar_lit : Q -> F;
  ar_add : F -> F -> F;
  ar_mul : F -> F -> F;
  ar_div : F -> F -> F;
  ar_abs : F -> F;
  ar_ltb : F -> F -> bool;
  ar_store32 : F -> F
}.

(** The arithmetic of the script: IEEE binary64, with binary32 stores.  A
    literal is the binary64 number nearest to the decimal written: the
    correctly rounded quotient of its numerator and denominator, which are
    exact for every literal of the script. *)
#[export] Instance float_Arith : Arith float := {
  ar_lit := fun q => (F64.of_Z (Qnum q) / F64.of_Z (Z.pos (Qden q)))%float;
  ar_add := PrimFloat.add;
  ar_mul := PrimFloat.mul;
  ar_div := PrimFloat.div;
  ar_abs := PrimFloat.abs;
  ar_ltb := PrimFloat.ltb;
  ar_store32 := F64.store32
}.

(** The same operations without rounding, on exact rationals. *)
#[export] Instance Q_Arith : Arith Q := {
  ar_lit := fun q => q;
  ar_add := Qplus;
  ar_mul := Qmult;
  ar_div := Qdiv;
  ar_abs := Qabs;
  ar_ltb := fun a b => negb (Qle_bool b a);
  ar_store32 := fun q => q
}.

(** ** The BRR codec (the script adapted from BRRtools) *)

Module BRR.
Import JS.

(** *** Primitives *)

(** [wrap16(n) = (n << 16) >> 16]. *)
Definition wrap16 (n : Z) : Z := sar (shl n 16) 16.

(** [clamp16] at an integer argument (every call of the codec proper). *)
Definition clamp16 (n : Z) : Z :=
  if n >? 32767 then 32767
  else if n <? -32768 then -32768
  else Math_round (inject_Z n).

(** [getPrediction].  The script computes the products in binary64; with
    [p1] and [p2] integers of at most 16 bits and coefficients that are
    multiples of 1/64 below 2, every product and the difference are exactly
    representable, so the value is the exact rational written here.  A
    [filter] outside 1..3 leaves the prediction at 0. *)
Definition getPrediction (filter p1 p2 : Z) : Z :=
  let prediction : Q :=
    if filter =? 1 then (inject_Z p1 * 0.9375)%Q
    else if filter =? 2 then (inject_Z p1 * 1.90625 - inject_Z p2 * 0.9375)%Q
    else if filter =? 3 then (inject_Z p1 * 1.796875 - inject_Z p2 * 0.8125)%Q
    else 0%Q in
  wrap16 (Math_round prediction).

(** A block is a [Uint8Array]; reading past its end gives [undefined],
    which the bitwise operators that consume every byte read as 0. *)
Definition byteAt (block : list Z) (i : nat) : Z := default 0 (block !! i).

(** *** Encoder *)

(** What [processBlock] returns: [{error, p1, p2}] from a trial,
    [{block, p1, p2}] when [writeMode] is set. *)
Record trial := Trial { tr_error : number; tr_p1 : Z; tr_p2 : Z }.
Record encoded := Encoded { en_block : list Z; en_p1 : Z; en_p2 : Z }.
Definition result (writeMode : bool) : Type := if writeMode then encoded else trial.

(** The variables of the loop of [processBlock].  [brrBuffer] is only
    written in [writeMode]; [totalError] is [None] once it is [NaN]. *)
Record blockState := BlockState {
  brrBuffer : list Z;
  totalError : option Z;
  bs_p1 : Z;
  bs_p2 : Z
}.

(** One turn of [for (i = 0; i < 16; i++)].  [pcmBlock[i]] past the end
    of the block is [undefined]: 0 under [>>], [NaN] in the subtraction
    that gives the error.  The quotient [dp_quant_offset / (step / 2)] is
    a division by a power of two, exact in binary64. *)
Definition processSample (pcmBlock : list Z) (shiftAmount filter : Z)
    (writeMode : bool) (st : blockState) (i : nat) : blockState :=
  let pcmSample := pcmBlock !! i in
  let prediction := getPrediction filter (bs_p1 st) (bs_p2 st) in
  let vlin := sar prediction 1 in
  let diff := sar (default 0 pcmSample) 1 - vlin in
  let diff_abs := Z.abs diff in
  let diff :=
    if (diff_abs >? 16384) && (diff_abs <? 32768)
    then (if diff >? 0 then diff - 32768 else diff + 32768)
    else diff in
  let step := shl 1 shiftAmount in
  let dp_quant_offset := diff + shl step 2 + sar step 2 in
  let c :=
    if dp_quant_offset >? 0 then
      let c :=
        if step >? 1
        then bor (Qtruncate (inject_Z dp_quant_offset / (inject_Z step / 2))) 0
        else dp_quant_offset * 2 in
      if c >? 15 then 15 else c
    else 0 in
  let quantizedNibble := c - 8 in
  let dp_dequant := sar (shl quantizedNibble shiftAmount) 1 in
  let halfSample := vlin + dp_dequant in
  let clampedHalf := clamp16 halfSample in
  let reconstructedSample := clampedHalf * 2 in
  let totalError :=
    if (reconstructedSample >? 32767) || (reconstructedSample <? -32768)
    then (fun t => t + 999999999) <$> totalError st
    else totalError st in
  let wrappedReconstructedSample := wrap16 reconstructedSample in
  let error := (fun s => s - wrappedReconstructedSample) <$> pcmSample in
  let totalError :=
    match totalError, error with
    | Some t, Some e => Some (t + e * e)
    | _, _ => None
    end in
  let p2 := bs_p1 st in
  let p1 := wrappedReconstructedSample in
  let brrBuffer :=
    if writeMode then
      let finalNibble := band quantizedNibble 15 in
      let byteIndex := (1 + i / 2)%nat in
      if (i mod 2 =? 0)%nat
      then <[byteIndex := toUint8 (shl finalNibble 4)]> (brrBuffer st)
      else <[byteIndex := toUint8 (bor (byteAt (brrBuffer st) byteIndex) finalNibble)]>
             (brrBuffer st)
    else brrBuffer st in
  BlockState brrBuffer totalError p1 p2.

Definition processBlock (pcmBlock : list Z) (shiftAmount filter : Z)
    (initial_p1 initial_p2 : Z) (writeMode : bool) : result writeMode :=
  let st :=
    fold_left (processSample pcmBlock shiftAmount filter writeMode) (seq 0 16)
      (BlockState (if writeMode then replicate 9 0 else []) (Some 0)
         initial_p1 initial_p2) in
  match writeMode return result writeMode with
  | true => Encoded (brrBuffer st) (bs_p1 st) (bs_p2 st)
  | false =>
      Trial (match totalError st with
             | Some t => Fin (inject_Z t / 16)
             | None => NaN
             end)
        (bs_p1 st) (bs_p2 st)
  end.

(** The variables of the search of [findAndEncodeBlock]. *)
Record best := Best { bestError : number; bestShift : Z; bestFilter : Z }.

(** The body of the two nested loops of the search. *)
Definition tryParameters (pcmBlock : list Z) (p1 p2 : Z) (b : best) (s f : Z) : best :=
  let result := processBlock pcmBlock s f p1 p2 false in
  if num_ltb (tr_error result) (bestError b)
  then Best (tr_error result) s f
  else b.

(** [for (s = 0; s < 13; s++) for (f = 0; f < 4; f++)]. *)
Definition searchParameters (pcmBlock : list Z) (p1 p2 : Z) : best :=
  fold_left
    (fun b s => fold_left (fun b f => tryParameters pcmBlock p1 p2 b s f) (seqZ 0 4) b)
    (seqZ 0 13) (Best Infinity 0 0).

Definition findAndEncodeBlock (pcmBlock : list Z) (p1 p2 : Z) : encoded :=
  let b := searchParameters pcmBlock p1 p2 in
  let finalResult := processBlock pcmBlock (bestShift b) (bestFilter b) p1 p2 true in
  Encoded
    (<[0%nat := toUint8 (bor (shl (bestShift b) 4) (shl (bestFilter b) 2))]>
       (en_block finalResult))
    (en_p1 finalResult) (en_p2 finalResult).

(** The conversion loop of [encodeBRR], into an [Int16Array]. *)
Definition toPcm16 (float32PcmData : list float) : list Z :=
  (fun x => F64.store16 (F64.clamp16 (x * 32767)%float)) <$> float32PcmData.

(** The zero padding to a multiple of 16 samples. *)
Definition padPcm (pcmData : list Z) : list Z :=
  let padding := ((16 - length pcmData mod 16) mod 16)%nat in
  pcmData ++ replicate padding 0.

(** The variables of the block loop of [encodeBRR]. *)
Record stream := Stream { brrBlocks : list (list Z); st_p1 : Z; st_p2 : Z }.

(** One turn of [for (i = 0; i < paddedPcmData.length; i += 16)]. *)
Definition encodeStep (paddedPcmData : list Z) (st : stream) (i : nat) : stream :=
  let pcmBlock := take 16 (drop i paddedPcmData) in
  let result := findAndEncodeBlock pcmBlock (st_p1 st) (st_p2 st) in
  Stream (brrBlocks st ++ [en_block result]) (en_p1 result) (en_p2 result).

(** The block loop, from a given history: [i] takes the multiples of 16
    below the length. *)
Definition encodeBlocks (paddedPcmData : list Z) (p1 p2 : Z) : stream :=
  fold_left (encodeStep paddedPcmData)
    ((fun k => k * 16)%nat <$> seq 0 ((length paddedPcmData + 15) / 16))
    (Stream [] p1 p2).

(** [brrBlocks[brrBlocks.length - 1][0] |= 0x01], when there is a block. *)
Definition markEnd (brrBlocks : list (list Z)) : list (list Z) :=
  match last brrBlocks with
  | Some block =>
      <[(length brrBlocks - 1)%nat := <[0%nat := toUint8 (bor (byteAt block 0) 1)]> block]>
        brrBlocks
  | None => brrBlocks
  end.

Definition encodeBRR (float32PcmData : list float) : list (list Z) :=
  let pcmData := toPcm16 float32PcmData in
  let paddedPcmData := padPcm pcmData in
  markEnd (brrBlocks (encodeBlocks paddedPcmData 0 0)).

(** *** Decoder *)

(** The variables of the decoding loops: the [Int16Array] being filled and
    the two history samples. *)
Record decoder := Decoder { pcmSamples : list Z; dec_p1 : Z; dec_p2 : Z }.

(** The statements the script repeats for the high and for the low
    nibble, up to the 15-bit wrap. *)
Definition decodeNibble (shiftAmount filter nibble p1 p2 : Z) : Z :=
  let signedNibble := if band nibble 8 =? 0 then nibble else nibble - 16 in
  let sample :=
    if shiftAmount <=? 12 then sar (shl signedNibble shiftAmount) 1
    else if signedNibble <? 0 then -2048 else 2048 in
  let sample := sample + getPrediction filter p1 p2 in
  let sample := clamp16 sample in
  let sample := if sample >? 16383 then sample - 32768 else sample in
  let sample := if sample <? -16384 then sample + 32768 else sample in
  sample.

(** One turn of the inner loop [for (i = 0; i < 8; i++)]. *)
Definition decodeByte (block : list Z) (blockIndex : nat)
    (shiftAmount filter : Z) (st : decoder) (i : nat) : decoder :=
  let byte := byteAt block (i + 1) in
  let sample := decodeNibble shiftAmount filter (sar byte 4) (dec_p1 st) (dec_p2 st) in
  let p2 := dec_p1 st in
  let p1 := sample in
  let pcm :=
    <[(blockIndex * 16 + i * 2)%nat := toInt16 (wrap16 (p1 * 2))]> (pcmSamples st) in
  let sample := decodeNibble shiftAmount filter (band byte 15) p1 p2 in
  let p2 := p1 in
  let p1 := sample in
  let pcm := <[(blockIndex * 16 + i * 2 + 1)%nat := toInt16 (wrap16 (p1 * 2))]> pcm in
  Decoder pcm p1 p2.

(** One turn of the outer loop over [blockIndex]. *)
Definition decodeBlock (brrBlocks : list (list Z)) (st : decoder)
    (blockIndex : nat) : decoder :=
  match brrBlocks !! blockIndex with
  | Some block =>
      let header := byteAt block 0 in
      let shiftAmount := band (sar header 4) 15 in
      let filter := band (sar header 2) 3 in
      fold_left (decodeByte block blockIndex shiftAmount filter) (seq 0 8) st
  | None => st
  end.

(** The [Int16Array] that [decodeBRR] has filled when its first loop
    ends. *)
Definition decodeBRR_pcm (brrBlocks : list (list Z)) : list Z :=
  let totalSamples := (length brrBlocks * 16)%nat in
  pcmSamples
    (fold_left (decodeBlock brrBlocks) (seq 0 (length brrBlocks))
       (Decoder (replicate totalSamples 0) 0 0)).

(** [decodeBRR]: the second loop divides every sample by 32768.0 and
    stores it into the [Float32Array] that is returned. *)
Definition decodeBRR (brrBlocks : list (list Z)) : list float :=
  (fun s => F64.store32 (F64.of_Z s / 32768)%float) <$> decodeBRR_pcm brrBlocks.

End BRR.

(** ** The signal helpers *)

Module Signal.

Declare Scope arith_scope.
Delimit Scope arith_scope with A.
Infix "+" := ar_add : arith_scope.
Infix "*" := ar_mul : arith_scope.
Infix "/" := ar_div : arith_scope.
Infix ">?" := (fun a b => ar_ltb b a) (at level 70, no associativity) : arith_scope.

Section Helpers.
Context {F : Type} `{Arith F}.
Local Open Scope arith_scope.

(** [a[i]] on a [Float32Array], at an index inside the array.  (Both
    helpers below only read inside the array; the default stands for
    [undefined] and is never reached.) *)
Definition get (a : list F) (i : nat) : F := default (ar_lit 0) (a !! i).

(** One of the two peak loops of [normalizeCoupled]. *)
Definition peakLoop (signal : list F) (overallPeak : F) : F :=
  fold_left
    (fun overallPeak sample =>
       let absSample := ar_abs sample in
       if absSample >? overallPeak then absSample else overallPeak)
    signal overallPeak.

(** [for (i ...) signal[i] *= multiplier]. *)
Definition scaleLoop (multiplier : F) (signal : list F) : list F :=
  (fun sample => ar_store32 (sample * multiplier)) <$> signal.

(** [normalizeCoupled]: the pair [{mid, side}] that is returned (the two
    arrays of the caller, scaled in place). *)
Definition normalizeCoupled (midSignal sideSignal : list F) : list F * list F :=
  let overallPeak := ar_lit 0 in
  let overallPeak := peakLoop midSignal overallPeak in
  let overallPeak := peakLoop sideSignal overallPeak in
  if overallPeak >? ar_lit 0.95 then
    let multiplier := ar_lit 0.95 / overallPeak in
    (scaleLoop multiplier midSignal, scaleLoop multiplier sideSignal)
  else (midSignal, sideSignal).

(** One turn of the main loop of [applyGaussFilter], on [(out, prev)]. *)
Definition gaussStep (c0 c1 : F) (pcmData : list F) (st : list F * F) (i : nat)
    : list F * F :=
  let current :=
    c0 * get pcmData (i - 1) + c1 * get pcmData i + c0 * get pcmData (i + 1) in
  (<[(i - 1)%nat := ar_store32 (snd st)]> (fst st), current).

Definition applyGaussFilter (pcmData : list F) : list F :=
  let len := length pcmData in
  if (len <? 2)%nat then pcmData
  else
    let out := replicate len (ar_lit 0) in
    let c0 := ar_lit 372 / ar_lit 2048 in
    let c1 := ar_lit 1304 / ar_lit 2048 in
    let prev := (c1 + c0) * get pcmData 0 + c0 * get pcmData 1 in
    let '(out, prev) :=
      fold_left (gaussStep c0 c1 pcmData) (seq 1 (len - 2)) (out, prev) in
    let last := c0 * get pcmData (len - 2) + (c1 + c0) * get pcmData (len - 1) in
    let out := <[(len - 2)%nat := ar_store32 prev]> out in
    let out := <[(len - 1)%nat := ar_store32 last]> out in
    out.

End Helpers.

(** *** The FIR downsampler *)

Section Resampler.

(** [Math.sin] and [Math.cos], which ECMAScript leaves to the engine
    ("implementation-approximated"). *)
Variables Math_sin Math_cos : float -> float.

Local Open Scope float_scope.

Definition Math_PI : float := 3.141592653589793.
Definition FIR_TAPS : nat := 64.

Definition of_nat (n : nat) : float := F64.of_Z (Z.of_nat n).

(** The variables of the first loop of [generateFirCoefficients]. *)
Record firState := FirState { coeffs : list float; sum : float }.

Definition firStep (normalizedCutoff : float) (taps : nat) (st : firState) (i : nat)
    : firState :=
  let x := of_nat i - (of_nat taps - 1) / 2 in
  let sinc :=
    if x =? 0 then 1.0
    else Math_sin (2 * Math_PI * normalizedCutoff * x)
         / (2 * Math_PI * normalizedCutoff * x) in
  let blackman :=
    0.42 - 0.5 * Math_cos (2 * Math_PI * of_nat i / (of_nat taps - 1))
    + 0.08 * Math_cos (4 * Math_PI * of_nat i / (of_nat taps - 1)) in
  let coeffs := <[i := F64.store32 (sinc * blackman)]> (coeffs st) in
  FirState coeffs (sum st + default nan (coeffs !! i)).

Definition generateFirCoefficients (originalSr targetSr : float) (taps : nat)
    : list float :=
  let cutoff := targetSr / 2 in
  let normalizedCutoff := cutoff / originalSr in
  let st :=
    fold_left (firStep normalizedCutoff taps) (seq 0 taps)
      (FirState (replicate taps 0) 0) in
  (fun c => F64.store32 (c / sum st)) <$> coeffs st.

(** The inner loop of the convolution, for the output position [i]. *)
Definition convolveAt (signalData firCoeffs : list float) (halfCoeffsLen i : nat)
    : float :=
  fold_left
    (fun filteredSample j =>
       let sampleIndex := (Z.of_nat i - Z.of_nat halfCoeffsLen + Z.of_nat j)%Z in
       if ((0 <=? sampleIndex) && (sampleIndex <? Z.of_nat (length signalData)))%Z
       then filteredSample
            + default nan (signalData !! Z.to_nat sampleIndex)
              * default nan (firCoeffs !! j)
       else filteredSample)
    (seq 0 (length firCoeffs)) 0.

(** [manualDownsample]; [None] is the [RangeError] of
    [new Float32Array(newLength)]. *)
Definition manualDownsample (signalData : list float)
    (originalSampleRate targetSampleRate : float) : option (list float) :=
  let ratio := originalSampleRate / targetSampleRate in
  let newLength := F64.Math_floor (of_nat (length signalData) / ratio) in
  result ← F64.Float32Array_new newLength;
  let firCoeffs :=
    generateFirCoefficients originalSampleRate targetSampleRate FIR_TAPS in
  let halfCoeffsLen := (length firCoeffs / 2)%nat in
  let filteredSignal :=
    (fun i => F64.store32 (convolveAt signalData firCoeffs halfCoeffsLen i))
      <$> seq 0 (length signalData) in
  Some
    (fold_left
       (fun result i =>
          <[i := F64.store32
                   (default nan
                      (F64.at_number filteredSignal (F64.Math_floor (of_nat i * ratio))))]>
            result)
       (seq 0 (length result)) result).

End Resampler.

End Signal.

(** ** The specification's wording, for the claims that compare with it *)

Module Spec.
Import JS.

(** "Reduce modulo 2^16 into the signed range." *)
Definition wrap16 (n : Z) : Z := (n + 32768) mod 65536 - 32768.

(** "Sign-extend the nibble from 4 bits." *)
Definition signExtend4 (nibble : Z) : Z := if 8 <=? nibble then nibble - 16 else nibble.

(** "Clamp to [-32768, 32767]." *)
Definition clamp (n : Z) : Z := Z.max (-32768) (Z.min 32767 n).

(** "Subtract 32768 if the sample is > 16383, add 32768 if it is < -16384." *)
Definition wrap15 (sample : Z) : Z :=
  if 16383 <? sample then sample - 32768
  else if sample <? -16384 then sample + 32768
  else sample.

(** The sample decoded from one nibble, with the history [(p1, p2)]. *)
Definition sampleOf (shift filter : Z) (p : Z * Z) (nibble : Z) : Z :=
  let signed := signExtend4 nibble in
  let base :=
    if shift <=? 12 then (signed * 2 ^ shift) / 2
    else if signed <? 0 then -2048 else 2048 in
  wrap15 (clamp (base + BRR.getPrediction filter (fst p) (snd p))).

(** The recurrence over the nibbles of one block: [p2 = p1], [p1 = sample],
    and [wrap16(p1 * 2)] is the next output. *)
Fixpoint decodeNibbles (shift filter : Z) (p : Z * Z) (nibbles : list Z)
    : list Z * (Z * Z) :=
  match nibbles with
  | [] => ([], p)
  | nibble :: rest =>
      let sample := sampleOf shift filter p nibble in
      let '(out, p') := decodeNibbles shift filter (sample, fst p) rest in
      (wrap16 (sample * 2) :: out, p')
  end.

(** "For each data byte decode the high nibble then the low nibble." *)
Definition nibblesOf (block : list Z) : list Z :=
  byte ← take 8 (drop 1 block); [byte / 16; byte mod 16].

Fixpoint decodeBlocks (p : Z * Z) (blocks : list (list Z)) : list Z :=
  match blocks with
  | [] => []
  | block :: rest =>
      let header := BRR.byteAt block 0 in
      let shift := (header / 16) mod 16 in
      let filter := (header / 4) mod 4 in
      let '(out, p') := decodeNibbles shift filter p (nibblesOf block) in
      out ++ decodeBlocks p' rest
  end.

(** The decoded int16 stream, "starting from p1 = p2 = 0". *)
Definition decode (blocks : list (list Z)) : list Z := decodeBlocks (0, 0) blocks.

(** A 9-byte block. *)
Definition brrBlock (block : list Z) : Prop :=
  length block = 9%nat /\ Forall uint8 block.

(** "Encoding with predictor state carried between calls": the encoder of
    the specification takes the initial history and hands back the final
    one; for the rest it is [encodeBRR]. *)
Definition encodeFrom (x : list float) (p : Z * Z) : list (list Z) * (Z * Z) :=
  let st := BRR.encodeBlocks (BRR.padPcm (BRR.toPcm16 x)) (fst p) (snd p) in
  (BRR.markEnd (BRR.brrBlocks st), (BRR.st_p1 st, BRR.st_p2 st)).

(** "x[0..16k] followed by x[16k..]", as one byte stream. *)
Definition encodeSplit (x : list float) (k : nat) : list (list Z) :=
  let '(first, p) := encodeFrom (take (16 * k) x) (0, 0) in
  first ++ fst (encodeFrom (drop (16 * k) x) p).

(** The trial mean-squared error of a block under the parameters
    [(s, f)]. *)
Definition trialMse (pcmBlock : list Z) (p1 p2 s f : Z) : number :=
  BRR.tr_error (BRR.processBlock pcmBlock s f p1 p2 false).

(** "No pair in {0..12} x {0..3} yields a strictly lower trial MSE, and
    among the pairs attaining the minimal MSE the selected one is the first
    in shift-outer, filter-inner order." *)
Definition localOptimum (pcmBlock : list Z) (p1 p2 s0 f0 : Z) : Prop :=
  (0 <= s0 <= 12 /\ 0 <= f0 <= 3) /\
  forall s f, 0 <= s <= 12 -> 0 <= f <= 3 ->
    num_ltb (trialMse pcmBlock p1 p2 s f) (trialMse pcmBlock p1 p2 s0 f0) = false /\
    (num_ltb (trialMse pcmBlock p1 p2 s0 f0) (trialMse pcmBlock p1 p2 s f) = false ->
     s0 < s \/ (s0 = s /\ f0 <= f)).

(** Two blocks that differ at most in bits 1..0 of the header byte. *)
Definition sameButFlags (block1 block2 : list Z) : Prop :=
  Z.shiftr (BRR.byteAt block1 0) 2 = Z.shiftr (BRR.byteAt block2 0) 2 /\
  drop 1 block1 = drop 1 block2.

(** [max |x[i]|] over a signal, 0 for the empty one. *)
Definition maxAbs (x : list Q) : Q := foldr (fun s m => Qmax (Qabs s) m) 0%Q x.

End Spec.

(** ** The specification's wording for the signal helpers *)

Module SignalSpec.
Import Signal.

(** "y[i] = c0 x[i-1] + c1 x[i] + c0 x[i+1] for every interior index,
    y[0] = (c1 + c0) x[0] + c0 x[1], and
    y[N-1] = c0 x[N-2] + (c1 + c0) x[N-1], where c0 = 372/2048 and
    c1 = 1304/2048", in the arithmetic [F] and before the store. *)
Definition gaussTap {F : Type} `{Arith F} (x : list F) (i : nat) : F :=
  let N := length x in
  let c0 := (ar_lit 372 / ar_lit 2048)%A in
  let c1 := (ar_lit 1304 / ar_lit 2048)%A in
  if (i =? 0)%nat then ((c1 + c0) * get x 0 + c0 * get x 1)%A
  else if (i =? N - 1)%nat then (c0 * get x (N - 2) + (c1 + c0) * get x (N - 1))%A
  else (c0 * get x (i - 1) + c1 * get x i + c0 * get x (i + 1))%A.

(** "floor(x.length * tgt / sr)", for integer sample rates. *)
Definition downsampledLength (n : nat) (sr tgt : Z) : nat :=
  Z.to_nat (Z.of_nat n * tgt / sr).

End SignalSpec.

(** ** Checks by enumeration *)

Module Check.

(** [f] holds on the [n] integers from [start]. *)
Fixpoint allFrom (f : Z -> bool) (start : Z) (n : nat) : bool :=
  match n with
  | O => true
  | S n' => f start && allFrom f (start + 1) n'
  end.

(** The 52 candidates of the encoder's search, in the order in which the
    two nested loops visit them. *)
Definition candidates : list (Z * Z) := s ← seqZ 0 13; f ← seqZ 0 4; [(s, f)].

(** A block of 16 int16 samples, for the examples. *)
Definition sampleBlock : list Z :=
  [16384; 8192; -9830; 29490; 32767; -32768; 3277; 0;
   32767; -32768; 0; 32767; 1; -1; 100; -100].

(** The number that [decodeBRR] stores for the int16 sample [s] lies in
    [-1, 1] and is exactly [s / 32768]. *)
Definition unitSample (s : Z) : bool :=
  let x := F64.store32 (F64.of_Z s / 32768)%float in
  (-1 <=? x)%float && (x <=? 1)%float &&
  match F64.value x with
  | Some q => Qeq_bool q (s # 32768)
  | None => false
  end.

End Check.

(** ** The quantizer of the encoder *)

Module Quantizer.
Import JS.

(** [quantizedNibble] as [processBlock] computes it in every turn, from
    the sample, the halved prediction [vlin] and the shift. *)
Definition quantizedNibble (pcmSample : option Z) (vlin shiftAmount : Z) : Z :=
  let diff := sar (default 0 pcmSample) 1 - vlin in
  let diff_abs := Z.abs diff in
  let diff :=
    if (diff_abs >? 16384) && (diff_abs <? 32768)
    then (if diff >? 0 then diff - 32768 else diff + 32768)
    else diff in
  let step := shl 1 shiftAmount in
  let dp_quant_offset := diff + shl step 2 + sar step 2 in
  let c :=
    if dp_quant_offset >? 0 then
      let c :=
        if step >? 1
        then bor (Qtruncate (inject_Z dp_quant_offset / (inject_Z step / 2))) 0
        else dp_quant_offset * 2 in
      if c >? 15 then 15 else c
    else 0 in
  c - 8.

(** [wrappedReconstructedSample], from the nibble. *)
Definition reconstructed (quantizedNibble vlin shiftAmount : Z) : Z :=
  let dp_dequant := sar (shl quantizedNibble shiftAmount) 1 in
  let halfSample := vlin + dp_dequant in
  let clampedHalf := BRR.clamp16 halfSample in
  BRR.wrap16 (clampedHalf * 2).

(** The sum of the squared differences of two blocks of samples. *)
Definition squaredError (pcmBlock decoded : list Z) : Z :=
  foldr Z.add 0 (zip_with (fun x d => (x - d) * (x - d)) pcmBlock decoded).

End Quantizer.

(** ** The Mid/Side split and the stereo mix *)

(** Besides the operations of [Arith], the split and the mix subtract, and
    the mix tests a sample for truthiness ([m || 0]: a number is falsy
    when it is a zero or [NaN]). *)
Class ArithSub (F : Type) `{Arith F} := {
  ar_sub : F -> F -> F;
  ar_truthy : F -> bool
}.

#[export] Instance float_ArithSub : ArithSub float := {
  ar_sub := PrimFloat.sub;
  ar_truthy := fun x => negb (PrimFloat.is_nan x || PrimFloat.is_zero x)
}.

Module MidSide.
Import Signal.

(** An [AudioBuffer]: its [length] in sample frames and the data of its
    channels.  (The Web Audio API gives every channel [length] samples;
    the theorems assume it.) *)
Record audioBuffer (F : Type) := AudioBuffer {
  ab_length : nat;
  channelData : list (list F)
}.
Arguments AudioBuffer {F} _ _.
Arguments ab_length {F} _.
Arguments channelData {F} _.

Section Stereo.
Context {F : Type} `{ArithSub F}.
Local Open Scope arith_scope.

Definition numberOfChannels (buffer : audioBuffer F) : nat :=
  length (channelData buffer).

(** [getChannelData(c)]; [None] is the [IndexSizeError] for a channel
    that the buffer does not have. *)
Definition getChannelData (buffer : audioBuffer F) (c : nat) : option (list F) :=
  channelData buffer !! c.

(** One turn of the loop of [convertToMidSide], on [(midSignal,
    sideSignal)]. *)
Definition splitStep (leftChannel rightChannel : list F) (st : list F * list F)
    (i : nat) : list F * list F :=
  let leftSample := get leftChannel i in
  let rightSample := get rightChannel i in
  (<[i := ar_store32 ((leftSample + rightSample) / ar_lit 2)]> (fst st),
   <[i := ar_store32 (ar_sub leftSample rightSample / ar_lit 2)]> (snd st)).

(** [convertToMidSide]; [None] is the [null] returned for a buffer that
    is not stereo. *)
Definition convertToMidSide (stereoBuffer : audioBuffer F)
    : option (list F * list F) :=
  if negb (numberOfChannels stereoBuffer =? 2)%nat then None
  else
    leftChannel ← getChannelData stereoBuffer 0;
    rightChannel ← getChannelData stereoBuffer 1;
    let sampleCount := ab_length stereoBuffer in
    let midSignal := replicate sampleCount (ar_lit 0) in
    let sideSignal := replicate sampleCount (ar_lit 0) in
    Some (fold_left (splitStep leftChannel rightChannel) (seq 0 sampleCount)
            (midSignal, sideSignal)).

(** [a[i] || 0], where [a[i]] is [undefined] past the end of the array. *)
Definition orZero (sample : option F) : F :=
  match sample with
  | Some v => if ar_truthy v then v else ar_lit 0
  | None => ar_lit 0
  end.

(** One turn of the mixing loop of [reconstructStereo], on [(left,
    right)]. *)
Definition mixStep (finalMid finalSide : list F) (st : list F * list F) (i : nat)
    : list F * list F :=
  let m := orZero (finalMid !! i) in
  let s := orZero (finalSide !! i) in
  (<[i := ar_store32 (m + s)]> (fst st),
   <[i := ar_store32 (ar_sub m s)]> (snd st)).

(** The end of [reconstructStereo] (app.js): the mix of the two final
    signals into [{left, right}]. *)
Definition reconstructStereo_mix (finalMid finalSide : list F) : list F * list F :=
  let len := Nat.max (length finalMid) (length finalSide) in
  let left := replicate len (ar_lit 0) in
  let right := replicate len (ar_lit 0) in
  fold_left (mixStep finalMid finalSide) (seq 0 len) (left, right).

End Stereo.

End MidSide.

(** ** The WAV writers *)

Module Wav.
Import JS.

(** [Math.min] and [Math.max] at two numbers: [NaN] as soon as one of
    them is, and [-0] below [+0]. *)
Definition Math_min (a b : float) : float :=
  if (is_nan a || is_nan b)%bool then nan
  else if (a <? b)%float then a
  else if (b <? a)%float then b
  else match classify a with NZero => a | _ => b end.

Definition Math_max (a b : float) : float :=
  if (is_nan a || is_nan b)%bool then nan
  else if (b <? a)%float then a
  else if (a <? b)%float then b
  else match classify a with PZero => a | _ => b end.

(** A [DataView] over a fresh [ArrayBuffer] is the list of the bytes of
    the buffer.  A setter throws a [RangeError] ([None]) unless the bytes
    it writes lie inside the buffer. *)
Definition setBytes (view : list Z) (byteOffset : nat) (bytes : list Z)
    : option (list Z) :=
  if (byteOffset + length bytes <=? length view)%nat
  then Some (take byteOffset view ++ bytes ++ drop (byteOffset + length bytes) view)
  else None.

(** The bytes of [ToUint16(n)] and of [ToUint32(n)], least significant
    first ([littleEndian] is [true] at every call). *)
Definition uint16LE (n : Z) : list Z :=
  let v := n mod 2 ^ 16 in [v mod 256; v / 256].

Definition uint32LE (n : Z) : list Z :=
  let v := n mod 2 ^ 32 in
  [v mod 256; (v / 2 ^ 8) mod 256; (v / 2 ^ 16) mod 256; v / 2 ^ 24].

(** The setters take the integer part of the number they are given. *)
Definition setUint8 (view : list Z) (byteOffset : nat) (value : Z) : option (list Z) :=
  setBytes view byteOffset [toUint8 value].

Definition setUint16 (view : list Z) (byteOffset : nat) (value : Z) : option (list Z) :=
  setBytes view byteOffset (uint16LE value).

Definition setUint32 (view : list Z) (byteOffset : nat) (value : Z) : option (list Z) :=
  setBytes view byteOffset (uint32LE value).

(** [setInt16] stores [ToInt16(n)] in two's complement: the bytes of
    [ToUint16(n)]. *)
Definition setInt16 (view : list Z) (byteOffset : nat) (value : Z) : option (list Z) :=
  setBytes view byteOffset (uint16LE (toInt16 value)).

Definition charCode (c : ascii) : Z := Z.of_N (N_of_ascii c).

(** [writeString]; [charCodeAt] past the end of the string is [NaN],
    stored as 0. *)
Definition writeString (view : list Z) (offset : nat) (string : list ascii)
    : option (list Z) :=
  fold_left
    (fun view i =>
       view ← view;
       setUint8 view (offset + i) (default 0 (charCode <$> string !! i)))
    (seq 0 (length string)) (Some view).

(** The number that both writers hand to [setInt16] for a sample
    ([undefined] past the end of the array, which [Math.min] reads as
    [NaN]). *)
Definition pcmValue (sample : option float) : float :=
  let s := Math_max (-1) (Math_min 1 (default nan sample)) in
  if (s <? 0)%float then (s * 32768)%float else (s * 32767)%float.

(** The int16 value that [setInt16] stores for a sample of the signal. *)
Definition pcm16 (sample : option float) : Z := toInt16 (F64.trunc (pcmValue sample)).

(** One turn of the sample loop of [encodeWAV], on [(view, offset)]. *)
Definition wavStep (samples : list float) (st : option (list Z * nat)) (i : nat)
    : option (list Z * nat) :=
  '(view, offset) ← st;
  view ← setInt16 view offset (F64.trunc (pcmValue (samples !! i)));
  Some (view, (offset + 2)%nat).

(** [encodeWAV]: the bytes of the [Blob] that is returned. *)
Definition encodeWAV (samples : list float) (sampleRate : float) : option (list Z) :=
  let view := replicate (44 + length samples * 2) 0 in
  view ← writeString view 0 ["R"; "I"; "F"; "F"]%char;
  view ← setUint32 view 4 (36 + Z.of_nat (length samples) * 2);
  view ← writeString view 8 ["W"; "A"; "V"; "E"]%char;
  view ← writeString view 12 ["f"; "m"; "t"; " "]%char;
  view ← setUint32 view 16 16;
  view ← setUint16 view 20 1;
  view ← setUint16 view 22 1;
  view ← setUint32 view 24 (F64.trunc sampleRate);
  view ← setUint32 view 28 (F64.trunc (sampleRate * 2)%float);
  view ← setUint16 view 32 2;
  view ← setUint16 view 34 16;
  view ← writeString view 36 ["d"; "a"; "t"; "a"]%char;
  view ← setUint32 view 40 (Z.of_nat (length samples) * 2);
  fst <$> fold_left (wavStep samples) (seq 0 (length samples)) (Some (view, 44%nat)).

(** One turn of the frame loop of [encodeStereoWAV]. *)
Definition stereoStep (leftChannel rightChannel : list float)
    (st : option (list Z * nat)) (i : nat) : option (list Z * nat) :=
  '(view, offset) ← st;
  view ← setInt16 view offset (F64.trunc (pcmValue (leftChannel !! i)));
  let offset := (offset + 2)%nat in
  view ← setInt16 view offset (F64.trunc (pcmValue (rightChannel !! i)));
  let offset := (offset + 2)%nat in
  Some (view, offset).

Definition encodeStereoWAV (leftChannel rightChannel : list float) (sampleRate : float)
    : option (list Z) :=
  let length := Nat.min (length leftChannel) (length rightChannel) in
  let view := replicate (44 + length * 4) 0 in
  view ← writeString view 0 ["R"; "I"; "F"; "F"]%char;
  view ← setUint32 view 4 (36 + Z.of_nat length * 4);
  view ← writeString view 8 ["W"; "A"; "V"; "E"]%char;
  view ← writeString view 12 ["f"; "m"; "t"; " "]%char;
  view ← setUint32 view 16 16;
  view ← setUint16 view 20 1;
  view ← setUint16 view 22 2;
  view ← setUint32 view 24 (F64.trunc sampleRate);
  view ← setUint32 view 28 (F64.trunc (sampleRate * 4)%float);
  view ← setUint16 view 32 4;
  view ← setUint16 view 34 16;
  view ← writeString view 36 ["d"; "a"; "t"; "a"]%char;
  view ← setUint32 view 40 (Z.of_nat length * 4);
  fst <$> fold_left (stereoStep leftChannel rightChannel) (seq 0 length)
            (Some (view, 44%nat)).

End Wav.

(** ** The page script (app.js) *)

Module App.

(** [result.set(source, offset)] between two [Uint8Array]s; [None] is the
    [RangeError] for a source that does not fit. *)
Definition set (target source : list Z) (offset : nat) : option (list Z) :=
  if (offset + length source <=? length target)%nat
  then Some (take offset target ++ source ++ drop (offset + length source) target)
  else None.

(** [concatenateBlobs]: the bytes of a downloaded [.brr] file. *)
Definition concatenateBlobs (blocksArray : list (list Z)) : option (list Z) :=
  let totalLength := (length blocksArray * 9)%nat in
  fold_left
    (fun result i =>
       result ← result;
       block ← blocksArray !! i;
       set result block (i * 9))
    (seq 0 (length blocksArray)) (Some (replicate totalLength 0)).

End App.

(** ** Checks by enumeration, for the WAV writers *)

Module CheckWav.

(** The int16 value that [encodeWAV] stores for the number that
    [decodeBRR] returns for the int16 sample [s]: [s] itself when
    [s <= 0], [s - 1] otherwise. *)
Definition decodedSample (s : Z) : bool :=
  let x := F64.store32 (F64.of_Z s / 32768)%float in
  Wav.pcm16 (Some x) =? (if s <=? 0 then s else s - 1).

End CheckWav.

(** * Part II: theorems *)

(** ** Facts about the integer conversions *)

Section IntegerFacts.
Import JS.

Lemma toInt32_range n : int32 (toInt32 n).
Proof. unfold int32, toInt32. pose proof (Z.mod_pos_bound (n + 2 ^ 31) (2 ^ 32)). lia. Qed.

Lemma toInt32_id n : int32 n -> toInt32 n = n.
Proof. unfold int32, toInt32. intros Hn. rewrite Z.mod_small; lia. Qed.

Lemma toInt16_range n : int16 (toInt16 n).
Proof. unfold int16, toInt16. pose proof (Z.mod_pos_bound (n + 2 ^ 15) (2 ^ 16)). lia. Qed.

Lemma toInt16_id n : int16 n -> toInt16 n = n.
Proof. unfold int16, toInt16. intros Hn. rewrite Z.mod_small; lia. Qed.

Lemma toUint8_range n : uint8 (toUint8 n).
Proof. unfold uint8, toUint8. apply Z.mod_pos_bound. lia. Qed.

Lemma uint8_int32 n : uint8 n -> int32 n.
Proof. unfold uint8, int32. lia. Qed.

(** An arithmetic right shift is a floor division. *)
Lemma sar_div a k : int32 a -> 0 <= k < 32 -> sar a k = a / 2 ^ k.
Proof.
  intros Ha Hk. unfold sar. rewrite toInt32_id by assumption.
  rewrite Z.mod_small by lia. apply Z.shiftr_div_pow2. lia.
Qed.

(** A left shift that stays in the int32 range is a multiplication. *)
Lemma shl_mul a k :
  int32 a -> 0 <= k < 32 -> int32 (a * 2 ^ k) -> shl a k = a * 2 ^ k.
Proof.
  intros Ha Hk Hr. unfold shl. rewrite (toInt32_id a) by assumption.
  rewrite Z.mod_small by lia. rewrite Z.shiftl_mul_pow2 by lia.
  apply toInt32_id. assumption.
Qed.

(** Masking a non-negative int32 with [2^k - 1] keeps its low [k] bits. *)
Lemma band_ones a k :
  int32 a -> 0 <= a -> 0 <= k < 31 -> band a (2 ^ k - 1) = a mod 2 ^ k.
Proof.
  intros Ha Hpos Hk. unfold band. rewrite (toInt32_id a) by assumption.
  assert (0 < 2 ^ k) by (apply Z.pow_pos_nonneg; lia).
  assert (2 ^ k < 2 ^ 31) by (apply Z.pow_lt_mono_r; lia).
  rewrite toInt32_id by (unfold int32; lia).
  replace (2 ^ k - 1) with (Z.ones k) by (rewrite Z.ones_equiv; lia).
  apply Z.land_ones. lia.
Qed.

Lemma Math_round_int n : Math_round (inject_Z n) = n.
Proof.
  unfold Math_round, inject_Z, Qfloor. simpl.
  Z.div_mod_to_equations. lia.
Qed.

End IntegerFacts.

(** ** Facts about the primitives of the codec *)

Section PrimitiveFacts.
Import JS BRR.

(** [wrap16] is the [ToInt16] conversion, and the specification's
    reduction modulo 2^16. *)
Lemma wrap16_toInt16 n : wrap16 n = toInt16 n.
Proof.
  unfold wrap16, shl. rewrite sar_div; [| apply toInt32_range | lia].
  change (16 mod 32) with 16. rewrite Z.shiftl_mul_pow2 by lia.
  unfold toInt32, toInt16.
  change (2 ^ 31) with 2147483648. change (2 ^ 32) with 4294967296.
  change (2 ^ 16) with 65536. change (2 ^ 15) with 32768.
  Z.div_mod_to_equations. lia.
Qed.

Lemma wrap16_int16 n : int16 (wrap16 n).
Proof. rewrite wrap16_toInt16. apply toInt16_range. Qed.

Lemma stored_wrap16 n : toInt16 (wrap16 n) = Spec.wrap16 n.
Proof.
  rewrite toInt16_id by apply wrap16_int16. rewrite wrap16_toInt16. reflexivity.
Qed.

Lemma clamp16_spec n : clamp16 n = Spec.clamp n.
Proof.
  unfold clamp16, Spec.clamp. rewrite Math_round_int.
  destruct (Z.gtb_spec n 32767), (Z.ltb_spec n (-32768)); lia.
Qed.

(** The prediction in integer arithmetic: the numerators over the common
    denominator, rounded half up. *)
Lemma getPrediction_int filter p1 p2 :
  getPrediction filter p1 p2 =
  toInt16 (if filter =? 1 then (15 * p1 + 8) / 16
           else if filter =? 2 then (61 * p1 - 30 * p2 + 16) / 32
           else if filter =? 3 then (115 * p1 - 52 * p2 + 32) / 64
           else 0).
Proof.
  unfold getPrediction. rewrite wrap16_toInt16. f_equal.
  destruct (filter =? 1); [|destruct (filter =? 2); [|destruct (filter =? 3)]];
    unfold Math_round, Qfloor, Qplus, Qminus, Qopp, Qmult, inject_Z; simpl.
  all: Z.div_mod_to_equations; lia.
Qed.

Lemma getPrediction_int16 filter p1 p2 : int16 (getPrediction filter p1 p2).
Proof. apply wrap16_int16. Qed.

End PrimitiveFacts.

(** ** The decoder against the recurrence of the specification *)

Section DecoderFacts.
Import JS BRR.

Ltac cases16 x H :=
  assert (x = 0 \/ x = 1 \/ x = 2 \/ x = 3 \/ x = 4 \/ x = 5 \/ x = 6 \/ x = 7 \/
          x = 8 \/ x = 9 \/ x = 10 \/ x = 11 \/ x = 12 \/ x = 13 \/ x = 14 \/ x = 15)
    as H by lia;
  repeat (destruct H as [H | H]; [subst x | ]); [ .. | subst x].

(** The part of [decodeNibble] before the prediction is added. *)
Lemma decodeNibble_base shift nibble :
  0 <= shift < 16 -> 0 <= nibble < 16 ->
  (let signedNibble := if band nibble 8 =? 0 then nibble else nibble - 16 in
   if shift <=? 12 then sar (shl signedNibble shift) 1
   else if signedNibble <? 0 then -2048 else 2048) =
  (let signed := Spec.signExtend4 nibble in
   if shift <=? 12 then (signed * 2 ^ shift) / 2
   else if signed <? 0 then -2048 else 2048).
Proof.
  intros Hs Hn. cases16 shift Hs'; cases16 nibble Hn'; vm_compute; reflexivity.
Qed.

Lemma decodeNibble_spec shift filter nibble p1 p2 :
  0 <= shift < 16 -> 0 <= nibble < 16 ->
  decodeNibble shift filter nibble p1 p2 = Spec.sampleOf shift filter (p1, p2) nibble.
Proof.
  intros Hs Hn. unfold decodeNibble, Spec.sampleOf. cbv zeta.
  pose proof (decodeNibble_base shift nibble Hs Hn) as Hb. cbv zeta in Hb.
  rewrite Hb, clamp16_spec. simpl fst. simpl snd.
  set (v := Spec.clamp _). unfold Spec.wrap15.
  assert (-32768 <= v <= 32767) by (unfold v, Spec.clamp; lia).
  destruct (Z.gtb_spec v 16383), (Z.ltb_spec 16383 v); try lia.
  destruct (Z.ltb_spec (v - 32768) (-16384)); lia.
Qed.

(** The history of the decoder stays within 15 bits, and that of the
    encoder within 16: the range in which the products of [getPrediction]
    are exact in binary64. *)
Lemma decodeNibble_range shift filter nibble p1 p2 :
  -16384 <= decodeNibble shift filter nibble p1 p2 <= 16383.
Proof.
  unfold decodeNibble. cbv zeta. rewrite clamp16_spec.
  set (v := Spec.clamp _).
  assert (-32768 <= v <= 32767) by (unfold v, Spec.clamp; lia).
  destruct (Z.gtb_spec v 16383).
  - destruct (Z.ltb_spec (v - 32768) (-16384)); lia.
  - destruct (Z.ltb_spec v (-16384)); lia.
Qed.

Lemma processSample_history pcmBlock s f writeMode st i :
  int16 (bs_p1 st) ->
  int16 (bs_p1 (processSample pcmBlock s f writeMode st i)) /\
  int16 (bs_p2 (processSample pcmBlock s f writeMode st i)).
Proof.
  intros Hp1. unfold processSample. cbn [bs_p1 bs_p2].
  split; [apply wrap16_int16 | exact Hp1].
Qed.

(** The two nibbles of a byte and the fields of a header. *)
Lemma high_nibble byte : uint8 byte -> sar byte 4 = byte / 16 /\ 0 <= byte / 16 < 16.
Proof.
  intros Hb. rewrite sar_div by (auto using uint8_int32 || lia).
  change (2 ^ 4) with 16. unfold uint8 in Hb. change (2 ^ 8) with 256 in Hb.
  split; [reflexivity | Z.div_mod_to_equations; lia].
Qed.

Lemma low_nibble byte : uint8 byte -> band byte 15 = byte mod 16 /\ 0 <= byte mod 16 < 16.
Proof.
  intros Hb. change 15 with (2 ^ 4 - 1).
  rewrite band_ones by (auto using uint8_int32 || (unfold uint8 in Hb; lia)).
  change (2 ^ 4) with 16. split; [reflexivity | apply Z.mod_pos_bound; lia].
Qed.

Lemma header_shift header :
  uint8 header ->
  band (sar header 4) 15 = (header / 16) mod 16 /\ 0 <= (header / 16) mod 16 < 16.
Proof.
  intros Hb. destruct (high_nibble header Hb) as [-> Hr].
  change 15 with (2 ^ 4 - 1).
  rewrite band_ones by (unfold int32; lia).
  change (2 ^ 4) with 16. split; [reflexivity | apply Z.mod_pos_bound; lia].
Qed.

Lemma header_filter header :
  uint8 header -> band (sar header 2) 3 = (header / 4) mod 4.
Proof.
  intros Hb. rewrite sar_div by (auto using uint8_int32 || lia).
  change (2 ^ 2) with 4. unfold uint8 in Hb. change (2 ^ 8) with 256 in Hb.
  assert (0 <= header / 4 < 64) by (Z.div_mod_to_equations; lia).
  change 3 with (2 ^ 2 - 1). rewrite band_ones by (unfold int32; lia).
  reflexivity.
Qed.

(** One turn of the inner loop, on an array split at the position that
    the turn writes. *)
Lemma decodeByte_spec block blockIndex shift filter i byte pre z1 z2 rest p1 p2 :
  block !! (i + 1)%nat = Some byte -> uint8 byte -> 0 <= shift < 16 ->
  length pre = (blockIndex * 16 + i * 2)%nat ->
  decodeByte block blockIndex shift filter (Decoder (pre ++ z1 :: z2 :: rest) p1 p2) i =
  let s1 := Spec.sampleOf shift filter (p1, p2) (byte / 16) in
  let s2 := Spec.sampleOf shift filter (s1, p1) (byte mod 16) in
  Decoder (pre ++ Spec.wrap16 (s1 * 2) :: Spec.wrap16 (s2 * 2) :: rest) s2 s1.
Proof.
  intros Hbyte Hu Hs Hpre. unfold decodeByte, byteAt. rewrite Hbyte. simpl.
  destruct (high_nibble byte Hu) as [-> Hhi].
  destruct (low_nibble byte Hu) as [-> Hlo].
  rewrite !decodeNibble_spec by assumption.
  rewrite !stored_wrap16. f_equal.
  rewrite <- Hpre.
  replace (length pre) with (length pre + 0)%nat at 2 by lia.
  rewrite insert_app_r. simpl.
  rewrite insert_app_r. reflexivity.
Qed.

Lemma decodeNibbles_length shift filter nibbles : forall p,
  length (fst (Spec.decodeNibbles shift filter p nibbles)) = length nibbles.
Proof.
  induction nibbles as [|n ns IH]; intros p; simpl; [reflexivity|].
  specialize (IH (Spec.sampleOf shift filter p n, fst p)).
  destruct (Spec.decodeNibbles _ _ _ ns) as [out p']. simpl in *. lia.
Qed.

Lemma nibbles_length (bytes : list Z) :
  length (byte ← bytes; [byte / 16; byte mod 16]) = (2 * length bytes)%nat.
Proof.
  induction bytes as [|b bs IH]; [reflexivity|].
  rewrite bind_cons, length_app, IH. simpl. lia.
Qed.

(** The inner loop over the data bytes that remain in a block. *)
Lemma decodeBytes_spec blockIndex shift filter rest bytes :
  0 <= shift < 16 -> Forall uint8 bytes ->
  forall hd i pre zs p1 p2,
  length hd = (i + 1)%nat ->
  length zs = (2 * length bytes)%nat ->
  length pre = (blockIndex * 16 + i * 2)%nat ->
  fold_left (decodeByte (hd ++ bytes) blockIndex shift filter) (seq i (length bytes))
    (Decoder (pre ++ zs ++ rest) p1 p2) =
  let '(out, p') :=
    Spec.decodeNibbles shift filter (p1, p2) (byte ← bytes; [byte / 16; byte mod 16]) in
  Decoder (pre ++ out ++ rest) (fst p') (snd p').
Proof.
  intros Hs Hbytes. induction Hbytes as [|b bs Hb Hbs IH];
    intros hd i pre zs p1 p2 Hhd Hzs Hpre.
  - destruct zs; [|discriminate]. reflexivity.
  - destruct zs as [|z1 [|z2 zs]]; simpl in Hzs; try lia.
    cbn [length seq fold_left app].
    rewrite (decodeByte_spec _ _ _ _ _ b) by
      (try assumption; rewrite <- Hhd; apply list_lookup_middle; reflexivity).
    cbv zeta.
    set (s1 := Spec.sampleOf shift filter (p1, p2) (b / 16)).
    set (s2 := Spec.sampleOf shift filter (s1, p1) (b mod 16)).
    specialize (IH (hd ++ [b]) (S i) (pre ++ [Spec.wrap16 (s1 * 2); Spec.wrap16 (s2 * 2)])
                  zs s2 s1).
    rewrite <- !app_assoc in IH. cbn [app] in IH.
    rewrite IH by (rewrite ?length_app; simpl in *; lia).
    cbn [mbind list_bind app]. cbn [Spec.decodeNibbles fst snd].
    fold s1. fold s2.
    destruct (Spec.decodeNibbles shift filter (s2, s1) _) as [out p'].
    rewrite <- app_assoc. reflexivity.
Qed.

(** The outer loop over the blocks that remain in the stream. *)
Lemma decodeBlocks_spec rest :
  Forall Spec.brrBlock rest ->
  forall done pre p1 p2,
  length pre = (length done * 16)%nat ->
  pcmSamples
    (fold_left (decodeBlock (done ++ rest)) (seq (length done) (length rest))
       (Decoder (pre ++ replicate (length rest * 16) 0) p1 p2)) =
  pre ++ Spec.decodeBlocks (p1, p2) rest.
Proof.
  induction 1 as [|block rest [Hlen Hu] Hrest IH]; intros done pre p1 p2 Hpre.
  - reflexivity.
  - cbn [length seq fold_left]. unfold decodeBlock at 2.
    rewrite list_lookup_middle by reflexivity.
    destruct block as [|h bytes]; [discriminate|].
    apply Forall_cons in Hu as [Hh Hbytes].
    change (byteAt (h :: bytes) 0) with h.
    destruct (header_shift h Hh) as [-> Hs]. rewrite (header_filter h Hh).
    replace (S (length rest) * 16)%nat with (16 + length rest * 16)%nat by lia.
    rewrite replicate_add.
    simpl in Hlen. injection Hlen as Hlen.
    pose proof (decodeBytes_spec (length done) ((h / 16) mod 16) ((h / 4) mod 4)
                  (replicate (length rest * 16) 0) bytes Hs Hbytes [h] 0%nat pre
                  (replicate 16 0) p1 p2) as Hin.
    cbn [app] in Hin. rewrite Hlen in Hin.
    rewrite Hin by (rewrite ?length_replicate; simpl; lia).
    clear Hin. cbn [Spec.decodeBlocks]. change (byteAt (h :: bytes) 0) with h.
    unfold Spec.nibblesOf.
    assert (take 8 (drop 1 (h :: bytes)) = bytes) as ->.
    { cbn [drop]. rewrite drop_0, take_ge by lia. reflexivity. }
    pose proof (decodeNibbles_length ((h / 16) mod 16) ((h / 4) mod 4)
                  (byte ← bytes; [byte / 16; byte mod 16]) (p1, p2)) as Hout.
    destruct (Spec.decodeNibbles _ _ _ _) as [out p']. simpl in Hout.
    specialize (IH (done ++ [h :: bytes]) (pre ++ out) (fst p') (snd p')).
    rewrite <- !app_assoc in IH. cbn [app] in IH.
    rewrite !length_app in IH. cbn [length] in IH.
    replace (length done + 1)%nat with (S (length done)) in IH by lia.
    rewrite IH.
    + destruct p'. reflexivity.
    + rewrite Hout, nibbles_length. lia.
Qed.

(** The samples written by the decoder stay in the int16 range. *)
Lemma decodeByte_int16 block blockIndex shift filter st i :
  Forall int16 (pcmSamples st) ->
  Forall int16 (pcmSamples (decodeByte block blockIndex shift filter st i)).
Proof.
  intros Hst. unfold decodeByte. cbn [pcmSamples].
  repeat apply Forall_insert; auto using toInt16_range.
Qed.

Lemma decodeBRR_pcm_int16 brrBlocks : Forall int16 (decodeBRR_pcm brrBlocks).
Proof.
  unfold decodeBRR_pcm.
  set (st0 := Decoder _ 0 0).
  assert (Forall int16 (pcmSamples st0)) as Hst0.
  { apply Forall_replicate. unfold int16. lia. }
  generalize dependent st0. generalize (seq 0 (length brrBlocks)) as idx.
  induction idx as [|k idx IH]; intros st0 Hst0; [assumption|].
  apply IH. unfold decodeBlock. destruct (brrBlocks !! k) as [block|]; [|assumption].
  generalize (seq 0 8) as js. intros js. revert st0 Hst0.
  induction js as [|j js IHj]; intros st0 Hst0; [assumption|].
  apply IHj. apply decodeByte_int16. assumption.
Qed.

Lemma decodeBRR_pcm_length brrBlocks :
  length (decodeBRR_pcm brrBlocks) = (length brrBlocks * 16)%nat.
Proof.
  unfold decodeBRR_pcm.
  set (st0 := Decoder _ 0 0).
  assert (length (pcmSamples st0) = (length brrBlocks * 16)%nat) as Hst0
    by apply length_replicate.
  generalize dependent st0. generalize (seq 0 (length brrBlocks)) as idx.
  induction idx as [|k idx IH]; intros st0 Hst0; [assumption|].
  apply IH. unfold decodeBlock. destruct (brrBlocks !! k) as [block|]; [|assumption].
  generalize (seq 0 8) as js. intros js. revert st0 Hst0.
  induction js as [|j js IHj]; intros st0 Hst0; [assumption|].
  apply IHj. unfold decodeByte. cbn [pcmSamples]. rewrite !length_insert. assumption.
Qed.

Lemma decodeBRR_pcm_decode blocks :
  Forall Spec.brrBlock blocks -> decodeBRR_pcm blocks = Spec.decode blocks.
Proof.
  intros Hblocks. unfold decodeBRR_pcm, Spec.decode.
  apply (decodeBlocks_spec blocks Hblocks [] [] 0 0). reflexivity.
Qed.

End DecoderFacts.

Import JS BRR.

(** C1. For every ordered list of 9-byte blocks, the int16 samples that
    [decodeBRR] computes are exactly [blocks * 16] in number and are those
    of the per-nibble recurrence of the specification, started from
    [p1 = p2 = 0], each stored at the position of its nibble in the order
    of the blocks, of the data bytes, and high nibble before low nibble. *)
Theorem decodeBRR_recurrence (blocks : list (list Z)) :
  Forall Spec.brrBlock blocks ->
  decodeBRR_pcm blocks = Spec.decode blocks /\
  length (decodeBRR_pcm blocks) = (length blocks * 16)%nat.
Proof.
  intros Hblocks. split.
  - apply decodeBRR_pcm_decode. assumption.
  - apply decodeBRR_pcm_length.
Qed.

(** The theorem on a stream of one block (shift 12, filter 2). *)
Lemma decodeBRR_recurrence_witness :
  decodeBRR_pcm [[200; 18; 52; 247; 128; 0; 0; 0; 255]] =
    Spec.decode [[200; 18; 52; 247; 128; 0; 0; 0; 255]] /\
  length (decodeBRR_pcm [[200; 18; 52; 247; 128; 0; 0; 0; 255]]) = 16%nat.
Proof.
  apply (decodeBRR_recurrence [[200; 18; 52; 247; 128; 0; 0; 0; 255]]).
  repeat constructor; unfold uint8; lia.
Defined.

(** ** The decoder: the flags of the header, the float output *)

Lemma sameButFlags_fields h1 h2 :
  uint8 h1 -> uint8 h2 -> Z.shiftr h1 2 = Z.shiftr h2 2 ->
  (h1 / 16) mod 16 = (h2 / 16) mod 16 /\ (h1 / 4) mod 4 = (h2 / 4) mod 4.
Proof.
  intros _ _ Heq. rewrite !Z.shiftr_div_pow2 in Heq by lia.
  change (2 ^ 2) with 4 in Heq.
  replace (h1 / 16) with (h1 / 4 / 4) by (rewrite Z.div_div by lia; reflexivity).
  replace (h2 / 16) with (h2 / 4 / 4) by (rewrite Z.div_div by lia; reflexivity).
  rewrite Heq. split; reflexivity.
Qed.

Lemma decodeBlocks_sameButFlags blocks1 blocks2 :
  Forall Spec.brrBlock blocks1 -> Forall Spec.brrBlock blocks2 ->
  Forall2 Spec.sameButFlags blocks1 blocks2 ->
  forall p, Spec.decodeBlocks p blocks1 = Spec.decodeBlocks p blocks2.
Proof.
  intros H1 H2 Hsame. revert H1 H2.
  induction Hsame as [|b1 b2 bs1 bs2 [Hh Hd] Hrest IH]; intros H1 H2 p; [reflexivity|].
  apply Forall_cons in H1 as [[Hl1 Hu1] H1]. apply Forall_cons in H2 as [[Hl2 Hu2] H2].
  destruct b1 as [|h1 d1]; [discriminate|]. destruct b2 as [|h2 d2]; [discriminate|].
  apply Forall_cons in Hu1 as [Hu1 _]. apply Forall_cons in Hu2 as [Hu2 _].
  change (byteAt (h1 :: d1) 0) with h1 in Hh. change (byteAt (h2 :: d2) 0) with h2 in Hh.
  cbn [Spec.decodeBlocks]. unfold Spec.nibblesOf. rewrite Hd.
  change (byteAt (h1 :: d1) 0) with h1. change (byteAt (h2 :: d2) 0) with h2.
  destruct (sameButFlags_fields h1 h2 Hu1 Hu2 Hh) as [-> ->].
  destruct (Spec.decodeNibbles _ _ _ _) as [out p']. f_equal. apply IH; assumption.
Qed.

(** C10. The output of [decodeBRR] depends only on bits 7..2 of each
    header byte and on the data bytes: two lists of 9-byte blocks that
    differ at most in bits 1..0 of their headers (the LOOP and END flags)
    decode to the same samples, so the decoder neither stops at the END
    bit nor reacts to it. *)
Theorem decodeBRR_ignores_flags (blocks1 blocks2 : list (list Z)) :
  Forall Spec.brrBlock blocks1 -> Forall Spec.brrBlock blocks2 ->
  Forall2 Spec.sameButFlags blocks1 blocks2 ->
  decodeBRR blocks1 = decodeBRR blocks2.
Proof.
  intros H1 H2 Hsame. unfold decodeBRR. f_equal.
  rewrite !decodeBRR_pcm_decode by assumption.
  apply decodeBlocks_sameButFlags; assumption.
Qed.

(** The theorem on two streams of two blocks whose headers differ in the
    two flag bits. *)
Lemma decodeBRR_ignores_flags_witness :
  decodeBRR [[200; 18; 52; 247; 128; 0; 0; 0; 255]; [69; 113; 127; 0; 0; 0; 0; 0; 1]] =
  decodeBRR [[203; 18; 52; 247; 128; 0; 0; 0; 255]; [68; 113; 127; 0; 0; 0; 0; 0; 1]].
Proof.
  apply decodeBRR_ignores_flags.
  - repeat constructor; unfold uint8; lia.
  - repeat constructor; unfold uint8; lia.
  - repeat constructor.
Defined.

Lemma allFrom_spec f n : forall start,
  Check.allFrom f start n = true ->
  forall z, start <= z < start + Z.of_nat n -> f z = true.
Proof.
  induction n as [|n IH]; intros start Hall z Hz; [lia|].
  simpl in Hall. apply andb_true_iff in Hall as [Hhd Htl].
  destruct (Z.eq_dec z start) as [->|Hne]; [assumption|].
  apply (IH (start + 1) Htl). lia.
Qed.

Lemma unitSample_all : Check.allFrom Check.unitSample (-32768) (Z.to_nat 65536) = true.
Proof. vm_compute. reflexivity. Qed.

Lemma unitSample_int16 s : int16 s -> Check.unitSample s = true.
Proof.
  intros Hs. apply (allFrom_spec _ _ _ unitSample_all).
  unfold int16 in Hs. rewrite Z2Nat.id by lia. lia.
Qed.

(** C7. The float output of [decodeBRR] is the decoded int16 stream divided
    pointwise by 32768.0 (the division and the store into the
    [Float32Array] are exact), and every sample of it lies in [-1, 1]. *)
Theorem decodeBRR_float_range (blocks : list (list Z)) :
  decodeBRR blocks =
    (fun s => F64.store32 (F64.of_Z s / 32768)%float) <$> decodeBRR_pcm blocks /\
  Forall (fun x => (-1 <=? x)%float = true /\ (x <=? 1)%float = true) (decodeBRR blocks) /\
  Forall2 (fun x s => exists q, F64.value x = Some q /\ (q == inject_Z s / 32768)%Q)
    (decodeBRR blocks) (decodeBRR_pcm blocks).
Proof.
  split; [reflexivity|]. unfold decodeBRR.
  pose proof (decodeBRR_pcm_int16 blocks) as Hpcm.
  induction Hpcm as [|s pcm Hs Hpcm [IH1 IH2]]; [split; constructor|].
  pose proof (unitSample_int16 s Hs) as Hu. unfold Check.unitSample in Hu. cbv zeta in Hu.
  apply andb_true_iff in Hu as [Hu Hv]. apply andb_true_iff in Hu as [Hlo Hhi].
  split; constructor; try assumption.
  - split; assumption.
  - destruct (F64.value _) as [q|]; [|discriminate].
    exists q. split; [reflexivity|]. apply Qeq_bool_iff in Hv. rewrite Hv.
    unfold Qeq, Qdiv, Qmult, Qinv, inject_Z. simpl. lia.
Qed.

(** ** The encoder: the shape of the stream *)

(** A property of the loop variables that every turn preserves holds when
    the loop ends. *)
Lemma fold_left_invariant {A B} (P : A -> Prop) (f : A -> B -> A) (l : list B) :
  (forall a b, P a -> P (f a b)) -> forall a, P a -> P (fold_left f l a).
Proof.
  intros Hstep. induction l as [|b l IH]; intros a Ha; [assumption|].
  simpl. apply IH, Hstep, Ha.
Qed.

Lemma uint8_0 : uint8 0.
Proof. unfold uint8. lia. Qed.

Lemma processSample_buffer pcmBlock s f writeMode st i :
  Spec.brrBlock (brrBuffer st) ->
  Spec.brrBlock (brrBuffer (processSample pcmBlock s f writeMode st i)).
Proof.
  intros [Hlen Hu]. unfold processSample. cbn [brrBuffer].
  destruct writeMode; [|split; assumption].
  destruct (i mod 2 =? 0)%nat; split; rewrite ?length_insert; try assumption;
    apply Forall_insert; auto using toUint8_range.
Qed.

Lemma processBlock_block pcmBlock s f p1 p2 :
  Spec.brrBlock (en_block (processBlock pcmBlock s f p1 p2 true)).
Proof.
  unfold processBlock. cbn [en_block].
  apply (fold_left_invariant (fun st => Spec.brrBlock (brrBuffer st))).
  - intros st i. apply processSample_buffer.
  - split; [reflexivity|]. apply Forall_replicate, uint8_0.
Qed.

Lemma findAndEncodeBlock_block pcmBlock p1 p2 :
  Spec.brrBlock (en_block (findAndEncodeBlock pcmBlock p1 p2)).
Proof.
  unfold findAndEncodeBlock. cbn [en_block].
  destruct (processBlock_block pcmBlock
              (bestShift (searchParameters pcmBlock p1 p2))
              (bestFilter (searchParameters pcmBlock p1 p2)) p1 p2) as [Hlen Hu].
  split; [rewrite length_insert; assumption|].
  apply Forall_insert; auto using toUint8_range.
Qed.

(** The block loop appends one block per turn. *)
Lemma encodeLoop_blocks (P : list Z -> Prop) paddedPcmData idx :
  (forall pcmBlock p1 p2, P (en_block (findAndEncodeBlock pcmBlock p1 p2))) ->
  forall st, Forall P (brrBlocks st) ->
  Forall P (brrBlocks (fold_left (encodeStep paddedPcmData) idx st)) /\
  length (brrBlocks (fold_left (encodeStep paddedPcmData) idx st)) =
    (length (brrBlocks st) + length idx)%nat.
Proof.
  intros HP. induction idx as [|i idx IH]; intros st Hst; simpl.
  - split; [assumption | lia].
  - destruct (IH (encodeStep paddedPcmData st i)) as [IH1 IH2].
    + unfold encodeStep. cbn [brrBlocks]. apply Forall_app. split; [assumption|].
      constructor; [apply HP | constructor].
    + split; [assumption|]. rewrite IH2. unfold encodeStep. cbn [brrBlocks].
      rewrite length_app. simpl. lia.
Qed.

Lemma padPcm_length pcmData :
  length (padPcm pcmData) = (16 * ((length pcmData + 15) / 16))%nat.
Proof.
  unfold padPcm. rewrite length_app, length_replicate.
  generalize (length pcmData) as n. intros n.
  pose proof (Nat.div_mod_eq n 16). pose proof (Nat.mod_upper_bound n 16).
  pose proof (Nat.div_mod_eq (n + 15) 16). pose proof (Nat.mod_upper_bound (n + 15) 16).
  pose proof (Nat.div_mod_eq (16 - n mod 16) 16).
  pose proof (Nat.mod_upper_bound (16 - n mod 16) 16).
  lia.
Qed.

Lemma encodeBlocks_blocks (P : list Z -> Prop) paddedPcmData p1 p2 :
  (forall pcmBlock q1 q2, P (en_block (findAndEncodeBlock pcmBlock q1 q2))) ->
  Forall P (brrBlocks (encodeBlocks paddedPcmData p1 p2)) /\
  length (brrBlocks (encodeBlocks paddedPcmData p1 p2)) =
    ((length paddedPcmData + 15) / 16)%nat.
Proof.
  intros HP. unfold encodeBlocks.
  destruct (encodeLoop_blocks P paddedPcmData
              ((fun k => k * 16)%nat <$> seq 0 ((length paddedPcmData + 15) / 16))
              HP (Stream [] p1 p2)) as [H1 H2]; [constructor|].
  split; [assumption|]. rewrite H2, length_fmap, length_seq. reflexivity.
Qed.

Lemma markEnd_length brrBlocks : length (markEnd brrBlocks) = length brrBlocks.
Proof. unfold markEnd. destruct (last brrBlocks); [apply length_insert | reflexivity]. Qed.

Lemma markEnd_blocks brrBlocks :
  Forall Spec.brrBlock brrBlocks -> Forall Spec.brrBlock (markEnd brrBlocks).
Proof.
  intros Hb. unfold markEnd. destruct (last brrBlocks) as [block|] eqn:Hlast; [|assumption].
  apply Forall_insert; [assumption|].
  assert (Spec.brrBlock block) as [Hlen Hu].
  { rewrite last_lookup in Hlast. eapply Forall_lookup_1; eassumption. }
  split; [rewrite length_insert; assumption|].
  apply Forall_insert; auto using toUint8_range.
Qed.

Lemma encodeBRR_length (x : list float) :
  length (encodeBRR x) = ((length x + 15) / 16)%nat.
Proof.
  unfold encodeBRR. rewrite markEnd_length.
  destruct (encodeBlocks_blocks (fun _ => True) (padPcm (toPcm16 x)) 0 0) as [_ ->];
    [constructor|].
  rewrite padPcm_length. unfold toPcm16. rewrite length_fmap.
  generalize ((length x + 15) / 16)%nat as n. intros n.
  pose proof (Nat.div_mod_eq (16 * n + 15) 16).
  pose proof (Nat.mod_upper_bound (16 * n + 15) 16). lia.
Qed.

Lemma encodeBRR_blocks (x : list float) : Forall Spec.brrBlock (encodeBRR x).
Proof.
  unfold encodeBRR. apply markEnd_blocks.
  apply encodeBlocks_blocks. apply findAndEncodeBlock_block.
Qed.

(** C5. For a float input of length N, [encodeBRR] returns ceil(N/16)
    blocks, each of exactly 9 bytes, and [decodeBRR] applied to them
    returns ceil(N/16) * 16 samples (the int16 array it fills has that
    length too). *)
Theorem block_size_law (x : list float) :
  let blocks := ((length x + 15) / 16)%nat in
  length (encodeBRR x) = blocks /\
  Forall Spec.brrBlock (encodeBRR x) /\
  length (decodeBRR_pcm (encodeBRR x)) = (blocks * 16)%nat /\
  length (decodeBRR (encodeBRR x)) = (blocks * 16)%nat.
Proof.
  cbv zeta. split; [apply encodeBRR_length|]. split; [apply encodeBRR_blocks|].
  unfold decodeBRR. rewrite length_fmap, decodeBRR_pcm_length, encodeBRR_length.
  split; reflexivity.
Qed.

(** ** The encoder: the search for the parameters of a block *)

Lemma num_ltb_Fin x y : num_ltb (Fin x) (Fin y) = true <-> (x < y)%Q.
Proof.
  unfold num_ltb. rewrite negb_true_iff, <- not_true_iff_false, Qle_bool_iff.
  split; [apply Qnot_le_lt | apply Qlt_not_le].
Qed.

Lemma num_ltb_Fin_false x y : num_ltb (Fin x) (Fin y) = false <-> (y <= x)%Q.
Proof.
  unfold num_ltb. rewrite negb_false_iff. apply Qle_bool_iff.
Qed.

(** Two nested loops visit the pairs of their ranges in lexicographic
    order. *)
Lemma fold_left_nested {A B C} (g : A -> B -> C -> A) (ss : list B) (fs : list C) :
  forall a,
  fold_left (fun a s => fold_left (fun a f => g a s f) fs a) ss a =
  fold_left (fun a c => g a (fst c) (snd c)) (s ← ss; f ← fs; [(s, f)]) a.
Proof.
  induction ss as [|s ss IH]; intros a; [reflexivity|].
  rewrite bind_cons, fold_left_app. cbn [fold_left]. rewrite IH. f_equal.
  clear. revert a. induction fs as [|f fs IHf]; intros a; [reflexivity|].
  rewrite bind_cons. cbn [fold_left app]. apply IHf.
Qed.

Lemma fold_left_invariant_in {A B} (P : A -> Prop) (f : A -> B -> A) (l : list B) :
  (forall a b, b ∈ l -> P a -> P (f a b)) -> forall a, P a -> P (fold_left f l a).
Proof.
  induction l as [|b l IH]; intros Hstep a Ha; [assumption|].
  simpl. apply IH.
  - intros a' b' Hb'. apply Hstep. right. assumption.
  - apply Hstep; [left | assumption].
Qed.

Section Search.
Variables (pcmBlock : list Z) (p1 p2 : Z).

Local Abbreviation err c := (tr_error (processBlock pcmBlock (fst c) (snd c) p1 p2 false)).
Local Abbreviation step := (fun b c => tryParameters pcmBlock p1 p2 b (fst c) (snd c)).

(** On a block of 16 samples the error of a trial is a finite number. *)
Lemma trial_error_finite s f :
  length pcmBlock = 16%nat ->
  exists q, tr_error (processBlock pcmBlock s f p1 p2 false) = Fin q.
Proof.
  intros Hlen. unfold processBlock. cbn [tr_error].
  set (st := fold_left _ _ _).
  assert (is_Some (totalError st)) as [t ->]; [|eexists; reflexivity].
  apply (fold_left_invariant_in (fun st => is_Some (totalError st))); [|eexists; reflexivity].
  intros a i Hi [t Ht]. apply elem_of_seq in Hi.
  destruct (lookup_lt_is_Some_2 pcmBlock i) as [v Hv]; [lia|].
  unfold processSample. cbn [totalError]. rewrite Ht, Hv. cbn.
  destruct (_ || _); eexists; reflexivity.
Qed.

(** What the search has found after the candidates [cands]: nothing yet,
    or the first of the candidates with the least error. *)
Lemma search_first_least cands :
  length pcmBlock = 16%nat ->
  (cands = [] /\ fold_left step cands (Best Infinity 0 0) = Best Infinity 0 0) \/
  (exists i c,
     cands !! i = Some c /\
     fold_left step cands (Best Infinity 0 0) = Best (err c) (fst c) (snd c) /\
     (forall c', c' ∈ cands -> num_ltb (err c') (err c) = false) /\
     (forall j c', (j < i)%nat -> cands !! j = Some c' -> num_ltb (err c) (err c') = true)).
Proof.
  intros Hlen.
  assert (forall c, exists q, err c = Fin q) as Hfin
    by (intros c; apply trial_error_finite; assumption).
  induction cands as [|x l IH] using rev_ind; [left; split; reflexivity|].
  right. rewrite fold_left_app. cbn [fold_left].
  destruct (Hfin x) as [qx Hx].
  destruct IH as [[-> ->] | (i & c & Hi & -> & Hleast & Hfirst)].
  - exists 0%nat, x. unfold tryParameters. cbn [bestError]. rewrite Hx. cbn [num_ltb].
    repeat split.
    + intros c' Hc'. apply list_elem_of_singleton in Hc' as ->. rewrite Hx.
      apply num_ltb_Fin_false, Qle_refl.
    + intros j c' Hj. lia.
  - destruct (Hfin c) as [qc Hc].
    unfold tryParameters. cbn [bestError]. destruct (num_ltb (err x) (err c)) eqn:Hlt.
    + exists (length l), x. repeat split.
      * apply list_lookup_middle. reflexivity.
      * intros c' Hc'. apply elem_of_app in Hc' as [Hc' | Hc'].
        -- destruct (Hfin c') as [qc' Hqc'].
           specialize (Hleast c' Hc'). rewrite Hqc', Hc in Hleast.
           rewrite Hx, Hc in Hlt. rewrite Hqc', Hx.
           apply num_ltb_Fin_false. apply num_ltb_Fin_false in Hleast.
           apply num_ltb_Fin in Hlt. apply Qlt_le_weak.
           eapply Qlt_le_trans; eassumption.
        -- apply list_elem_of_singleton in Hc' as ->. rewrite Hx.
           apply num_ltb_Fin_false, Qle_refl.
      * intros j c' Hj Hc'. rewrite lookup_app_l in Hc' by assumption.
        assert (c' ∈ l) as Hin by (eapply list_elem_of_lookup_2; eassumption).
        destruct (Hfin c') as [qc' Hqc'].
        specialize (Hleast c' Hin). rewrite Hqc', Hc in Hleast.
        rewrite Hx, Hc in Hlt. rewrite Hqc', Hx.
        apply num_ltb_Fin. apply num_ltb_Fin_false in Hleast.
        apply num_ltb_Fin in Hlt. eapply Qlt_le_trans; eassumption.
    + exists i, c. repeat split.
      * rewrite lookup_app_l; [assumption|]. eapply lookup_lt_Some. eassumption.
      * intros c' Hc'. apply elem_of_app in Hc' as [Hc' | Hc']; [auto|].
        apply list_elem_of_singleton in Hc' as ->. assumption.
      * intros j c' Hj Hc'. apply (Hfirst j c' Hj).
        rewrite lookup_app_l in Hc'; [assumption|].
        apply lookup_lt_Some in Hi. lia.
Qed.

(** The search, as one loop over the candidates. *)
Lemma searchParameters_flat :
  searchParameters pcmBlock p1 p2 =
  fold_left step Check.candidates (Best Infinity 0 0).
Proof.
  unfold searchParameters, Check.candidates.
  apply (fold_left_nested (fun b s f => tryParameters pcmBlock p1 p2 b s f)).
Qed.

End Search.

(** The place of a candidate in the order of the search. *)
Lemma candidates_lookup i c :
  Check.candidates !! i = Some c ->
  Z.of_nat i = 4 * fst c + snd c /\ 0 <= fst c <= 12 /\ 0 <= snd c <= 3.
Proof.
  intros Hc.
  do 52 (destruct i as [|i]; [injection Hc as <-; vm_compute; intuition congruence|]).
  discriminate.
Qed.

Lemma candidates_at s f :
  0 <= s <= 12 -> 0 <= f <= 3 -> Check.candidates !! Z.to_nat (4 * s + f) = Some (s, f).
Proof.
  intros Hs Hf.
  assert (s = 0 \/ s = 1 \/ s = 2 \/ s = 3 \/ s = 4 \/ s = 5 \/ s = 6 \/ s = 7 \/
          s = 8 \/ s = 9 \/ s = 10 \/ s = 11 \/ s = 12) as Hs' by lia.
  assert (f = 0 \/ f = 1 \/ f = 2 \/ f = 3) as Hf' by lia.
  repeat (destruct Hs' as [Hs' | Hs']; [subst s | ]); [ .. | subst s];
    repeat (destruct Hf' as [Hf' | Hf']; [subst f | ]); try subst f; reflexivity.
Qed.

(** The parameters that the search returns are in the ranges of its
    loops, whatever the block. *)
Lemma searchParameters_range pcmBlock p1 p2 :
  0 <= bestShift (searchParameters pcmBlock p1 p2) <= 12 /\
  0 <= bestFilter (searchParameters pcmBlock p1 p2) <= 3.
Proof.
  rewrite searchParameters_flat.
  apply (fold_left_invariant_in
           (fun b => 0 <= bestShift b <= 12 /\ 0 <= bestFilter b <= 3)).
  - intros b c Hc Hb. apply list_elem_of_lookup in Hc as [i Hi].
    apply candidates_lookup in Hi. unfold tryParameters.
    destruct (num_ltb _ _); [cbn; lia | assumption].
  - cbn. lia.
Qed.

(** The header byte that [findAndEncodeBlock] writes. *)
Lemma header_value s f :
  0 <= s <= 12 -> 0 <= f <= 3 -> toUint8 (bor (shl s 4) (shl f 2)) = 16 * s + 4 * f.
Proof.
  intros Hs Hf.
  assert (s = 0 \/ s = 1 \/ s = 2 \/ s = 3 \/ s = 4 \/ s = 5 \/ s = 6 \/ s = 7 \/
          s = 8 \/ s = 9 \/ s = 10 \/ s = 11 \/ s = 12) as Hs' by lia.
  assert (f = 0 \/ f = 1 \/ f = 2 \/ f = 3) as Hf' by lia.
  repeat (destruct Hs' as [Hs' | Hs']; [subst s | ]); [ .. | subst s];
    repeat (destruct Hf' as [Hf' | Hf']; [subst f | ]); try subst f; reflexivity.
Qed.

Lemma findAndEncodeBlock_header pcmBlock p1 p2 :
  byteAt (en_block (findAndEncodeBlock pcmBlock p1 p2)) 0 =
  16 * bestShift (searchParameters pcmBlock p1 p2) +
  4 * bestFilter (searchParameters pcmBlock p1 p2).
Proof.
  unfold findAndEncodeBlock. cbn [en_block].
  destruct (searchParameters_range pcmBlock p1 p2) as [Hs Hf].
  destruct (processBlock_block pcmBlock
              (bestShift (searchParameters pcmBlock p1 p2))
              (bestFilter (searchParameters pcmBlock p1 p2)) p1 p2) as [Hlen _].
  unfold byteAt. rewrite list_lookup_insert_eq by lia. cbn.
  apply header_value; assumption.
Qed.



(** [findAndEncodeBlock] returns what the final run of [processBlock]
    returns, with the header written into byte 0. *)
Lemma findAndEncodeBlock_en_block pcmBlock p1 p2 :
  en_block (findAndEncodeBlock pcmBlock p1 p2) =
  <[0%nat := toUint8 (bor (shl (bestShift (searchParameters pcmBlock p1 p2)) 4)
                         (shl (bestFilter (searchParameters pcmBlock p1 p2)) 2))]>
    (en_block (processBlock pcmBlock (bestShift (searchParameters pcmBlock p1 p2))
                 (bestFilter (searchParameters pcmBlock p1 p2)) p1 p2 true)).
Proof.
  unfold findAndEncodeBlock. cbv zeta. cbv beta iota delta [en_block]. reflexivity.
Qed.

Lemma findAndEncodeBlock_en_p1 pcmBlock p1 p2 :
  en_p1 (findAndEncodeBlock pcmBlock p1 p2) =
  en_p1 (processBlock pcmBlock (bestShift (searchParameters pcmBlock p1 p2))
           (bestFilter (searchParameters pcmBlock p1 p2)) p1 p2 true).
Proof.
  unfold findAndEncodeBlock. cbv zeta. cbv beta iota delta [en_p1]. reflexivity.
Qed.

Lemma findAndEncodeBlock_en_p2 pcmBlock p1 p2 :
  en_p2 (findAndEncodeBlock pcmBlock p1 p2) =
  en_p2 (processBlock pcmBlock (bestShift (searchParameters pcmBlock p1 p2))
           (bestFilter (searchParameters pcmBlock p1 p2)) p1 p2 true).
Proof.
  unfold findAndEncodeBlock. cbv zeta. cbv beta iota delta [en_p2]. reflexivity.
Qed.

(** C2. For a block of 16 int16 samples and an incoming history
    [(p1, p2)], [findAndEncodeBlock] re-encodes the block in write mode
    with the pair [(shift, filter)] that its search selected and writes
    that pair into the header; no pair of {0..12} x {0..3} has a strictly
    lower trial mean-squared error under [processBlock], and among the
    pairs with the least error the selected one comes first in the order
    shift outer, filter inner.  (The int16 ranges are those in which the
    script's binary64 arithmetic is the exact arithmetic of the model; the
    proof does not need them.) *)
Theorem findAndEncodeBlock_optimal (pcmBlock : list Z) (p1 p2 : Z) :
  length pcmBlock = 16%nat -> Forall int16 pcmBlock -> int16 p1 -> int16 p2 ->
  let b := searchParameters pcmBlock p1 p2 in
  let final := processBlock pcmBlock (bestShift b) (bestFilter b) p1 p2 true in
  en_block (findAndEncodeBlock pcmBlock p1 p2) =
    <[0%nat := 16 * bestShift b + 4 * bestFilter b]> (en_block final) /\
  en_p1 (findAndEncodeBlock pcmBlock p1 p2) = en_p1 final /\
  en_p2 (findAndEncodeBlock pcmBlock p1 p2) = en_p2 final /\
  bestError b = Spec.trialMse pcmBlock p1 p2 (bestShift b) (bestFilter b) /\
  Spec.localOptimum pcmBlock p1 p2 (bestShift b) (bestFilter b).
Proof.
  intros Hlen _ _ _. cbv zeta.
  rewrite findAndEncodeBlock_en_block, findAndEncodeBlock_en_p1, findAndEncodeBlock_en_p2.
  rewrite header_value by apply searchParameters_range.
  split; [reflexivity|]. split; [reflexivity|]. split; [reflexivity|].
  pose proof (searchParameters_range pcmBlock p1 p2) as Hrange.
  rewrite searchParameters_flat in *.
  destruct (search_first_least pcmBlock p1 p2 Check.candidates Hlen)
    as [[Hnil _] | (i & c & Hi & Hb & Hleast & Hfirst)]; [discriminate|].
  rewrite Hb in *. cbn [bestError bestShift bestFilter] in *.
  unfold Spec.localOptimum, Spec.trialMse.
  split; [reflexivity|]. split; [exact Hrange|].
  intros s f Hs Hf. pose proof (candidates_at s f Hs Hf) as Hj. split.
  - apply (Hleast (s, f)). eapply list_elem_of_lookup_2. eassumption.
  - intros Hnot. destruct (candidates_lookup i c Hi) as (Hpos & _ & Hcf).
    destruct (Nat.lt_ge_cases (Z.to_nat (4 * s + f)) i) as [Hlt | Hge].
    + specialize (Hfirst _ _ Hlt Hj). cbn [fst snd] in Hfirst.
      rewrite Hfirst in Hnot. discriminate.
    + lia.
Qed.

(** The theorem on the block of the examples, from the history (0, 0). *)
Lemma findAndEncodeBlock_optimal_witness :
  let b := searchParameters Check.sampleBlock 0 0 in
  let final := processBlock Check.sampleBlock (bestShift b) (bestFilter b) 0 0 true in
  en_block (findAndEncodeBlock Check.sampleBlock 0 0) =
    <[0%nat := 16 * bestShift b + 4 * bestFilter b]> (en_block final) /\
  en_p1 (findAndEncodeBlock Check.sampleBlock 0 0) = en_p1 final /\
  en_p2 (findAndEncodeBlock Check.sampleBlock 0 0) = en_p2 final /\
  bestError b = Spec.trialMse Check.sampleBlock 0 0 (bestShift b) (bestFilter b) /\
  Spec.localOptimum Check.sampleBlock 0 0 (bestShift b) (bestFilter b).
Proof.
  refine (findAndEncodeBlock_optimal Check.sampleBlock 0 0 _ _ _ _).
  - reflexivity.
  - unfold Check.sampleBlock. repeat constructor; unfold int16; lia.
  - unfold int16; lia.
  - unfold int16; lia.
Defined.

(** ** The encoder: the flags of the headers *)

(** A block as the block loop leaves it: 9 bytes, END and LOOP clear. *)
Local Abbreviation unflagged block :=
  (Spec.brrBlock block /\
   Z.testbit (byteAt block 0) 0 = false /\ Z.testbit (byteAt block 0) 1 = false).

Lemma findAndEncodeBlock_unflagged pcmBlock p1 p2 :
  unflagged (en_block (findAndEncodeBlock pcmBlock p1 p2)).
Proof.
  split; [apply findAndEncodeBlock_block|].
  rewrite findAndEncodeBlock_header.
  destruct (searchParameters_range pcmBlock p1 p2) as [Hs Hf].
  set (s := bestShift _) in *. set (f := bestFilter _) in *.
  replace (16 * s + 4 * f) with ((4 * s + f) * 2 ^ 2) by lia.
  split; apply Z.mul_pow2_bits_low; lia.
Qed.

Lemma end_flag_bits h :
  uint8 h -> Z.testbit h 1 = false ->
  Z.testbit (toUint8 (bor h 1)) 0 = true /\ Z.testbit (toUint8 (bor h 1)) 1 = false.
Proof.
  intros Hh Hbit. unfold toUint8, bor.
  rewrite (toInt32_id h) by (apply uint8_int32; assumption).
  rewrite (toInt32_id 1) by (unfold int32; lia).
  rewrite !Z.mod_pow2_bits_low, !Z.lor_spec, Hbit by lia.
  split; [apply orb_true_r | reflexivity].
Qed.

(** C4. For a non-empty input the stream of [encodeBRR] is not empty, the
    END bit (0x01) is set in the header of the final block and of no other
    block, and the LOOP bit (0x02) is clear in every header; for the empty
    input the stream is empty. *)
Theorem header_bit_law (x : list float) :
  (x = [] -> encodeBRR x = []) /\
  (x <> [] -> (0 < length (encodeBRR x))%nat) /\
  forall i block, encodeBRR x !! i = Some block ->
    Z.testbit (byteAt block 0) 1 = false /\
    (Z.testbit (byteAt block 0) 0 = true <-> S i = length (encodeBRR x)).
Proof.
  split; [intros ->; reflexivity|]. split.
  { intros Hx. rewrite encodeBRR_length. destruct x as [|x0 x]; [congruence|].
    cbn [length]. apply (Nat.div_str_pos (S (length x) + 15) 16). lia. }
  intros i block. unfold encodeBRR.
  destruct (encodeBlocks_blocks (fun b => unflagged b) (padPcm (toPcm16 x)) 0 0
              findAndEncodeBlock_unflagged) as [Hplain _].
  set (bs := brrBlocks _) in *. unfold markEnd.
  destruct (last bs) as [lastBlock|] eqn:Hlast.
  - rewrite length_insert. rewrite last_lookup in Hlast.
    assert (0 < length bs)%nat as Hpos.
    { destruct bs; [discriminate | simpl; lia]. }
    replace (Init.Nat.pred (length bs)) with (length bs - 1)%nat in Hlast by lia.
    destruct (decide (i = (length bs - 1)%nat)) as [-> | Hne].
    + rewrite list_lookup_insert_eq by lia. intros [= <-].
      destruct (Forall_lookup_1 _ _ _ _ Hplain Hlast) as ([Hlen Hu] & _ & Hloop).
      assert (uint8 (byteAt lastBlock 0)) as Hh.
      { destruct lastBlock as [|h t]; [discriminate|]. apply Forall_cons in Hu as [Hu _].
        exact Hu. }
      unfold byteAt at 1 3. rewrite list_lookup_insert_eq by lia. cbn [default from_option id].
      destruct (end_flag_bits _ Hh Hloop) as [H0 H1]. rewrite H0, H1.
      split; [reflexivity|]. split; intros _; [lia | reflexivity].
    + rewrite list_lookup_insert_ne by congruence. intros Hi.
      destruct (Forall_lookup_1 _ _ _ _ Hplain Hi) as (_ & Hend & Hloop).
      apply lookup_lt_Some in Hi. split; [assumption|].
      rewrite Hend. split; [discriminate | lia].
  - rewrite last_None in Hlast. rewrite Hlast. intros Hi. discriminate.
Qed.

(** ** The encoder: splitting the input at a block boundary *)

Lemma fold_left_ext_in {A B} (f g : A -> B -> A) (l : list B) :
  (forall a b, b ∈ l -> f a b = g a b) -> forall a, fold_left f l a = fold_left g l a.
Proof.
  induction l as [|b l IH]; intros Hfg a; [reflexivity|].
  simpl. rewrite Hfg by left. apply IH. intros a' b' Hb'. apply Hfg. right. assumption.
Qed.

Lemma padPcm_app l1 l2 k :
  length l1 = (16 * k)%nat -> padPcm (l1 ++ l2) = l1 ++ padPcm l2.
Proof.
  intros Hlen. unfold padPcm. rewrite length_app, Hlen, <- app_assoc.
  replace (16 * k + length l2)%nat with (length l2 + k * 16)%nat by lia.
  rewrite Nat.Div0.mod_add. reflexivity.
Qed.

Lemma padPcm_aligned l k : length l = (16 * k)%nat -> padPcm l = l.
Proof.
  intros Hlen. unfold padPcm. rewrite Hlen.
  replace (16 * k)%nat with (0 + k * 16)%nat by lia.
  rewrite Nat.Div0.mod_add. cbn. apply app_nil_r.
Qed.

Lemma fold_left_nil {A B} (f : A -> B -> A) (a : A) : fold_left f [] a = a.
Proof. reflexivity. Qed.

Lemma fold_left_cons {A B} (f : A -> B -> A) (b : B) (l : list B) (a : A) :
  fold_left f (b :: l) a = fold_left f l (f a b).
Proof. reflexivity. Qed.

Lemma encodeStep_eq paddedPcmData blocks p1 p2 i :
  encodeStep paddedPcmData (Stream blocks p1 p2) i =
  Stream
    (blocks ++ [en_block (findAndEncodeBlock (take 16 (drop i paddedPcmData)) p1 p2)])
    (en_p1 (findAndEncodeBlock (take 16 (drop i paddedPcmData)) p1 p2))
    (en_p2 (findAndEncodeBlock (take 16 (drop i paddedPcmData)) p1 p2)).
Proof. unfold encodeStep. cbv zeta. cbv beta iota delta [brrBlocks st_p1 st_p2]. reflexivity. Qed.

(** The blocks already pushed do not influence the blocks to come. *)
Lemma encodeLoop_prefix paddedPcmData idx pre :
  forall bs p1 p2,
  fold_left (encodeStep paddedPcmData) idx (Stream (pre ++ bs) p1 p2) =
  let st := fold_left (encodeStep paddedPcmData) idx (Stream bs p1 p2) in
  Stream (pre ++ brrBlocks st) (st_p1 st) (st_p2 st).
Proof.
  induction idx as [|i idx IH]; intros bs p1 p2.
  { rewrite !fold_left_nil. reflexivity. }
  rewrite !fold_left_cons, !encodeStep_eq.
  generalize (findAndEncodeBlock (take 16 (drop i paddedPcmData)) p1 p2) as e. intros e.
  rewrite <- app_assoc. apply IH.
Qed.

(** Shifting the indices of the loop by a whole number of blocks. *)
Lemma encodeLoop_shift l2 k idx :
  forall st,
  fold_left (fun st i => encodeStep l2 st (i - 16 * k)%nat)
    ((fun j => (k + j) * 16)%nat <$> idx) st =
  fold_left (encodeStep l2) ((fun j => j * 16)%nat <$> idx) st.
Proof.
  induction idx as [|j idx IH]; intros st.
  - rewrite !fmap_nil, !fold_left_nil. reflexivity.
  - rewrite !fmap_cons, !fold_left_cons.
    replace ((k + j) * 16 - 16 * k)%nat with (j * 16)%nat by lia. apply IH.
Qed.

(** The block loop on an input cut at a multiple of 16 samples. *)
Lemma encodeBlocks_app l1 l2 k p1 p2 :
  length l1 = (16 * k)%nat ->
  encodeBlocks (l1 ++ l2) p1 p2 =
  let st1 := encodeBlocks l1 p1 p2 in
  let st2 := encodeBlocks l2 (st_p1 st1) (st_p2 st1) in
  Stream (brrBlocks st1 ++ brrBlocks st2) (st_p1 st2) (st_p2 st2).
Proof.
  intros Hlen. unfold encodeBlocks. rewrite length_app, Hlen.
  replace ((16 * k + length l2 + 15) / 16)%nat with (k + (length l2 + 15) / 16)%nat
    by (replace (16 * k + length l2 + 15)%nat with (k * 16 + (length l2 + 15))%nat by lia;
        rewrite Nat.div_add_l by lia; reflexivity).
  replace ((16 * k + 15) / 16)%nat with k
    by (replace (16 * k + 15)%nat with (k * 16 + 15)%nat by lia;
        rewrite Nat.div_add_l by lia; change (15 / 16)%nat with 0%nat; lia).
  set (m := ((length l2 + 15) / 16)%nat).
  rewrite seq_app, fmap_app, fold_left_app. cbn [Nat.add].
  rewrite (fold_left_ext_in (encodeStep (l1 ++ l2)) (encodeStep l1)
             ((fun j => j * 16)%nat <$> seq 0 k)).
  2: { intros st i Hi. apply list_elem_of_fmap in Hi as (j & -> & Hj).
       apply elem_of_seq in Hj. unfold encodeStep.
       rewrite drop_app_le by lia. rewrite take_app_le by (rewrite length_drop; lia).
       reflexivity. }
  set (st1 := fold_left (encodeStep l1) _ _).
  replace (seq k m) with (seq (k + 0) m) by (f_equal; lia).
  rewrite <- (fmap_add_seq k 0 m), <- list_fmap_compose.
  unfold compose. cbv beta.
  rewrite (fold_left_ext_in (encodeStep (l1 ++ l2)) (fun st i => encodeStep l2 st (i - 16 * k)%nat)).
  2: { intros st i Hi. apply list_elem_of_fmap in Hi as (j & -> & Hj).
       unfold encodeStep.
       replace ((k + j) * 16)%nat with (length l1 + j * 16)%nat by lia.
       rewrite drop_app_add'  by reflexivity.
       replace (length l1 + j * 16 - 16 * k)%nat with (j * 16)%nat by lia. reflexivity. }
  rewrite encodeLoop_shift. cbv zeta. clearbody st1.
  destruct st1 as [bs1 q1 q2]. cbn [brrBlocks st_p1 st_p2].
  rewrite <- (app_nil_r bs1) at 1. rewrite encodeLoop_prefix. reflexivity.
Qed.

Lemma markEnd_app bs1 bs2 : bs2 <> [] -> markEnd (bs1 ++ bs2) = bs1 ++ markEnd bs2.
Proof.
  intros Hne. unfold markEnd. rewrite last_app.
  destruct (last bs2) as [block|] eqn:Hlast.
  - rewrite length_app.
    replace (length bs1 + length bs2 - 1)%nat with (length bs1 + (length bs2 - 1))%nat
      by (destruct bs2; [congruence | simpl; lia]).
    apply insert_app_r.
  - apply last_None in Hlast. congruence.
Qed.

Lemma encodeBRR_eq (x : list float) :
  encodeBRR x = markEnd (brrBlocks (encodeBlocks (padPcm (toPcm16 x)) 0 0)).
Proof. unfold encodeBRR. cbv zeta. reflexivity. Qed.

Lemma encodeFrom_eq (x : list float) (p1 p2 : Z) :
  fst (Spec.encodeFrom x (p1, p2)) =
  markEnd (brrBlocks (encodeBlocks (padPcm (toPcm16 x)) p1 p2)).
Proof. unfold Spec.encodeFrom. cbv zeta. cbv beta iota delta [fst snd]. reflexivity. Qed.

Lemma encodeSplit_eq (x : list float) (k : nat) :
  Spec.encodeSplit x k =
  markEnd (brrBlocks (encodeBlocks (padPcm (toPcm16 (take (16 * k) x))) 0 0)) ++
  fst (Spec.encodeFrom (drop (16 * k) x)
         (st_p1 (encodeBlocks (padPcm (toPcm16 (take (16 * k) x))) 0 0),
          st_p2 (encodeBlocks (padPcm (toPcm16 (take (16 * k) x))) 0 0))).
Proof.
  unfold Spec.encodeSplit. unfold Spec.encodeFrom at 1. cbv zeta.
  cbv beta iota delta [fst snd]. reflexivity.
Qed.

(** C3 (as amended). Cutting the input at a multiple of 16 samples cuts
    the block loop of [encodeBRR] at the corresponding block: the stream of
    the single call is the blocks of the first part, encoded from the
    history (0, 0) and with no END bit, followed by the stream of the rest
    encoded from the history that the first part leaves.  Encoding the two
    parts by two calls that carry the history gives the same bytes except
    that the first call also sets the END bit of its last block. *)
Theorem encodeBRR_split (x : list float) (k : nat) :
  (0 < 16 * k < length x)%nat ->
  let first := encodeBlocks (padPcm (toPcm16 (take (16 * k) x))) 0 0 in
  let rest := Spec.encodeFrom (drop (16 * k) x) (st_p1 first, st_p2 first) in
  length (brrBlocks first) = k /\
  encodeBRR x = brrBlocks first ++ fst rest /\
  Spec.encodeSplit x k = markEnd (brrBlocks first) ++ fst rest.
Proof.
  intros Hk. cbv zeta.
  assert (length (toPcm16 (take (16 * k) x)) = (16 * k)%nat) as Hlen1.
  { unfold toPcm16. rewrite length_fmap, length_take. lia. }
  rewrite (padPcm_aligned _ k Hlen1).
  split; [|split].
  - destruct (encodeBlocks_blocks (fun _ => True) (toPcm16 (take (16 * k) x)) 0 0)
      as [_ ->]; [constructor|].
    rewrite Hlen1. replace (16 * k + 15)%nat with (k * 16 + 15)%nat by lia.
    rewrite Nat.div_add_l by lia. change (15 / 16)%nat with 0%nat. lia.
  - rewrite encodeBRR_eq, encodeFrom_eq.
    rewrite <- (take_drop (16 * k) x) at 1.
    unfold toPcm16 at 1. rewrite fmap_app. fold (toPcm16 (take (16 * k) x)).
    fold (toPcm16 (drop (16 * k) x)).
    rewrite (padPcm_app _ _ k Hlen1), (encodeBlocks_app _ _ k 0 0 Hlen1). cbv zeta.
    cbn [brrBlocks].
    apply markEnd_app.
    destruct (encodeBlocks_blocks (fun _ => True) (padPcm (toPcm16 (drop (16 * k) x)))
                (st_p1 (encodeBlocks (toPcm16 (take (16 * k) x)) 0 0))
                (st_p2 (encodeBlocks (toPcm16 (take (16 * k) x)) 0 0)))
      as [_ Hn]; [constructor|].
    intros Hnil. rewrite Hnil in Hn. cbn [length] in Hn.
    rewrite padPcm_length in Hn. unfold toPcm16 in Hn.
    rewrite length_fmap, length_drop in Hn.
    assert (0 < (length x - 16 * k + 15) / 16)%nat by (apply Nat.div_str_pos; lia).
    symmetry in Hn. apply Nat.div_small_iff in Hn; lia.
  - rewrite encodeSplit_eq. rewrite (padPcm_aligned _ k Hlen1). reflexivity.
Qed.

(** The theorem on 32 samples of silence cut after the first block. *)
Lemma encodeBRR_split_witness :
  let x := replicate 32 0%float in
  let first := encodeBlocks (padPcm (toPcm16 (take (16 * 1) x))) 0 0 in
  let rest := Spec.encodeFrom (drop (16 * 1) x) (st_p1 first, st_p2 first) in
  length (brrBlocks first) = 1%nat /\
  encodeBRR x = brrBlocks first ++ fst rest /\
  Spec.encodeSplit x 1 = markEnd (brrBlocks first) ++ fst rest.
Proof.
  refine (encodeBRR_split (replicate 32 0%float) 1 _).
  vm_compute. split; lia.
Defined.

(** C3 (as stated) fails: on 32 samples of silence cut after the first
    block, the single call sets the END bit on the second block only, the
    two calls (with the history carried, here (0, 0) again) set it on both
    blocks. *)
Lemma encodeBRR_split_counterexample :
  encodeBRR (replicate 32 0%float) =
    [[0; 0; 0; 0; 0; 0; 0; 0; 0]; [1; 0; 0; 0; 0; 0; 0; 0; 0]] /\
  Spec.encodeSplit (replicate 32 0%float) 1 =
    [[1; 0; 0; 0; 0; 0; 0; 0; 0]; [1; 0; 0; 0; 0; 0; 0; 0; 0]] /\
  encodeBRR (replicate 32 0%float) <> Spec.encodeSplit (replicate 32 0%float) 1.
Proof.
  assert (encodeBRR (replicate 32 0%float) =
          [[0; 0; 0; 0; 0; 0; 0; 0; 0]; [1; 0; 0; 0; 0; 0; 0; 0; 0]]) as H1
    by (vm_compute; reflexivity).
  assert (Spec.encodeSplit (replicate 32 0%float) 1 =
          [[1; 0; 0; 0; 0; 0; 0; 0; 0]; [1; 0; 0; 0; 0; 0; 0; 0; 0]]) as H2
    by (vm_compute; reflexivity).
  split; [exact H1|]. split; [exact H2|]. rewrite H1, H2. discriminate.
Qed.

(** ** The Gauss filter *)

Import Signal.

Section GaussFacts.
Context {F : Type} `{Arith F}.
Local Open Scope arith_scope.

Local Abbreviation c0 := (ar_lit 372 / ar_lit 2048).
Local Abbreviation c1 := (ar_lit 1304 / ar_lit 2048).

(** The main loop after [n] turns: [prev] holds the tap of index [n], and
    the taps of the indices below [n] are stored. *)
Lemma gaussLoop_spec (x : list F) (n : nat) :
  (n + 2 <= length x)%nat ->
  let st :=
    fold_left (gaussStep c0 c1 x) (seq 1 n)
      (replicate (length x) (ar_lit 0), SignalSpec.gaussTap x 0) in
  length (fst st) = length x /\
  snd st = SignalSpec.gaussTap x n /\
  forall t, (t < n)%nat -> fst st !! t = Some (ar_store32 (SignalSpec.gaussTap x t)).
Proof.
  induction n as [|n IH]; intros Hn; cbv zeta.
  - cbn [seq fold_left fst snd]. rewrite length_replicate.
    split; [reflexivity|]. split; [reflexivity|]. intros t Ht. lia.
  - rewrite seq_S, fold_left_app. cbn [fold_left Nat.add].
    destruct IH as (Hlen & Hprev & Hout); [lia|].
    set (st := fold_left _ (seq 1 n) _) in *.
    unfold gaussStep. cbn [fst snd].
    replace (S n - 1)%nat with n by lia.
    split; [rewrite length_insert; assumption|]. split.
    + unfold SignalSpec.gaussTap. cbv zeta.
      destruct (Nat.eqb_spec (S n) 0); [lia|].
      destruct (Nat.eqb_spec (S n) (length x - 1)); [lia|].
      replace (S n - 1)%nat with n by lia. reflexivity.
    + intros t Ht. destruct (decide (t = n)) as [-> | Hne].
      * rewrite list_lookup_insert_eq by lia. rewrite Hprev. reflexivity.
      * rewrite list_lookup_insert_ne by congruence. apply Hout. lia.
Qed.

End GaussFacts.

(** C8. For an input [x] of length [N >= 2], [applyGaussFilter] returns an
    array [y] of length [N] with [y[i]] the three-tap sum
    [c0 x[i-1] + c1 x[i] + c0 x[i+1]] at every interior index, the sum
    [(c1 + c0) x[0] + c0 x[1]] at [i = 0] and
    [c0 x[N-2] + (c1 + c0) x[N-1]] at [i = N-1], with [c0 = 372/2048] and
    [c1 = 1304/2048], each sum evaluated in the arithmetic of the script
    and stored into the [Float32Array]; for [N < 2] it returns the input
    unchanged.  This holds in any arithmetic, the IEEE one of the script
    and the exact one. *)
Theorem applyGaussFilter_taps {F : Type} `{Arith F} (x : list F) :
  length (applyGaussFilter x) = length x /\
  ((length x < 2)%nat -> applyGaussFilter x = x) /\
  ((2 <= length x)%nat ->
   forall i, (i < length x)%nat ->
     applyGaussFilter x !! i = Some (ar_store32 (SignalSpec.gaussTap x i))).
Proof.
  unfold applyGaussFilter. cbv zeta.
  destruct (Nat.ltb_spec (length x) 2) as [Hshort | Hlong].
  { split; [reflexivity|]. split; [reflexivity|]. lia. }
  pose proof (gaussLoop_spec x (length x - 2)) as Hloop. cbv zeta in Hloop.
  change ((ar_lit 1304 / ar_lit 2048 + ar_lit 372 / ar_lit 2048) * get x 0 +
          ar_lit 372 / ar_lit 2048 * get x 1)%A
    with (SignalSpec.gaussTap x 0).
  destruct (fold_left _ _ _) as [out prev].
  destruct Hloop as (Hlen & Hprev & Hout); [lia|]. cbn [fst snd] in *.
  split; [rewrite !length_insert; assumption|]. split; [lia|].
  intros _ i Hi.
  destruct (decide (i = (length x - 1)%nat)) as [-> | Hne1].
  - rewrite list_lookup_insert_eq by (rewrite length_insert; lia).
    unfold SignalSpec.gaussTap. cbv zeta.
    destruct (Nat.eqb_spec (length x - 1) 0); [lia|].
    rewrite Nat.eqb_refl. reflexivity.
  - rewrite list_lookup_insert_ne by congruence.
    destruct (decide (i = (length x - 2)%nat)) as [-> | Hne2].
    + rewrite list_lookup_insert_eq by lia. rewrite Hprev. reflexivity.
    + rewrite list_lookup_insert_ne by congruence. apply Hout. lia.
Qed.

(** ** Coupled normalization, without rounding *)

Section NormalizeFacts.
Local Open Scope Q_scope.

Lemma Q_gtb_true (a b : Q) : ar_ltb b a = true <-> b < a.
Proof.
  cbn. rewrite negb_true_iff, <- not_true_iff_false, Qle_bool_iff.
  split; [apply Qnot_le_lt | apply Qlt_not_le].
Qed.

Lemma Q_gtb_false (a b : Q) : ar_ltb b a = false <-> a <= b.
Proof. cbn. rewrite negb_false_iff. apply Qle_bool_iff. Qed.

Lemma maxAbs_nonneg (x : list Q) : 0 <= Spec.maxAbs x.
Proof.
  induction x as [|s x IH]; [apply Qle_refl|].
  cbn [Spec.maxAbs foldr]. eapply Qle_trans; [apply IH | apply Q.le_max_r].
Qed.

Lemma maxAbs_cons (s : Q) (x : list Q) :
  Spec.maxAbs (s :: x) = Qmax (Qabs s) (Spec.maxAbs x).
Proof. reflexivity. Qed.

Lemma peakLoop_cons {F : Type} `{Arith F} (s : F) (x : list F) (p : F) :
  peakLoop (s :: x) p =
  peakLoop x (if ar_ltb p (ar_abs s) then ar_abs s else p).
Proof. reflexivity. Qed.

(** A peak loop computes the maximum of its start value and of the
    absolute values of the signal. *)
Lemma peakLoop_max (signal : list Q) :
  forall p, 0 <= p -> peakLoop signal p == Qmax p (Spec.maxAbs signal).
Proof.
  induction signal as [|s x IH]; intros p Hp.
  - cbn. symmetry. apply Q.max_l. assumption.
  - rewrite peakLoop_cons, maxAbs_cons. pose proof (Qabs_nonneg s) as Hs.
    cbn [ar_abs ar_ltb Q_Arith].
    destruct (negb (Qle_bool (Qabs s) p)) eqn:Hgt.
    + apply (Q_gtb_true (Qabs s) p) in Hgt. pose proof (IH (Qabs s) Hs) as E0.
      destruct (Q.max_spec (Qabs s) (Spec.maxAbs x)) as [[? E1] | [? E1]];
        destruct (Q.max_spec p (Qmax (Qabs s) (Spec.maxAbs x))) as [[? E2] | [? E2]];
        lra.
    + apply (Q_gtb_false (Qabs s) p) in Hgt. pose proof (IH p Hp) as E0.
      destruct (Q.max_spec (Qabs s) (Spec.maxAbs x)) as [[? E1] | [? E1]];
        destruct (Q.max_spec p (Spec.maxAbs x)) as [[? E2] | [? E2]];
        destruct (Q.max_spec p (Qmax (Qabs s) (Spec.maxAbs x))) as [[? E3] | [? E3]];
        lra.
Qed.

Lemma overallPeak_max (M S : list Q) :
  peakLoop S (peakLoop M (ar_lit 0)) == Qmax (Spec.maxAbs M) (Spec.maxAbs S).
Proof.
  pose proof (maxAbs_nonneg M) as HM. pose proof (maxAbs_nonneg S) as HS.
  pose proof (peakLoop_max M 0 (Qle_refl 0)) as H1.
  assert (0 <= peakLoop M 0) as Hp.
  { rewrite H1. apply Q.max_le_iff. left. apply Qle_refl. }
  rewrite (peakLoop_max S _ Hp).
  destruct (Q.max_spec 0 (Spec.maxAbs M)) as [[? E1] | [? E1]];
    destruct (Q.max_spec (peakLoop M 0) (Spec.maxAbs S)) as [[? E2] | [? E2]];
    destruct (Q.max_spec (Spec.maxAbs M) (Spec.maxAbs S)) as [[? E3] | [? E3]];
    cbn [ar_lit Q_Arith] in *; lra.
Qed.

(** Scaling a signal by a non-negative factor scales its peak. *)
Lemma maxAbs_scale (k : Q) (x : list Q) :
  0 <= k -> Spec.maxAbs ((fun s => s * k) <$> x) == Spec.maxAbs x * k.
Proof.
  intros Hk. induction x as [|s x IH]; [cbn; lra|].
  rewrite fmap_cons, !maxAbs_cons.
  assert (Qabs (s * k) == Qabs s * k) as Habs
    by (rewrite Qabs_Qmult, (Qabs_pos k) by exact Hk; reflexivity).
  pose proof (Qabs_nonneg s). pose proof (maxAbs_nonneg x).
  destruct (Q.max_spec (Qabs (s * k)) (Spec.maxAbs ((fun s => s * k) <$> x)))
    as [[? E1] | [? E1]];
    destruct (Q.max_spec (Qabs s) (Spec.maxAbs x)) as [[? E2] | [? E2]];
    rewrite E1, E2; nra.
Qed.

End NormalizeFacts.

(** ** Coupled normalization, in the arithmetic of the script *)

(** The order [<] of binary64 is irreflexive and transitive ([NaN] is
    below and above nothing). *)
Lemma SFltb_irrefl (a : spec_float) : SFltb a a = false.
Proof.
  unfold SFltb.
  destruct a as [s | s | | s m e]; cbn [SFcompare]; try reflexivity.
  - destruct s; reflexivity.
  - change (PosDef.Pos.compare_cont Eq m m) with (Pos.compare m m).
    rewrite Z.compare_refl, Pos.compare_refl. destruct s; reflexivity.
Qed.

Lemma SFltb_trans (a b c : spec_float) :
  SFltb a b = true -> SFltb b c = true -> SFltb a c = true.
Proof.
  unfold SFltb.
  destruct a as [sa | sa | | sa ma ea], b as [sb | sb | | sb mb eb],
    c as [sc | sc | | sc mc ec]; cbn [SFcompare];
    try discriminate; try reflexivity;
    try (destruct sa; try discriminate; try reflexivity);
    try (destruct sb; try discriminate; try reflexivity);
    try (destruct sc; try discriminate; try reflexivity);
    change (PosDef.Pos.compare_cont Eq) with Pos.compare;
    repeat match goal with
    | |- context [Z.compare ?x ?y] => destruct (Z.compare_spec x y)
    | |- context [Pos.compare ?x ?y] => destruct (Pos.compare_spec x y)
    end; cbn [CompOpp]; try discriminate; try reflexivity; intros _ _; lia.
Qed.

Lemma ltb_irrefl (a : float) : (a <? a)%float = false.
Proof. rewrite ltb_spec. apply SFltb_irrefl. Qed.

Lemma ltb_trans (a b c : float) :
  (a <? b)%float = true -> (b <? c)%float = true -> (a <? c)%float = true.
Proof. rewrite !ltb_spec. apply SFltb_trans. Qed.

(** A peak loop, in any arithmetic whose [<] is irreflexive and
    transitive: the peak is the start value or the absolute value of a
    sample, no sample is above it, and what the start value was not below,
    the peak is not below either. *)
Section PeakLoop.
Context {F : Type} `{Arith F}.
Hypothesis ar_ltb_irrefl : forall a : F, ar_ltb a a = false.
Hypothesis ar_ltb_trans :
  forall a b c : F, ar_ltb a b = true -> ar_ltb b c = true -> ar_ltb a c = true.

Lemma peakStep_above (p a z : F) :
  ar_ltb p z = false -> ar_ltb (if ar_ltb p a then a else p) z = false.
Proof.
  intros Hz. destruct (ar_ltb p a) eqn:Hpa; [|exact Hz].
  destruct (ar_ltb a z) eqn:Haz; [|reflexivity].
  rewrite (ar_ltb_trans p a z Hpa Haz) in Hz. discriminate.
Qed.

Lemma peakLoop_peak (signal : list F) : forall p,
  (peakLoop signal p = p \/ exists x, x ∈ signal /\ peakLoop signal p = ar_abs x) /\
  Forall (fun x => ar_ltb (peakLoop signal p) (ar_abs x) = false) signal /\
  (forall z, ar_ltb p z = false -> ar_ltb (peakLoop signal p) z = false).
Proof.
  induction signal as [|s x IH]; intros p.
  - split; [left; reflexivity|]. split; [constructor|]. intros z Hz. exact Hz.
  - rewrite peakLoop_cons.
    destruct (IH (if ar_ltb p (ar_abs s) then ar_abs s else p)) as (Hat & Hall & Hup).
    split; [|split].
    + destruct Hat as [-> | (y & Hy & ->)].
      * destruct (ar_ltb p (ar_abs s)); [right | left; reflexivity].
        exists s. split; [left | reflexivity].
      * right. exists y. split; [right; exact Hy | reflexivity].
    + constructor; [|exact Hall]. apply Hup.
      destruct (ar_ltb p (ar_abs s)) eqn:Hps; [apply ar_ltb_irrefl | exact Hps].
    + intros z Hz. apply Hup, peakStep_above, Hz.
Qed.

Lemma overallPeak_peak (M S : list F) :
  let peak := peakLoop S (peakLoop M (ar_lit 0)) in
  (peak = ar_lit 0 \/ exists x, x ∈ M ++ S /\ peak = ar_abs x) /\
  Forall (fun x => ar_ltb peak (ar_abs x) = false) (M ++ S).
Proof.
  cbv zeta.
  destruct (peakLoop_peak M (ar_lit 0)) as (HatM & HallM & _).
  destruct (peakLoop_peak S (peakLoop M (ar_lit 0))) as (HatS & HallS & HupS).
  split.
  - destruct HatS as [-> | (y & Hy & ->)].
    + destruct HatM as [-> | (y & Hy & ->)]; [left; reflexivity | right].
      exists y. split; [apply elem_of_app; left; exact Hy | reflexivity].
    + right. exists y. split; [apply elem_of_app; right; exact Hy | reflexivity].
  - apply Forall_app. split; [|exact HallS].
    eapply Forall_impl; [exact HallM|]. intros x Hx. apply HupS, Hx.
Qed.

End PeakLoop.

(** In binary64 a peak loop started at a number that is 0 or more ends at
    one: the peak is never [NaN] and never negative. *)
Lemma abs_above_nonneg (p x : float) :
  (p <? abs x)%float = true -> (0 <=? abs x)%float = true.
Proof.
  rewrite ltb_spec, leb_spec, abs_spec. unfold SFltb, SFleb.
  change (Prim2SF 0) with (S754_zero false).
  destruct (Prim2SF x) as [s | s | | s m e]; cbn [SFabs SFcompare]; try reflexivity.
  destruct (Prim2SF p); discriminate.
Qed.

Lemma peakLoop_nonneg (signal : list float) : forall p : float,
  (0 <=? p)%float = true -> (0 <=? peakLoop signal p)%float = true.
Proof.
  induction signal as [|s x IH]; intros p Hp; [exact Hp|].
  rewrite peakLoop_cons. apply IH.
  cbn [ar_ltb ar_abs float_Arith].
  destruct (p <? abs s)%float eqn:Hps; [|exact Hp].
  apply (abs_above_nonneg p s Hps).
Qed.

(** ** A quotient below one, in binary64 *)

Lemma compare_cont_Eq (p q : positive) :
  PosDef.Pos.compare_cont Eq p q = Pos.compare p q.
Proof. reflexivity. Qed.

Lemma digits2_pos_bounds (p : positive) :
  2 ^ (Z.pos (digits2_pos p) - 1) <= Z.pos p < 2 ^ Z.pos (digits2_pos p).
Proof.
  induction p as [p IH | p IH |]; cbn [digits2_pos].
  - rewrite Pos2Z.inj_succ, (Pos2Z.inj_xI p).
    replace (Z.succ (Z.pos (digits2_pos p)) - 1) with (Z.succ (Z.pos (digits2_pos p) - 1)) by lia.
    rewrite !Z.pow_succ_r by lia.
    revert IH. generalize (2 ^ (Z.pos (digits2_pos p) - 1)), (2 ^ Z.pos (digits2_pos p)). lia.
  - rewrite Pos2Z.inj_succ, (Pos2Z.inj_xO p).
    replace (Z.succ (Z.pos (digits2_pos p)) - 1) with (Z.succ (Z.pos (digits2_pos p) - 1)) by lia.
    rewrite !Z.pow_succ_r by lia.
    revert IH. generalize (2 ^ (Z.pos (digits2_pos p) - 1)), (2 ^ Z.pos (digits2_pos p)). lia.
  - cbn. lia.
Qed.

Lemma Zdigits2_bounds (m : Z) :
  0 < m -> 2 ^ (Zdigits2 m - 1) <= m < 2 ^ Zdigits2 m.
Proof. destruct m as [|p|p]; try lia. intros _. apply digits2_pos_bounds. Qed.

Lemma Zdigits2_le (m k : Z) : 0 <= m < 2 ^ k -> 0 <= k -> Zdigits2 m <= k.
Proof.
  intros Hm Hk. destruct (Z.eq_dec m 0) as [-> | Hne]; [exact Hk|].
  pose proof (Zdigits2_bounds m ltac:(lia)) as Hd.
  destruct (Z.le_gt_cases (Zdigits2 m) k) as [Hle | Hgt]; [exact Hle|].
  assert (2 ^ k <= 2 ^ (Zdigits2 m - 1)) by (apply Z.pow_le_mono_r; lia). lia.
Qed.

Lemma Zdigits2_ge (m k : Z) : 2 ^ k <= m -> 0 <= k -> k < Zdigits2 m.
Proof.
  intros Hm Hk. assert (0 < 2 ^ k) by (apply Z.pow_pos_nonneg; lia).
  pose proof (Zdigits2_bounds m ltac:(lia)) as Hd.
  destruct (Z.lt_ge_cases k (Zdigits2 m)) as [Hlt | Hge]; [exact Hlt|].
  assert (0 < Zdigits2 m) by (destruct m; cbn; lia).
  assert (2 ^ Zdigits2 m <= 2 ^ k) by (apply Z.pow_le_mono_r; lia). lia.
Qed.

Lemma shr_record_of_loc_m (m : Z) (l : location) : shr_m (shr_record_of_loc m l) = m.
Proof. destruct l as [|[]]; reflexivity. Qed.

Lemma shr_1_m (mrs : shr_record) :
  0 <= shr_m mrs -> 0 <= shr_m (shr_1 mrs) /\ 2 * shr_m (shr_1 mrs) <= shr_m mrs.
Proof.
  destruct mrs as [m r s]. cbn [shr_m]. intros Hm.
  destruct m as [|[p|p|]|p]; cbn [shr_1 shr_m]; lia.
Qed.

(** One normalization step on a mantissa of at most 54 bits: nothing
    below [2^53], one bit shifted out from there on. *)
Lemma shr_fexp_small (m e : Z) (l : location) :
  0 <= m < 2 ^ 54 -> -1074 <= e ->
  exists mrs e', shr_fexp prec emax m e l = (mrs, e') /\ 0 <= shr_m mrs /\
    ((m < 2 ^ 53 /\ shr_m mrs = m /\ e' = e) \/
     (2 ^ 53 <= m /\ 2 * shr_m mrs <= m /\ e' = e + 1)).
Proof.
  intros Hm He. unfold shr_fexp, shr, fexp, SpecFloat.emin.
  change prec with 53. change emax with 1024.
  pose proof (Zdigits2_le m 54 Hm ltac:(lia)) as Hd54.
  destruct (Z.lt_ge_cases m (2 ^ 53)) as [Hlt | Hge].
  - pose proof (Zdigits2_le m 53 ltac:(lia) ltac:(lia)) as Hd.
    destruct (Z.max (Zdigits2 m + e - 53) (3 - 1024 - 53) - e) as [|p|p] eqn:En;
      try lia; eexists _, _; (split; [reflexivity|]); rewrite shr_record_of_loc_m;
      (split; [lia|]); left; repeat split; lia.
  - pose proof (Zdigits2_ge m 53 Hge ltac:(lia)) as Hd.
    destruct (Z.max (Zdigits2 m + e - 53) (3 - 1024 - 53) - e) as [|p|p] eqn:En;
      try lia.
    assert (p = 1%positive) as -> by lia. cbn [iter_pos].
    pose proof (shr_1_m (shr_record_of_loc m l)) as Hs.
    rewrite shr_record_of_loc_m in Hs. destruct Hs as [Hs0 Hs1]; [lia|].
    eexists _, _. split; [reflexivity|]. split; [exact Hs0|]. right.
    repeat split; [exact Hge | exact Hs1].
Qed.

Lemma round_nearest_even_bounds (m : Z) (l : location) :
  m <= round_nearest_even m l <= m + 1.
Proof.
  unfold round_nearest_even. destruct l as [|[]]; try lia.
  destruct (Z.even m); lia.
Qed.

(** Rounding a value below one to binary64 gives at most one. *)
Lemma binary_round_aux_le_one (q e : Z) (l : location) :
  0 <= q -> -1074 <= e ->
  (q < 2 ^ 54 /\ e <= -54) \/ (q < 2 ^ 53 /\ e <= -53) ->
  SFleb (binary_round_aux prec emax false q e l)
        (S754_finite false 4503599627370496 (-52)) = true.
Proof.
  intros Hq He Hcase. unfold binary_round_aux.
  destruct (shr_fexp_small q e l ltac:(lia) He) as (mrs1 & e1 & -> & Hm1 & Hstep1).
  set (m2 := round_nearest_even (shr_m mrs1) (loc_of_shr_record mrs1)).
  pose proof (round_nearest_even_bounds (shr_m mrs1) (loc_of_shr_record mrs1)) as Hm2.
  fold m2 in Hm2.
  assert (shr_m mrs1 < 2 ^ 53 /\ e1 <= -53) as [Hlt1 He1] by lia.
  destruct (shr_fexp_small m2 e1 loc_Exact ltac:(lia) ltac:(lia))
    as (mrs2 & e2 & -> & Hm3 & Hstep2).
  destruct (shr_m mrs2) as [|m3|m3] eqn:Em3; [reflexivity | | lia].
  change (emax - prec) with 971.
  destruct (Z.leb_spec e2 971) as [_ | ?]; [|lia].
  unfold SFleb. cbn [SFcompare].
  rewrite compare_cont_Eq.
  destruct (Z.compare_spec e2 (-52)) as [He2 | He2 | He2]; [|reflexivity|lia].
  destruct (Pos.compare_spec m3 4503599627370496) as [? | ? | Hgt];
    [reflexivity | reflexivity | lia].
Qed.

(** The multiplier of [normalizeCoupled]: a peak above 0.95 gives a
    quotient [0.95 / peak] of at most one, rounding included. *)
Lemma multiplier_le_one (peak : float) :
  (0.95 <? peak)%float = true -> (0.95 / peak <=? 1)%float = true.
Proof.
  rewrite ltb_spec, leb_spec, div_spec.
  pose proof (Prim2SF_valid peak) as Hvalid.
  change (Prim2SF 0.95) with (S754_finite false 8556839292003942 (-53)).
  change (Prim2SF 1) with (S754_finite false 4503599627370496 (-52)).
  destruct (Prim2SF peak) as [s | s | | s m e]; unfold SFltb; cbn [SFcompare].
  - discriminate.
  - destruct s; [discriminate | reflexivity].
  - discriminate.
  - destruct s; [discriminate|].
    cbn [SpecFloat.valid_binary] in Hvalid. unfold bounded, canonical_mantissa in Hvalid.
    apply andb_true_iff in Hvalid as [Hcanon Hemax].
    apply Z.eqb_eq in Hcanon. apply Z.leb_le in Hemax.
    unfold fexp, SpecFloat.emin in Hcanon.
    change prec with 53 in *. change emax with 1024 in *.
    pose proof (digits2_pos_bounds m) as Hm.
    intros Hlt.
    assert (-53 < e \/ (e = -53 /\ 8556839292003942 < Z.pos m)) as Hpeak.
    { destruct (Z.compare_spec (-53) e) as [He | He | He]; [right | left; lia | discriminate].
      split; [lia|]. rewrite compare_cont_Eq in Hlt.
      destruct (Pos.compare_spec 8556839292003942 m); try discriminate. lia. }
    assert (Z.pos (digits2_pos m) = 53) as Hd by lia.
    rewrite Hd in Hm. change (2 ^ (53 - 1)) with 4503599627370496 in Hm.
    change (2 ^ 53) with 9007199254740992 in Hm.
    unfold SF64div, SFdiv, SFdiv_core_binary. cbv zeta.
    change (Zdigits2 (Z.pos 8556839292003942)) with 53.
    change (Zdigits2 (Z.pos m)) with (Z.pos (digits2_pos m)). rewrite Hd.
    unfold fexp, SpecFloat.emin. change prec with 53. change emax with 1024.
    set (e' := Z.min (Z.max (53 + -53 - (53 + e) - 53) (3 - 1024 - 53)) (-53 - e)).
    assert (e' = Z.max (-106 - e) (-1074)) as He' by (unfold e'; lia).
    assert (0 < -53 - e - e' <= 53) as Hs by lia.
    destruct (-53 - e - e') as [|s|s] eqn:Es; try lia.
    rewrite Z.shiftl_mul_pow2 by lia.
    pose proof (Z_div_mod (8556839292003942 * 2 ^ Z.pos s) (Z.pos m) ltac:(lia)) as Hdiv.
    destruct (Z.div_eucl (8556839292003942 * 2 ^ Z.pos s) (Z.pos m)) as [q r].
    destruct Hdiv as [Hq Hr]. cbn [xorb].
    assert (0 < 2 ^ Z.pos s) as Hpow by (apply Z.pow_pos_nonneg; lia).
    assert (0 <= q) as Hq0 by nia.
    apply binary_round_aux_le_one; [exact Hq0 | lia |].
    destruct Hpeak as [He | [He Hgt]].
    + left. split; [|lia].
      assert (2 ^ Z.pos s <= 2 ^ 53) by (apply Z.pow_le_mono_r; lia).
      change (2 ^ 54) with (2 * 2 ^ 53). nia.
    + right. split; [|lia].
      assert (Z.pos s = 53) as Hs53 by lia. rewrite Hs53 in *. nia.
Qed.

(** C6. [normalizeCoupled], first in the arithmetic of the script, then in
    exact arithmetic.

    In binary64 with binary32 stores: the two loops compute the peak, the
    largest [|sample|] of both signals (a number that is 0 or more, never
    [NaN]; it is 0 or the absolute value of a sample, and no sample is
    above it, a [NaN] sample being above nothing).
    When [peak > 0.95], every sample [x] of both signals becomes the
    binary32 store of [x * k] for the one multiplier [k = 0.95 / peak], the
    rounded binary64 quotient, and [k <= 1]; otherwise both signals are
    returned unchanged.

    Without rounding: [peak = max(max |M[i]|, max |S[i]|)], above 0.95
    the result is [k M] and [k S] with [k = 0.95 / peak <= 1] and its
    overall peak is at most 0.95, and otherwise the signals are
    unchanged. *)
Theorem normalizeCoupled_law :
  (forall M S : list float,
     exists peak : float,
       (0 <=? peak)%float = true /\
       (peak = 0%float \/ exists x, x ∈ M ++ S /\ peak = abs x) /\
       Forall (fun x => (peak <? abs x)%float = false) (M ++ S) /\
       ((0.95 <? peak)%float = true ->
        exists k : float,
          k = (0.95 / peak)%float /\ (k <=? 1)%float = true /\
          normalizeCoupled M S =
            ((fun x => F64.store32 (x * k)%float) <$> M,
             (fun x => F64.store32 (x * k)%float) <$> S)) /\
       ((0.95 <? peak)%float = false -> normalizeCoupled M S = (M, S))) /\
  (forall M S : list Q,
     let peak := Qmax (Spec.maxAbs M) (Spec.maxAbs S) in
     ((0.95 < peak)%Q ->
      exists k : Q,
        (k == 0.95 / peak)%Q /\ (k <= 1)%Q /\
        normalizeCoupled M S = ((fun x => x * k)%Q <$> M, (fun x => x * k)%Q <$> S) /\
        (Qmax (Spec.maxAbs (fst (normalizeCoupled M S)))
              (Spec.maxAbs (snd (normalizeCoupled M S))) <= 0.95)%Q) /\
     ((peak <= 0.95)%Q -> normalizeCoupled M S = (M, S))).
Proof.
  split.
  - intros M S. exists (peakLoop S (peakLoop M (ar_lit 0))).
    destruct (@overallPeak_peak float float_Arith ltb_irrefl ltb_trans M S) as [Hat Hall].
    cbv zeta in Hat, Hall.
    assert (ar_lit (F := float) 0.95 = 0.95%float) as Hlit by (vm_compute; reflexivity).
    unfold normalizeCoupled. cbv zeta.
    set (peak := peakLoop S (peakLoop M (ar_lit 0))) in *.
    rewrite Hlit.
    split; [apply peakLoop_nonneg, peakLoop_nonneg; reflexivity|].
    split; [exact Hat|]. split; [exact Hall|]. split.
    + intros Hgt. exists (0.95 / peak)%float.
      split; [reflexivity|]. split; [apply multiplier_le_one; exact Hgt|].
      change (ar_ltb 0.95%float peak) with (0.95 <? peak)%float.
      rewrite Hgt. reflexivity.
    + intros Hle. change (ar_ltb 0.95%float peak) with (0.95 <? peak)%float.
      rewrite Hle. reflexivity.
  - intros M S. cbv zeta. pose proof (overallPeak_max M S) as Hpeak.
    unfold normalizeCoupled. cbv zeta.
    set (P := peakLoop S (peakLoop M (ar_lit 0))) in *.
    split.
    + intros Hgt. rewrite <- Hpeak in Hgt.
      assert (ar_ltb (ar_lit 0.95) P = true) as -> by (apply Q_gtb_true; exact Hgt).
      exists (0.95 / P)%Q. cbn [fst snd].
      assert (0 < P)%Q as HP by (cbn [ar_lit Q_Arith] in Hgt; lra).
      assert (0 <= 0.95 / P)%Q as Hk.
      { apply Qle_shift_div_l; [exact HP | lra]. }
      split; [rewrite Hpeak; reflexivity|]. split.
      { apply Qle_shift_div_r; [exact HP | cbn [ar_lit Q_Arith] in Hgt; lra]. }
      split; [reflexivity|].
      unfold scaleLoop. cbn [ar_mul ar_store32 ar_div ar_lit Q_Arith].
      rewrite !maxAbs_scale by exact Hk.
      pose proof (maxAbs_nonneg M). pose proof (maxAbs_nonneg S).
      assert (Qmax (Spec.maxAbs M) (Spec.maxAbs S) * (0.95 / P) == 0.95)%Q as Hfinal.
      { rewrite <- Hpeak. field. lra. }
      destruct (Q.max_spec (Spec.maxAbs M * (0.95 / P)) (Spec.maxAbs S * (0.95 / P)))
        as [[? E1] | [? E1]];
        destruct (Q.max_spec (Spec.maxAbs M) (Spec.maxAbs S)) as [[? E2] | [? E2]];
        rewrite E1; rewrite E2 in Hfinal; nra.
    + intros Hle. rewrite <- Hpeak in Hle.
      assert (ar_ltb (ar_lit 0.95) P = false) as -> by (apply Q_gtb_false; exact Hle).
      reflexivity.
Qed.

(** ** The downsampler *)

Lemma Float32Array_new_length n a :
  F64.Float32Array_new n = Some a -> F64.toIndex n = Some (length a).
Proof.
  unfold F64.Float32Array_new. destruct (F64.toIndex n) as [len|]; [|discriminate].
  cbn. intros [= <-]. rewrite length_replicate. reflexivity.
Qed.

(** The decimation loop keeps the length of the array it fills. *)
Lemma decimate_length {A} (f : nat -> A) (idx : list nat) (result : list A) :
  length (fold_left (fun result i => <[i := f i]> result) idx result) = length result.
Proof.
  apply (fold_left_invariant (fun r => length r = length result)).
  - intros r i Hr. rewrite length_insert. exact Hr.
  - reflexivity.
Qed.

(** C9 (as amended). The output of [manualDownsample] has the length
    [floor(x.length / ratio)] with [ratio = sr / tgt], both quotients being
    the binary64 ones of the script; when that number is negative or
    infinite the call raises a [RangeError] instead.  The length does not
    depend on what the engine's [Math.sin] and [Math.cos] return. *)
Theorem manualDownsample_length (Math_sin Math_cos : float -> float)
    (x : list float) (sr tgt : float) :
  length <$> manualDownsample Math_sin Math_cos x sr tgt =
  F64.toIndex (F64.Math_floor (of_nat (length x) / (sr / tgt))%float).
Proof.
  unfold manualDownsample. cbv zeta.
  destruct (F64.Float32Array_new _) as [result|] eqn:Hnew.
  - rewrite (Float32Array_new_length _ _ Hnew).
    cbn [mbind option_bind fmap option_fmap option_map].
    f_equal. apply decimate_length.
  - unfold F64.Float32Array_new in Hnew.
    destruct (F64.toIndex _); [discriminate | reflexivity].
Qed.

(** C9 (as stated) fails: 147 samples at 44100 Hz downsampled to 4500 Hz
    come out as 14 samples, where floor(147 * 4500 / 44100) = 15: the
    binary64 ratio 44100 / 4500 is just above 9.8, and 147 divided by it
    rounds to the number just below 15. *)
Lemma manualDownsample_length_counterexample :
  SignalSpec.downsampledLength 147 44100 4500 = 15%nat /\
  (of_nat 147 / (44100 / 4500))%float = 14.999999999999998%float /\
  forall Math_sin Math_cos,
    length <$> manualDownsample Math_sin Math_cos (replicate 147 1%float) 44100 4500
    = Some 14%nat.
Proof.
  split; [reflexivity|]. split; [vm_compute; reflexivity|].
  intros Math_sin Math_cos. unfold manualDownsample. cbv zeta.
  set (allocated := F64.Float32Array_new _).
  assert (allocated = Some (replicate 14 0%float)) as -> by (vm_compute; reflexivity).
  cbn [mbind option_bind fmap option_fmap option_map].
  rewrite decimate_length. reflexivity.
Qed.

(** ** The model evaluated on concrete inputs *)

(** The literals of the script, read in the binary64 arithmetic. *)
Example literal_0_95 : ar_lit (F := float) 0.95 = 0.95%float.
Proof. vm_compute. reflexivity. Qed.

Example literal_c0 :
  (ar_lit (F := float) 372 / ar_lit 2048)%A = 0.181640625%float.
Proof. vm_compute. reflexivity. Qed.

(** A peak of 0.99 (as a binary32 number) is brought down to 0.95, and the
    side signal is scaled by the same factor. *)
Example normalizeCoupled_float :
  normalizeCoupled (F := float) [F64.store32 0.99; (-0.5)%float] [0%float; 0.25%float] =
  ([0.94999998807907104%float; (-0.47979798913002014)%float],
   [0%float; 0.23989899456501007%float]).
Proof. vm_compute. reflexivity. Qed.

Example normalizeCoupled_float_unchanged :
  normalizeCoupled (F := float) [0.5%float; (-0.25)%float] [0.125%float] =
  ([0.5%float; (-0.25)%float], [0.125%float]).
Proof. vm_compute. reflexivity. Qed.

(** In any arithmetic, what [normalizeCoupled] returns is the input or the
    input scaled by one multiplier. *)
Lemma normalizeCoupled_one_multiplier {F : Type} `{Arith F} (M S : list F) :
  normalizeCoupled M S = (M, S) \/
  exists k, normalizeCoupled M S = (scaleLoop k M, scaleLoop k S).
Proof.
  unfold normalizeCoupled. cbv zeta. destruct (ar_ltb _ _).
  - right. eexists. reflexivity.
  - left. reflexivity.
Qed.

Example applyGaussFilter_float :
  applyGaussFilter (F := float) [1; 2; 3; 4; 5]%float =
  [1.181640625; 2; 3; 4; 4.818359375]%float.
Proof. vm_compute. reflexivity. Qed.

Example applyGaussFilter_two :
  applyGaussFilter (F := float) [1; 2]%float = [1.181640625; 1.818359375]%float.
Proof. vm_compute. reflexivity. Qed.

(** The conversion of [encodeBRR] to int16: rounding half up, saturation,
    [NaN] stored as 0. *)
Example toPcm16_values :
  BRR.toPcm16 [0.5; 0.25; 1.5; -2; nan; infinity; neg_infinity]%float =
  [16384; 8192; 32767; -32768; 0; 32767; -32768].
Proof. vm_compute. reflexivity. Qed.

(** One block: the search picks shift 12, filter 0, and the END bit is
    set; sample 0 is in the high nibble of byte 1. *)
Example findAndEncodeBlock_sample :
  BRR.findAndEncodeBlock Check.sampleBlock 0 0 =
  BRR.Encoded [192; 66; 231; 120; 16; 120; 7; 0; 0] 0 0.
Proof. vm_compute. reflexivity. Qed.

Example encodeBRR_one_block :
  BRR.encodeBRR [0.5; 0.25; 1.5; -2]%float = [[193; 66; 120; 0; 0; 0; 0; 0; 0]].
Proof. vm_compute. reflexivity. Qed.

Example decodeBRR_pcm_sample :
  BRR.decodeBRR_pcm [[193; 66; 120; 0; 0; 0; 0; 0; 0]] =
  [16384; 8192; 28672; -32768; 0; 0; 0; 0; 0; 0; 0; 0; 0; 0; 0; 0].
Proof. vm_compute. reflexivity. Qed.

(** A block shorter than 16 samples makes every trial error [NaN], and the
    search falls back on shift 0, filter 0 (no such block reaches
    [findAndEncodeBlock] from [encodeBRR]). *)
Example searchParameters_short_block :
  BRR.searchParameters [1; 2; 3] 0 0 = BRR.Best Infinity 0 0.
Proof. vm_compute. reflexivity. Qed.

(** ** The primitives of the codec *)

(** X1.  [wrap16] keeps the low 16 bits of any integer and reads them as a
    signed number: the result is an int16 congruent to the argument modulo
    2^16, an int16 is left unchanged, and wrapping twice is wrapping
    once. *)
Theorem wrap16_sign_extends (n : Z) :
  int16 (wrap16 n) /\
  (wrap16 n - n) mod 2 ^ 16 = 0 /\
  (int16 n -> wrap16 n = n) /\
  wrap16 (wrap16 n) = wrap16 n.
Proof.
  pose proof (wrap16_int16 n) as Hr.
  repeat split.
  - apply Hr.
  - apply Hr.
  - rewrite wrap16_toInt16. unfold toInt16.
    change (2 ^ 15) with 32768. change (2 ^ 16) with 65536.
    pose proof (Z.div_mod (n + 32768) 65536 ltac:(lia)) as Hdm.
    replace ((n + 32768) mod 65536 - 32768 - n)
      with (- ((n + 32768) / 65536) * 65536) by lia.
    apply Z_mod_mult.
  - intros Hn. rewrite wrap16_toInt16. apply toInt16_id, Hn.
  - rewrite (wrap16_toInt16 (wrap16 n)). apply toInt16_id, Hr.
Qed.

(** X2.  For int16 histories, where every product and the difference of
    the script's binary64 expression are exact, the prediction is the
    fixed-point value of the filter rounded to the nearest integer (a tie
    going up) and wrapped to 16 bits; it is an int16, and a filter index
    outside 1..3 predicts 0. *)
Theorem getPrediction_fixed_point (filter p1 p2 : Z) :
  int16 p1 -> int16 p2 ->
  int16 (getPrediction filter p1 p2) /\
  getPrediction 1 p1 p2 = toInt16 ((15 * p1 + 8) / 16) /\
  getPrediction 2 p1 p2 = toInt16 ((61 * p1 - 30 * p2 + 16) / 32) /\
  getPrediction 3 p1 p2 = toInt16 ((115 * p1 - 52 * p2 + 32) / 64) /\
  (~ 1 <= filter <= 3 -> getPrediction filter p1 p2 = 0).
Proof.
  intros _ _.
  split; [apply getPrediction_int16|].
  rewrite !getPrediction_int. cbn [Z.eqb Pos.eqb].
  repeat split.
  intros Hf.
  destruct (Z.eqb_spec filter 1); [lia|].
  destruct (Z.eqb_spec filter 2); [lia|].
  destruct (Z.eqb_spec filter 3); [lia|].
  reflexivity.
Qed.

Lemma getPrediction_fixed_point_witness :
  int16 (getPrediction 2 1000 (-2000)) /\
  getPrediction 1 1000 (-2000) = toInt16 ((15 * 1000 + 8) / 16) /\
  getPrediction 2 1000 (-2000) = toInt16 ((61 * 1000 - 30 * -2000 + 16) / 32) /\
  getPrediction 3 1000 (-2000) = toInt16 ((115 * 1000 - 52 * -2000 + 32) / 64) /\
  (~ 1 <= 2 <= 3 -> getPrediction 2 1000 (-2000) = 0).
Proof. apply (getPrediction_fixed_point 2 1000 (-2000)); unfold int16; lia. Defined.

(** ** The decoder *)

(** Every sample that the decoder writes is twice a 15-bit value. *)
Lemma decodeByte_even block blockIndex shift filter st i :
  Forall (fun s => Z.even s = true /\ -32768 <= s <= 32766) (pcmSamples st) ->
  Forall (fun s => Z.even s = true /\ -32768 <= s <= 32766)
    (pcmSamples (decodeByte block blockIndex shift filter st i)).
Proof.
  intros Hst. unfold decodeByte. cbn [pcmSamples].
  assert (forall p, -16384 <= p <= 16383 ->
            Z.even (toInt16 (wrap16 (p * 2))) = true /\
            -32768 <= toInt16 (wrap16 (p * 2)) <= 32766) as Hout.
  { intros p Hp. rewrite wrap16_toInt16.
    rewrite (toInt16_id (p * 2)) by (unfold int16; lia).
    rewrite (toInt16_id (p * 2)) by (unfold int16; lia).
    split; [|lia]. rewrite Z.mul_comm. apply Z.even_mul. }
  repeat apply Forall_insert; auto using decodeNibble_range.
Qed.

(** X3.  Whatever the blocks, every decoded int16 sample is even and
    lies in [-32768, 32766]: the decoder keeps 15 bits per sample and
    doubles them. *)
Theorem decodeBRR_pcm_even (blocks : list (list Z)) :
  Forall (fun s => Z.even s = true /\ -32768 <= s <= 32766) (decodeBRR_pcm blocks).
Proof.
  unfold decodeBRR_pcm.
  set (st0 := Decoder _ 0 0).
  assert (Forall (fun s => Z.even s = true /\ -32768 <= s <= 32766) (pcmSamples st0))
    as Hst0.
  { apply Forall_replicate. split; [reflexivity | lia]. }
  generalize dependent st0. generalize (seq 0 (length blocks)) as idx.
  induction idx as [|k idx IH]; intros st0 Hst0; [assumption|].
  apply IH. unfold decodeBlock. destruct (blocks !! k) as [block|]; [|assumption].
  generalize (seq 0 8) as js. intros js. revert st0 Hst0.
  induction js as [|j js IHj]; intros st0 Hst0; [assumption|].
  apply IHj. apply decodeByte_even. assumption.
Qed.

(** The recurrence over a list of blocks, cut in two. *)
Lemma decodeBlocks_app blocks1 : forall p,
  exists p', forall blocks2,
    Spec.decodeBlocks p (blocks1 ++ blocks2) =
    Spec.decodeBlocks p blocks1 ++ Spec.decodeBlocks p' blocks2.
Proof.
  induction blocks1 as [|block blocks1 IH]; intros p.
  - exists p. reflexivity.
  - cbn [app Spec.decodeBlocks].
    destruct (Spec.decodeNibbles _ _ p (Spec.nibblesOf block)) as [out p1].
    destruct (IH p1) as [p' Hp']. exists p'. intros blocks2.
    rewrite Hp', app_assoc. reflexivity.
Qed.

(** X4.  Decoding is causal: the samples decoded from the first blocks of
    a stream do not depend on the blocks that follow, so a truncated stream
    decodes to the truncated signal. *)
Theorem decodeBRR_prefix (blocks1 blocks2 : list (list Z)) :
  Forall Spec.brrBlock blocks1 -> Forall Spec.brrBlock blocks2 ->
  take (length blocks1 * 16) (decodeBRR_pcm (blocks1 ++ blocks2)) = decodeBRR_pcm blocks1 /\
  take (length blocks1 * 16) (decodeBRR (blocks1 ++ blocks2)) = decodeBRR blocks1.
Proof.
  intros H1 H2.
  assert (take (length blocks1 * 16) (decodeBRR_pcm (blocks1 ++ blocks2)) =
          decodeBRR_pcm blocks1) as Hpcm.
  { pose proof (decodeBRR_pcm_length blocks1) as Hlen.
    rewrite (decodeBRR_pcm_decode (blocks1 ++ blocks2))
      by (apply Forall_app; split; assumption).
    rewrite (decodeBRR_pcm_decode blocks1 H1) in Hlen |- *.
    unfold Spec.decode in *.
    destruct (decodeBlocks_app blocks1 (0, 0)) as [p' Hp']. rewrite Hp'.
    rewrite take_app_length'; [reflexivity | symmetry; exact Hlen]. }
  split; [exact Hpcm|].
  unfold decodeBRR. rewrite <- fmap_take, Hpcm. reflexivity.
Qed.

Lemma decodeBRR_prefix_witness :
  take (length [[200; 18; 52; 247; 128; 0; 0; 0; 255]] * 16)
    (decodeBRR_pcm ([[200; 18; 52; 247; 128; 0; 0; 0; 255]] ++
                    [[69; 113; 127; 0; 0; 0; 0; 0; 1]])) =
    decodeBRR_pcm [[200; 18; 52; 247; 128; 0; 0; 0; 255]] /\
  take (length [[200; 18; 52; 247; 128; 0; 0; 0; 255]] * 16)
    (decodeBRR ([[200; 18; 52; 247; 128; 0; 0; 0; 255]] ++
                [[69; 113; 127; 0; 0; 0; 0; 0; 1]])) =
    decodeBRR [[200; 18; 52; 247; 128; 0; 0; 0; 255]].
Proof.
  apply (decodeBRR_prefix [[200; 18; 52; 247; 128; 0; 0; 0; 255]]
           [[69; 113; 127; 0; 0; 0; 0; 0; 1]]);
    repeat constructor; unfold uint8; lia.
Defined.

(** ** The encoder: trials and final encoding *)

(** Two loops whose variables are related before a turn, and stay related
    by every turn, end with related variables. *)
Lemma fold_left_related {A A' B} (R : A -> A' -> Prop)
    (f : A -> B -> A) (g : A' -> B -> A') (l : list B) :
  (forall a a' b, R a a' -> R (f a b) (g a' b)) ->
  forall a a', R a a' -> R (fold_left f l a) (fold_left g l a').
Proof.
  intros Hstep. induction l as [|b l IH]; intros a a' Ha; [assumption|].
  simpl. apply IH, Hstep, Ha.
Qed.

(** The history that a turn leaves does not depend on [writeMode], nor on
    the buffer. *)
Lemma processSample_modes pcmBlock s f st st' i :
  bs_p1 st = bs_p1 st' /\ bs_p2 st = bs_p2 st' ->
  bs_p1 (processSample pcmBlock s f true st i) =
    bs_p1 (processSample pcmBlock s f false st' i) /\
  bs_p2 (processSample pcmBlock s f true st i) =
    bs_p2 (processSample pcmBlock s f false st' i).
Proof.
  intros [H1 H2]. unfold processSample. cbn [bs_p1 bs_p2].
  rewrite H1, H2. split; reflexivity.
Qed.

(** The newest history sample after a turn is an even int16. *)
Lemma processSample_even pcmBlock s f writeMode st i :
  int16 (bs_p1 (processSample pcmBlock s f writeMode st i)) /\
  Z.even (bs_p1 (processSample pcmBlock s f writeMode st i)) = true.
Proof.
  unfold processSample. cbn [bs_p1].
  split; [apply wrap16_int16|].
  rewrite wrap16_toInt16. unfold toInt16.
  set (h := clamp16 _).
  change (2 ^ 15) with 32768. change (2 ^ 16) with 65536.
  pose proof (Z.div_mod (h * 2 + 32768) 65536 ltac:(lia)) as Hdm.
  replace ((h * 2 + 32768) mod 65536 - 32768)
    with (2 * (h - 32768 * ((h * 2 + 32768) / 65536))) by lia.
  apply Z.even_mul.
Qed.

Lemma processSample_shift pcmBlock s f writeMode st i :
  bs_p2 (processSample pcmBlock s f writeMode st i) = bs_p1 st.
Proof. reflexivity. Qed.

(** X5.  A trial and the final encoding of a block, run with the same
    parameters from the same history, hand back the same history; both of
    its samples are even int16 values, whatever the input. *)
Theorem processBlock_history (pcmBlock : list Z) (s f p1 p2 : Z) :
  let t := processBlock pcmBlock s f p1 p2 false in
  let e := processBlock pcmBlock s f p1 p2 true in
  (tr_p1 t = en_p1 e /\ tr_p2 t = en_p2 e) /\
  (int16 (en_p1 e) /\ Z.even (en_p1 e) = true) /\
  (int16 (en_p2 e) /\ Z.even (en_p2 e) = true).
Proof.
  cbv zeta. unfold processBlock. cbn [tr_p1 tr_p2 en_p1 en_p2].
  split.
  - set (R := fun st st' : blockState =>
                bs_p1 st = bs_p1 st' /\ bs_p2 st = bs_p2 st').
    assert (R (fold_left (processSample pcmBlock s f true) (seq 0 16)
                 (BlockState (replicate 9 0) (Some 0) p1 p2))
              (fold_left (processSample pcmBlock s f false) (seq 0 16)
                 (BlockState [] (Some 0) p1 p2))) as [H1 H2].
    { apply fold_left_related.
      - intros a a' b Ha. apply processSample_modes, Ha.
      - split; reflexivity. }
    split; symmetry; assumption.
  - replace (seq 0 16) with (seq 0 14 ++ [14; 15]%nat) by reflexivity.
    rewrite fold_left_app.
    generalize (fold_left (processSample pcmBlock s f true) (seq 0 14)
                  (BlockState (replicate 9 0) (Some 0) p1 p2)) as st.
    intros st. rewrite !fold_left_cons, fold_left_nil.
    split; [apply processSample_even|].
    rewrite processSample_shift. apply processSample_even.
Qed.

(** ** The encoder: padding and silence *)

Lemma toPcm16_app x y : toPcm16 (x ++ y) = toPcm16 x ++ toPcm16 y.
Proof. unfold toPcm16. apply fmap_app. Qed.

Lemma toPcm16_zeros k : toPcm16 (replicate k 0%float) = replicate k 0.
Proof. unfold toPcm16. rewrite fmap_replicate. reflexivity. Qed.

(** The padded signal is the signal followed by zeros up to the next
    multiple of 16. *)
Lemma padPcm_zeros pcmData :
  padPcm pcmData =
  pcmData ++ replicate (16 * ((length pcmData + 15) / 16) - length pcmData) 0.
Proof.
  pose proof (padPcm_length pcmData) as Hlen. unfold padPcm in *.
  rewrite length_app, length_replicate in Hlen.
  f_equal. f_equal. lia.
Qed.

(** X6.  Zeros appended to the input without starting a new block change
    nothing: the encoder pads with zeros itself. *)
Theorem encodeBRR_zero_padded (x : list float) (k : nat) :
  ((length x + k + 15) / 16 = (length x + 15) / 16)%nat ->
  encodeBRR (x ++ replicate k 0%float) = encodeBRR x.
Proof.
  intros Hk. rewrite !encodeBRR_eq. rewrite toPcm16_app, toPcm16_zeros.
  assert (padPcm (toPcm16 x ++ replicate k 0) = padPcm (toPcm16 x)) as ->;
    [|reflexivity].
  assert (length (toPcm16 x) = length x) as Hx by (unfold toPcm16; apply length_fmap).
  pose proof (Nat.div_mod_eq (length x + 15) 16) as Hdm.
  pose proof (Nat.mod_upper_bound (length x + 15) 16 ltac:(lia)) as Hm.
  pose proof (Nat.div_mod_eq (length x + k + 15) 16) as Hdm'.
  pose proof (Nat.mod_upper_bound (length x + k + 15) 16 ltac:(lia)) as Hm'.
  rewrite (padPcm_zeros (toPcm16 x ++ replicate k 0)), (padPcm_zeros (toPcm16 x)).
  rewrite length_app, length_replicate, Hx, Hk.
  rewrite <- app_assoc, <- replicate_add. f_equal. f_equal. lia.
Qed.

Lemma encodeBRR_zero_padded_witness :
  encodeBRR ([0.5; -0.25]%float ++ replicate 14 0%float) = encodeBRR [0.5; -0.25]%float.
Proof. apply (encodeBRR_zero_padded [0.5; -0.25]%float 14). reflexivity. Defined.

(** The block of sixteen zeros, from a silent history. *)
Lemma encodeBlocks_zero_block :
  encodeBlocks (replicate 16 0) 0 0 = Stream [replicate 9 0] 0 0.
Proof. vm_compute. reflexivity. Qed.

Lemma encodeBlocks_zeros k :
  encodeBlocks (replicate (16 * k) 0) 0 0 = Stream (replicate k (replicate 9 0)) 0 0.
Proof.
  induction k as [|k IH]; [reflexivity|].
  replace (16 * S k)%nat with (16 + 16 * k)%nat by lia.
  rewrite replicate_add.
  rewrite (encodeBlocks_app (replicate 16 0) (replicate (16 * k) 0) 1 0 0)
    by reflexivity.
  rewrite encodeBlocks_zero_block. cbv zeta. cbn [st_p1 st_p2 brrBlocks].
  rewrite IH. reflexivity.
Qed.

Lemma decodeBlocks_zeros flags : Forall (fun h => h = 0 \/ h = 1) flags ->
  Spec.decodeBlocks (0, 0) ((fun h => h :: replicate 8 0) <$> flags) =
  replicate (16 * length flags) 0.
Proof.
  induction 1 as [|h flags Hh _ IH]; [reflexivity|].
  rewrite fmap_cons. cbn [Spec.decodeBlocks length].
  replace (16 * S (length flags))%nat with (16 + 16 * length flags)%nat by lia.
  rewrite replicate_add, <- IH.
  destruct Hh as [-> | ->]; reflexivity.
Qed.

(** X7.  Digital silence survives the codec: a run of zeros of any length
    encodes to all-zero blocks (but for the END bit of the last header) and
    decodes to zeros, one per sample of the padded length. *)
Theorem silence_round_trip (n : nat) :
  let blocks := ((n + 15) / 16)%nat in
  encodeBRR (replicate n 0%float) = markEnd (replicate blocks (replicate 9 0)) /\
  decodeBRR_pcm (encodeBRR (replicate n 0%float)) = replicate (16 * blocks) 0 /\
  decodeBRR (encodeBRR (replicate n 0%float)) = replicate (16 * blocks) 0%float.
Proof.
  cbv zeta.
  assert (encodeBRR (replicate n 0%float) =
          markEnd (replicate ((n + 15) / 16) (replicate 9 0))) as Henc.
  { rewrite encodeBRR_eq, toPcm16_zeros, padPcm_zeros, length_replicate.
    rewrite <- replicate_add.
    pose proof (Nat.div_mod_eq (n + 15) 16) as Hdm.
    pose proof (Nat.mod_upper_bound (n + 15) 16 ltac:(lia)) as Hm.
    replace (n + (16 * ((n + 15) / 16) - n))%nat with (16 * ((n + 15) / 16))%nat by lia.
    rewrite encodeBlocks_zeros. reflexivity. }
  assert (decodeBRR_pcm (encodeBRR (replicate n 0%float)) =
          replicate (16 * ((n + 15) / 16)) 0) as Hdec.
  { rewrite decodeBRR_pcm_decode by apply encodeBRR_blocks.
    rewrite Henc. generalize ((n + 15) / 16)%nat as k. intros k.
    unfold Spec.decode. destruct k as [|k]; [reflexivity|].
    assert (markEnd (replicate (S k) (replicate 9 0)) =
            (fun h => h :: replicate 8 0) <$> (replicate k 0 ++ [1])) as ->.
    { replace (S k) with (k + 1)%nat by lia. rewrite replicate_add.
      rewrite markEnd_app by discriminate.
      rewrite fmap_app, fmap_replicate. reflexivity. }
    rewrite decodeBlocks_zeros.
    - rewrite length_app, length_replicate. cbn [length]. f_equal. lia.
    - apply Forall_app. split; [apply Forall_replicate; left; reflexivity|].
      constructor; [right; reflexivity | constructor]. }
  split; [exact Henc|]. split; [exact Hdec|].
  unfold decodeBRR. rewrite Hdec, fmap_replicate. reflexivity.
Qed.

(** ** The downloaded file *)

Lemma set_block result pre block post :
  result = pre ++ replicate (length block) 0 ++ post ->
  App.set result block (length pre) = Some (pre ++ block ++ post).
Proof.
  intros ->. unfold App.set.
  rewrite !length_app, length_replicate.
  destruct (Nat.leb_spec (length pre + length block)
              (length pre + (length block + length post))) as [_|Hlt]; [|lia].
  rewrite take_app_length. do 3 f_equal.
  rewrite app_assoc. apply drop_app_length'.
  rewrite length_app, length_replicate. reflexivity.
Qed.

Lemma concatenateBlobs_loop blocksArray : forall rest done pre,
  Forall (fun block => length block = 9%nat) rest ->
  blocksArray = done ++ rest ->
  length pre = (length done * 9)%nat ->
  fold_left
    (fun result i =>
       result ← result; block ← blocksArray !! i; App.set result block (i * 9))
    (seq (length done) (length rest))
    (Some (pre ++ replicate (length rest * 9) 0)) =
  Some (pre ++ concat rest).
Proof.
  induction rest as [|block rest IH]; intros done pre Hrest Hall Hpre.
  - cbn. reflexivity.
  - inversion Hrest as [|? ? Hb Hrest']; subst.
    cbn [length seq]. rewrite fold_left_cons.
    cbn [mbind option_bind].
    rewrite (lookup_app_r done) by lia. rewrite Nat.sub_diag. cbn [lookup list_lookup].
    cbn [mbind option_bind]. rewrite <- Hpre.
    rewrite (set_block _ pre block (replicate (length rest * 9) 0)).
    2:{ rewrite Hb. cbn [Nat.mul]. rewrite <- replicate_add. f_equal. }
    pose proof (IH (done ++ [block]) (pre ++ block) Hrest') as IH'.
    rewrite <- !app_assoc in IH'. cbn [app] in IH'.
    rewrite (length_app done [block]) in IH'. cbn [length] in IH'.
    rewrite Nat.add_1_r in IH'.
    rewrite IH'; [reflexivity | reflexivity | rewrite length_app; lia].
Qed.

Lemma concatenateBlobs_blocks blocksArray :
  Forall (fun block => length block = 9%nat) blocksArray ->
  App.concatenateBlobs blocksArray = Some (concat blocksArray).
Proof.
  intros Hall. unfold App.concatenateBlobs.
  apply (concatenateBlobs_loop blocksArray blocksArray [] [] Hall); reflexivity.
Qed.

Lemma concat_blocks_length (blocks : list (list Z)) :
  Forall (fun block => length block = 9%nat) blocks ->
  length (concat blocks) = (length blocks * 9)%nat.
Proof.
  induction 1 as [|b bs Hb _ IH]; [reflexivity|].
  cbn [concat length]. rewrite length_app, Hb, IH. lia.
Qed.

(** X8.  The [.brr] file offered for download is the blocks of the
    encoder one after the other, 9 bytes per 16 samples of the padded
    input; [concatenateBlobs] never fails on the output of [encodeBRR]. *)
Theorem concatenateBlobs_encodeBRR (x : list float) :
  App.concatenateBlobs (encodeBRR x) = Some (concat (encodeBRR x)) /\
  length (concat (encodeBRR x)) = (9 * ((length x + 15) / 16))%nat.
Proof.
  assert (Forall (fun block => length block = 9%nat) (encodeBRR x)) as Hall.
  { eapply Forall_impl; [apply encodeBRR_blocks|]. intros b [Hb _]. exact Hb. }
  split; [apply concatenateBlobs_blocks, Hall|].
  rewrite (concat_blocks_length _ Hall), encodeBRR_length. lia.
Qed.

(** ** Coupled normalization: when the signals are scaled *)

(** In binary64, what is below a number is below every number that is not
    [NaN] and not below that one. *)
Lemma SFltb_below (a b c : spec_float) :
  SFltb a b = true -> SFltb c b = false -> c <> S754_nan -> SFltb a c = true.
Proof.
  unfold SFltb.
  destruct a as [sa | sa | | sa ma ea], b as [sb | sb | | sb mb eb],
    c as [sc | sc | | sc mc ec]; cbn [SFcompare];
    try discriminate; try reflexivity; try congruence;
    try (destruct sa; try discriminate; try reflexivity);
    try (destruct sb; try discriminate; try reflexivity);
    try (destruct sc; try discriminate; try reflexivity);
    change (PosDef.Pos.compare_cont Eq) with Pos.compare;
    repeat match goal with
    | |- context [Z.compare ?x ?y] => destruct (Z.compare_spec x y)
    | |- context [Pos.compare ?x ?y] => destruct (Pos.compare_spec x y)
    end; cbn [CompOpp]; intros ? ? ?; try discriminate; try reflexivity; try congruence; lia.
Qed.

Lemma ltb_below (a b c : float) :
  (a <? b)%float = true -> (c <? b)%float = false -> (0 <=? c)%float = true ->
  (a <? c)%float = true.
Proof.
  rewrite !ltb_spec, leb_spec. intros Hab Hcb Hc.
  apply (SFltb_below _ _ _ Hab Hcb). intros Hnan. rewrite Hnan in Hc.
  unfold SFleb in Hc. destruct (Prim2SF 0); discriminate.
Qed.

(** X24.  In the arithmetic of the script, [normalizeCoupled] scales the
    two signals exactly when some sample of one of them is above 0.95 in
    absolute value: if none is, both signals are returned unchanged; if
    one is, every sample [x] of both becomes the binary32 store of
    [x * k], for one multiplier [k <= 1]. *)
Theorem normalizeCoupled_threshold (M S : list float) :
  (Forall (fun x => (0.95 <? abs x)%float = false) (M ++ S) ->
   normalizeCoupled M S = (M, S)) /\
  (Exists (fun x => (0.95 <? abs x)%float = true) (M ++ S) ->
   exists k : float,
     (k <=? 1)%float = true /\
     normalizeCoupled M S =
       ((fun x => F64.store32 (x * k)%float) <$> M,
        (fun x => F64.store32 (x * k)%float) <$> S)).
Proof.
  destruct (@overallPeak_peak float float_Arith ltb_irrefl ltb_trans M S) as [Hat Hall].
  cbv zeta in Hat, Hall.
  assert (ar_lit (F := float) 0.95 = 0.95%float) as Hlit by (vm_compute; reflexivity).
  assert ((0 <=? peakLoop S (peakLoop M (ar_lit 0)))%float = true) as Hpos
    by (apply peakLoop_nonneg, peakLoop_nonneg; reflexivity).
  unfold normalizeCoupled. cbv zeta.
  set (peak := peakLoop S (peakLoop M (ar_lit 0))) in *.
  rewrite Hlit. change (ar_ltb 0.95%float peak) with (0.95 <? peak)%float.
  split.
  - intros Hlow.
    assert ((0.95 <? peak)%float = false) as ->; [|reflexivity].
    destruct Hat as [-> | (x & Hx & ->)]; [reflexivity|].
    rewrite Forall_forall in Hlow. apply Hlow, Hx.
  - intros Hhigh. apply Exists_exists in Hhigh as (x & Hx & Hgt).
    rewrite Forall_forall in Hall.
    pose proof (ltb_below _ _ _ Hgt (Hall x Hx) Hpos) as Hpeak.
    rewrite Hpeak. exists (0.95 / peak)%float.
    split; [apply multiplier_le_one, Hpeak | reflexivity].
Qed.

(** ** The FIR downsampler *)

(** X12.  [generateFirCoefficients] returns exactly [taps] coefficients,
    whatever the two rates and whatever [Math.sin] and [Math.cos]
    return. *)
Theorem generateFirCoefficients_length (Math_sin Math_cos : float -> float)
    (originalSr targetSr : float) (taps : nat) :
  length (generateFirCoefficients Math_sin Math_cos originalSr targetSr taps) = taps.
Proof.
  unfold generateFirCoefficients. cbv zeta. rewrite length_fmap.
  apply (fold_left_invariant (fun st => length (coeffs st) = taps)).
  - intros st i Hst. unfold firStep. cbn [coeffs]. rewrite length_insert. exact Hst.
  - apply length_replicate.
Qed.

(** The quotient of a zero by any number is a zero or [NaN]. *)
Lemma zero_div_toIndex (r : float) :
  F64.toIndex (F64.Math_floor (0 / r)%float) = Some 0%nat.
Proof.
  assert (Prim2SF (0 / r)%float = S754_nan \/
          exists s, Prim2SF (0 / r)%float = S754_zero s) as Hq.
  { rewrite div_spec. change (Prim2SF 0) with (S754_zero false).
    unfold SF64div, SFdiv. destruct (Prim2SF r); eauto. }
  unfold F64.toIndex, F64.Math_floor.
  destruct Hq as [Hq | [s Hq]]; rewrite Hq, Hq; reflexivity.
Qed.

(** X13.  The manual downsampler maps the empty signal to the empty
    signal, for any pair of rates (zero, negative, infinite or [NaN]
    included): no [RangeError], no sample. *)
Theorem manualDownsample_empty (Math_sin Math_cos : float -> float) (sr tgt : float) :
  manualDownsample Math_sin Math_cos [] sr tgt = Some [].
Proof.
  unfold manualDownsample. cbv zeta. cbn [length].
  change (of_nat 0) with 0%float.
  unfold F64.Float32Array_new. rewrite zero_div_toIndex. reflexivity.
Qed.

(** ** The Mid/Side split and the stereo mix *)

Import MidSide.

(** A loop that stores [f i] and [g i] at the index [i] of two arrays, for
    every index, builds the two arrays of those values. *)
Lemma fill_pair {A} (f g : nat -> A) (n : nat) : forall k pa pb za zb,
  length pa = k -> length pb = k -> length za = n -> length zb = n ->
  fold_left (fun st i => (<[i := f i]> (fst st), <[i := g i]> (snd st)))
    (seq k n) (pa ++ za, pb ++ zb) =
  (pa ++ (f <$> seq k n), pb ++ (g <$> seq k n)).
Proof.
  induction n as [|n IH]; intros k pa pb za zb Hpa Hpb Hza Hzb.
  - destruct za; [|discriminate]. destruct zb; [|discriminate]. reflexivity.
  - destruct za as [|a za]; [discriminate|]. destruct zb as [|b zb]; [discriminate|].
    cbn [length] in Hza, Hzb.
    cbn [seq fmap list_fmap]. rewrite fold_left_cons. cbn [fst snd].
    rewrite !insert_app_r_alt by lia. rewrite Hpa, Hpb, Nat.sub_diag.
    cbn [insert list_insert].
    rewrite (cons_middle (f k) pa za), (cons_middle (g k) pb zb).
    rewrite (app_assoc pa [f k] za), (app_assoc pb [g k] zb).
    rewrite (IH (S k) (pa ++ [f k]) (pb ++ [g k]) za zb).
    + rewrite <- !app_assoc. reflexivity.
    + rewrite length_app. cbn [length]. lia.
    + rewrite length_app. cbn [length]. lia.
    + lia.
    + lia.
Qed.

Lemma fill_pair_0 {A} (f g : nat -> A) (n : nat) (za zb : list A) :
  length za = n -> length zb = n ->
  fold_left (fun st i => (<[i := f i]> (fst st), <[i := g i]> (snd st)))
    (seq 0 n) (za, zb) =
  (f <$> seq 0 n, g <$> seq 0 n).
Proof. intros Hza Hzb. apply (fill_pair f g n 0 [] [] za zb); auto. Qed.

(** X14.  [convertToMidSide] returns [null] exactly for a buffer that
    does not have two channels; for a stereo buffer it returns two signals
    of [length] samples each. *)
Theorem convertToMidSide_stereo_only {F : Type} `{ArithSub F} (b : audioBuffer F) :
  (convertToMidSide b = None <-> numberOfChannels b <> 2%nat) /\
  (forall mid side, convertToMidSide b = Some (mid, side) ->
     length mid = ab_length b /\ length side = ab_length b).
Proof.
  unfold convertToMidSide, numberOfChannels, getChannelData.
  destruct b as [n channels]. cbn [channelData ab_length].
  destruct (Nat.eqb_spec (length channels) 2) as [Hc | Hc]; cbn [negb].
  - destruct channels as [|l [|r [|? ?]]]; try discriminate.
    cbn [lookup list_lookup mbind option_bind]. cbv zeta.
    unfold splitStep.
    rewrite (fill_pair_0 _ _ n) by apply length_replicate.
    split; [split; [discriminate | intros Hne; contradiction]|].
    intros mid side Heq. injection Heq as <- <-.
    rewrite !length_fmap, length_seq. split; reflexivity.
  - split; [split; [intros _; exact Hc | reflexivity]|].
    intros mid side Heq. discriminate.
Qed.

Lemma fmap_seq_zip_with {A B} (d : A) (f : A -> A -> B) (l r : list A) (n : nat) :
  length l = n -> length r = n ->
  (fun i => f (default d (l !! i)) (default d (r !! i))) <$> seq 0 n = zip_with f l r.
Proof.
  intros Hl Hr. apply list_eq. intros i.
  rewrite list_lookup_fmap, lookup_zip_with.
  destruct (Nat.lt_ge_cases i n) as [Hi | Hi].
  - rewrite lookup_seq_lt by exact Hi. cbn [fmap option_fmap option_map Nat.add].
    destruct (lookup_lt_is_Some_2 l i) as [a Ha]; [lia|].
    destruct (lookup_lt_is_Some_2 r i) as [b Hb]; [lia|].
    rewrite Ha, Hb. reflexivity.
  - rewrite lookup_seq_ge by exact Hi.
    rewrite (lookup_ge_None_2 l i) by lia. reflexivity.
Qed.

(** X25.  [convertToMidSide] on a stereo buffer whose two channels have
    [length] samples, in the arithmetic of the script: Mid is the binary32
    store of [(l + r) / 2] and Side that of [(l - r) / 2], sample by
    sample. *)
Theorem convertToMidSide_samples (n : nat) (L R : list float) :
  length L = n -> length R = n ->
  convertToMidSide (AudioBuffer n [L; R]) =
    Some (zip_with (fun l r => F64.store32 ((l + r) / 2)%float) L R,
          zip_with (fun l r => F64.store32 ((l - r) / 2)%float) L R).
Proof.
  intros HL HR.
  unfold convertToMidSide, numberOfChannels, getChannelData.
  cbn [channelData ab_length length Nat.eqb negb lookup list_lookup mbind option_bind].
  cbv zeta. unfold splitStep.
  rewrite (fill_pair_0 _ _ n) by apply length_replicate.
  unfold get.
  rewrite (fmap_seq_zip_with (ar_lit 0)
             (fun l r => ar_store32 (ar_div (ar_add l r) (ar_lit 2))) L R n HL HR).
  rewrite (fmap_seq_zip_with (ar_lit 0)
             (fun l r => ar_store32 (ar_div (ar_sub l r) (ar_lit 2))) L R n HL HR).
  reflexivity.
Qed.

Lemma convertToMidSide_samples_witness :
  convertToMidSide (AudioBuffer 2 [[0.5; 0.25]; [0.25; -0.5]]%float) =
    Some (zip_with (fun l r => F64.store32 ((l + r) / 2)%float)
            [0.5; 0.25]%float [0.25; -0.5]%float,
          zip_with (fun l r => F64.store32 ((l - r) / 2)%float)
            [0.5; 0.25]%float [0.25; -0.5]%float).
Proof.
  apply (convertToMidSide_samples 2 [0.5; 0.25]%float [0.25; -0.5]%float); reflexivity.
Defined.

(** X16.  The mix is as long as the longer of its two inputs, in any
    arithmetic. *)
Theorem reconstructStereo_mix_length {F : Type} `{ArithSub F} (finalMid finalSide : list F) :
  length (fst (reconstructStereo_mix finalMid finalSide)) =
    Nat.max (length finalMid) (length finalSide) /\
  length (snd (reconstructStereo_mix finalMid finalSide)) =
    Nat.max (length finalMid) (length finalSide).
Proof.
  unfold reconstructStereo_mix. cbv zeta. unfold mixStep.
  rewrite (fill_pair_0 _ _ _) by apply length_replicate.
  cbn [fst snd]. rewrite !length_fmap, length_seq. split; reflexivity.
Qed.

(** X22.  The mixing loop of [reconstructStereo], in the arithmetic of the
    script: at every index below the longer of the two lengths, [left] is
    the binary32 store of the sum and [right] that of the difference of
    the two samples, where a sample past the end of its signal, a zero
    and a [NaN] all count as [+0] (the [|| 0] of the script). *)
Theorem reconstructStereo_mix_samples (finalMid finalSide : list float) :
  let len := Nat.max (length finalMid) (length finalSide) in
  let sample := fun (signal : list float) (i : nat) =>
    match signal !! i with
    | Some x => if (is_nan x || is_zero x)%bool then 0%float else x
    | None => 0%float
    end in
  reconstructStereo_mix finalMid finalSide =
    ((fun i => F64.store32 (sample finalMid i + sample finalSide i)%float) <$> seq 0 len,
     (fun i => F64.store32 (sample finalMid i - sample finalSide i)%float) <$> seq 0 len).
Proof.
  cbv zeta. unfold reconstructStereo_mix. cbv zeta. unfold mixStep.
  rewrite (fill_pair_0 _ _ _) by apply length_replicate.
  assert (forall o : option float,
            orZero o = match o with
                       | Some x => if (is_nan x || is_zero x)%bool then 0%float else x
                       | None => 0%float
                       end) as Hor.
  { intros [x|]; [|reflexivity]. cbn [orZero ar_truthy float_ArithSub].
    destruct (is_nan x || is_zero x)%bool; reflexivity. }
  f_equal; apply list_fmap_ext; intros i j _; cbv zeta; rewrite !Hor; reflexivity.
Qed.

(** ** The WAV writers *)

Import Wav.

(** The thirteen header writes, on a fresh buffer of [44 + m] bytes. *)
Lemma header_bind {T} (k : list Z -> option T) (m : nat)
    (chunk channels rate byteRate align dataLen : Z) :
  (view ← writeString (replicate (44 + m) 0) 0 ["R"; "I"; "F"; "F"]%char;
   view ← setUint32 view 4 chunk;
   view ← writeString view 8 ["W"; "A"; "V"; "E"]%char;
   view ← writeString view 12 ["f"; "m"; "t"; " "]%char;
   view ← setUint32 view 16 16;
   view ← setUint16 view 20 1;
   view ← setUint16 view 22 channels;
   view ← setUint32 view 24 rate;
   view ← setUint32 view 28 byteRate;
   view ← setUint16 view 32 align;
   view ← setUint16 view 34 16;
   view ← writeString view 36 ["d"; "a"; "t"; "a"]%char;
   view ← setUint32 view 40 dataLen;
   k view) =
  k (((charCode <$> ["R"; "I"; "F"; "F"]%char) ++ uint32LE chunk ++
      (charCode <$> ["W"; "A"; "V"; "E"]%char) ++
      (charCode <$> ["f"; "m"; "t"; " "]%char) ++
      uint32LE 16 ++ uint16LE 1 ++ uint16LE channels ++ uint32LE rate ++
      uint32LE byteRate ++ uint16LE align ++ uint16LE 16 ++
      (charCode <$> ["d"; "a"; "t"; "a"]%char) ++ uint32LE dataLen) ++
     replicate m 0).
Proof. reflexivity. Qed.

Lemma setBytes_middle (view pre old post bytes : list Z) :
  view = pre ++ old ++ post -> length old = length bytes ->
  setBytes view (length pre) bytes = Some (pre ++ bytes ++ post).
Proof.
  intros -> Hlen. unfold setBytes.
  rewrite !length_app.
  destruct (Nat.leb_spec (length pre + length bytes)
              (length pre + (length old + length post))) as [_|Hlt]; [|lia].
  rewrite take_app_length. do 3 f_equal.
  rewrite app_assoc. apply drop_app_length'.
  rewrite length_app. lia.
Qed.

Lemma setInt16_next (pre : list Z) (m : nat) (value : Z) :
  setInt16 (pre ++ replicate (2 + m) 0) (length pre) value =
  Some ((pre ++ uint16LE (toInt16 value)) ++ replicate m 0).
Proof.
  unfold setInt16. rewrite <- app_assoc.
  apply setBytes_middle with (old := [0; 0]); reflexivity.
Qed.

(** The sample loop of [encodeWAV], from the sample of index
    [length done] on. *)
Lemma wavLoop samples : forall rest done pre,
  samples = done ++ rest ->
  fold_left (wavStep samples) (seq (length done) (length rest))
    (Some (pre ++ replicate (length rest * 2) 0, length pre)) =
  Some (pre ++ (s ← rest; uint16LE (pcm16 (Some s))),
        (length pre + length rest * 2)%nat).
Proof.
  induction rest as [|s rest IH]; intros done pre Hs.
  - cbn. rewrite !app_nil_r, Nat.add_0_r. reflexivity.
  - cbn [length seq]. rewrite fold_left_cons.
    unfold wavStep at 2. cbn [mbind option_bind].
    rewrite Hs, list_lookup_middle by reflexivity. rewrite <- Hs.
    change (S (length rest) * 2)%nat with (2 + length rest * 2)%nat.
    rewrite setInt16_next. cbn [mbind option_bind].
    pose proof (IH (done ++ [s]) (pre ++ uint16LE (toInt16 (F64.trunc (pcmValue (Some s)))))) as IH'.
    rewrite (length_app done [s]) in IH'. cbn [length] in IH'.
    rewrite Nat.add_1_r in IH'.
    rewrite (length_app pre) in IH'.
    change (length (uint16LE (toInt16 (F64.trunc (pcmValue (Some s)))))) with 2%nat in IH'.
    rewrite IH' by (rewrite <- app_assoc; exact Hs).
    cbn [mbind list_bind]. unfold pcm16 at 2.
    rewrite <- app_assoc. f_equal. f_equal. lia.
Qed.

(** X17.  [encodeWAV] never throws, and the file it builds is the
    canonical 44-byte header of a mono 16-bit PCM WAV file, with the chunk
    sizes [36 + 2N] and [2N], the sample rate and the byte rate
    ([sampleRate * 2]) as 32-bit little-endian numbers, followed by the
    samples in order, each as a little-endian int16. *)
Theorem encodeWAV_layout (samples : list float) (sampleRate : float) :
  encodeWAV samples sampleRate =
  Some (((charCode <$> ["R"; "I"; "F"; "F"]%char) ++
         uint32LE (36 + Z.of_nat (length samples) * 2) ++
         (charCode <$> ["W"; "A"; "V"; "E"]%char) ++
         (charCode <$> ["f"; "m"; "t"; " "]%char) ++
         uint32LE 16 ++ uint16LE 1 ++ uint16LE 1 ++
         uint32LE (F64.trunc sampleRate) ++
         uint32LE (F64.trunc (sampleRate * 2)%float) ++
         uint16LE 2 ++ uint16LE 16 ++
         (charCode <$> ["d"; "a"; "t"; "a"]%char) ++
         uint32LE (Z.of_nat (length samples) * 2)) ++
        (s ← samples; uint16LE (pcm16 (Some s)))).
Proof.
  unfold encodeWAV. cbv zeta.
  etransitivity.
  { exact (header_bind
             (fun view => fst <$> fold_left (wavStep samples) (seq 0 (length samples))
                                    (Some (view, 44%nat)))
             (length samples * 2) _ 1 _ _ 2 _). }
  set (header := (_ ++ _ ++ _ ++ _ ++ _ ++ _ ++ _ ++ _ ++ _ ++ _ ++ _ ++ _ ++ _)).
  change 44%nat with (length header).
  pose proof (wavLoop samples samples [] header eq_refl) as Hloop.
  change (length (@nil float)) with 0%nat in Hloop.
  rewrite Hloop. reflexivity.
Qed.

(** The frame loop of [encodeStereoWAV], from the frame of index
    [length doneL] on. *)
Lemma stereoLoop leftChannel rightChannel : forall restL restR doneL doneR pre,
  leftChannel = doneL ++ restL -> rightChannel = doneR ++ restR ->
  length doneL = length doneR ->
  fold_left (stereoStep leftChannel rightChannel)
    (seq (length doneL) (length (zip restL restR)))
    (Some (pre ++ replicate (length (zip restL restR) * 4) 0, length pre)) =
  Some (pre ++ ('(l, r) ← zip restL restR;
                uint16LE (pcm16 (Some l)) ++ uint16LE (pcm16 (Some r))),
        (length pre + length (zip restL restR) * 4)%nat).
Proof.
  induction restL as [|l restL IH]; intros restR doneL doneR pre HL HR Hdone.
  - cbn. rewrite !app_nil_r, Nat.add_0_r. reflexivity.
  - destruct restR as [|r restR].
    + cbn. rewrite !app_nil_r, Nat.add_0_r. reflexivity.
    + change (zip (l :: restL) (r :: restR)) with ((l, r) :: zip restL restR).
      cbn [length seq]. rewrite fold_left_cons.
      unfold stereoStep at 2. cbn [mbind option_bind]. cbv zeta.
      rewrite HL, list_lookup_middle by reflexivity. rewrite <- HL.
      rewrite HR, list_lookup_middle by exact Hdone. rewrite <- HR.
      set (bl := uint16LE (toInt16 (F64.trunc (pcmValue (Some l))))).
      set (br := uint16LE (toInt16 (F64.trunc (pcmValue (Some r))))).
      change (S (length (zip restL restR)) * 4)%nat
        with (2 + (2 + length (zip restL restR) * 4))%nat.
      rewrite setInt16_next. fold bl. cbn [mbind option_bind].
      replace (length pre + 2)%nat with (length (pre ++ bl))
        by (rewrite length_app; reflexivity).
      rewrite setInt16_next. fold br. cbn [mbind option_bind].
      replace (length (pre ++ bl) + 2)%nat with (length ((pre ++ bl) ++ br))
        by (rewrite (length_app (pre ++ bl)); reflexivity).
      pose proof (IH restR (doneL ++ [l]) (doneR ++ [r]) ((pre ++ bl) ++ br)) as IH'.
      rewrite (length_app doneL [l]) in IH'. cbn [length] in IH'.
      rewrite Nat.add_1_r in IH'.
      rewrite IH'.
      * cbn [mbind list_bind]. unfold pcm16 at 3 4. fold bl br.
        rewrite <- !app_assoc. f_equal.
        rewrite !length_app. change (length bl) with 2%nat.
        change (length br) with 2%nat. f_equal; try reflexivity; lia.
      * rewrite <- app_assoc. exact HL.
      * rewrite <- app_assoc. exact HR.
      * rewrite !length_app. cbn [length]. lia.
Qed.

(** X18.  [encodeStereoWAV] never throws; its file is the 44-byte header
    of a stereo 16-bit PCM WAV file for [min(left.length, right.length)]
    frames (chunk sizes [36 + 4N] and [4N], byte rate [sampleRate * 4],
    block align 4) followed by the frames in order, the left sample before
    the right one; what the longer channel has beyond the shorter one is
    dropped. *)
Theorem encodeStereoWAV_layout (leftChannel rightChannel : list float)
    (sampleRate : float) :
  let frames := zip leftChannel rightChannel in
  length frames = Nat.min (length leftChannel) (length rightChannel) /\
  encodeStereoWAV leftChannel rightChannel sampleRate =
  Some (((charCode <$> ["R"; "I"; "F"; "F"]%char) ++
         uint32LE (36 + Z.of_nat (length frames) * 4) ++
         (charCode <$> ["W"; "A"; "V"; "E"]%char) ++
         (charCode <$> ["f"; "m"; "t"; " "]%char) ++
         uint32LE 16 ++ uint16LE 1 ++ uint16LE 2 ++
         uint32LE (F64.trunc sampleRate) ++
         uint32LE (F64.trunc (sampleRate * 4)%float) ++
         uint16LE 4 ++ uint16LE 16 ++
         (charCode <$> ["d"; "a"; "t"; "a"]%char) ++
         uint32LE (Z.of_nat (length frames) * 4)) ++
        ('(l, r) ← frames; uint16LE (pcm16 (Some l)) ++ uint16LE (pcm16 (Some r)))).
Proof.
  cbv zeta.
  assert (length (zip leftChannel rightChannel) =
          Nat.min (length leftChannel) (length rightChannel)) as Hlen
    by apply length_zip_with.
  split; [exact Hlen|].
  unfold encodeStereoWAV. cbv zeta. rewrite <- Hlen.
  etransitivity.
  { exact (header_bind
             (fun view =>
                fst <$> fold_left (stereoStep leftChannel rightChannel)
                          (seq 0 (length (zip leftChannel rightChannel)))
                          (Some (view, 44%nat)))
             (length (zip leftChannel rightChannel) * 4) _ 2 _ _ 4 _). }
  set (header := (_ ++ _ ++ _ ++ _ ++ _ ++ _ ++ _ ++ _ ++ _ ++ _ ++ _ ++ _ ++ _)).
  change 44%nat with (length header).
  pose proof (stereoLoop leftChannel rightChannel leftChannel rightChannel [] []
                header eq_refl eq_refl eq_refl) as Hloop.
  change (length (@nil float)) with 0%nat in Hloop.
  rewrite Hloop. reflexivity.
Qed.

(** ** From the decoder to the WAV file *)

Lemma decodedSample_all :
  Check.allFrom CheckWav.decodedSample (-32768) (Z.to_nat 65536) = true.
Proof. vm_compute. reflexivity. Qed.

Lemma decodedSample_unfold s :
  CheckWav.decodedSample s =
  (pcm16 (Some (F64.store32 (F64.of_Z s / 32768)%float)) =? (if s <=? 0 then s else s - 1)).
Proof. reflexivity. Qed.

Lemma decodedSample_int16 s :
  int16 s ->
  pcm16 (Some (F64.store32 (F64.of_Z s / 32768)%float)) = (if s <=? 0 then s else s - 1).
Proof.
  intros Hs.
  assert (CheckWav.decodedSample s = true) as Hcheck.
  { apply (allFrom_spec _ _ _ decodedSample_all).
    unfold int16 in Hs. rewrite Z2Nat.id by lia. lia. }
  rewrite decodedSample_unfold in Hcheck. apply Z.eqb_eq in Hcheck. exact Hcheck.
Qed.

Lemma bind_fmap_Forall {A B C} (P : A -> Prop) (f : A -> B) (g : B -> list C)
    (h : A -> list C) (l : list A) :
  Forall P l -> (forall a, P a -> g (f a) = h a) ->
  (f <$> l) ≫= g = l ≫= h.
Proof.
  intros Hl Hgh. induction Hl as [|a l Ha _ IH]; [reflexivity|].
  rewrite fmap_cons. cbn [mbind list_bind]. rewrite (Hgh a Ha). f_equal. exact IH.
Qed.

(** The data chunk of the file of [encodeWAV]. *)
Lemma encodeWAV_data (samples : list float) (sampleRate : float) :
  drop 44 <$> encodeWAV samples sampleRate =
  Some (s ← samples; uint16LE (pcm16 (Some s))).
Proof.
  unfold encodeWAV. cbv zeta.
  match goal with
  | |- drop 44 <$> ?e = _ =>
      assert (exists header, length header = 44%nat /\
                e = Some (header ++ (s ← samples; uint16LE (pcm16 (Some s)))))
        as (header & Hlen & ->)
  end.
  { eexists. split; [|etransitivity].
    2:{ exact (header_bind
                 (fun view => fst <$> fold_left (wavStep samples)
                                        (seq 0 (length samples)) (Some (view, 44%nat)))
                 (length samples * 2) (36 + Z.of_nat (length samples) * 2) 1
                 (F64.trunc sampleRate) (F64.trunc (sampleRate * 2)%float) 2
                 (Z.of_nat (length samples) * 2)). }
    2:{ set (header := (_ ++ _ ++ _ ++ _ ++ _ ++ _ ++ _ ++ _ ++ _ ++ _ ++ _ ++ _ ++ _)).
        change 44%nat with (length header).
        pose proof (wavLoop samples samples [] header eq_refl) as Hloop.
        change (length (@nil float)) with 0%nat in Hloop.
        rewrite Hloop. reflexivity. }
    reflexivity. }
  cbn [fmap option_fmap option_map]. f_equal. apply drop_app_length'. symmetry. exact Hlen.
Qed.

(** X19.  The WAV file offered for a decoded channel holds, for the
    int16 sample [s] of the decoder, the int16 [s] when [s <= 0] and
    [s - 1] when [s > 0]: the writer scales negative numbers by 32768 and
    the others by 32767, and truncates. *)
Theorem encodeWAV_decodeBRR (blocks : list (list Z)) (sampleRate : float) :
  drop 44 <$> encodeWAV (decodeBRR blocks) sampleRate =
  Some (s ← decodeBRR_pcm blocks; uint16LE (if s <=? 0 then s else s - 1)).
Proof.
  rewrite encodeWAV_data. cbn [fmap option_fmap option_map]. f_equal.
  unfold decodeBRR.
  apply (bind_fmap_Forall int16); [apply decodeBRR_pcm_int16|].
  intros s Hs. rewrite (decodedSample_int16 s Hs). reflexivity.
Qed.

(** ** The encoder against the decoder, for filter 0 *)

Import Quantizer.

(** A turn of [processBlock], written with the quantizer. *)
Lemma processSample_eq pcmBlock s f writeMode buf t p1 p2 i :
  processSample pcmBlock s f writeMode (BlockState buf t p1 p2) i =
  let vlin := sar (getPrediction f p1 p2) 1 in
  let q := quantizedNibble (pcmBlock !! i) vlin s in
  let r := reconstructed q vlin s in
  let clampedHalf := clamp16 (vlin + sar (shl q s) 1) in
  let t :=
    if (clampedHalf * 2 >? 32767) || (clampedHalf * 2 <? -32768)
    then (fun t => t + 999999999) <$> t else t in
  BlockState
    (if writeMode then
       if (i mod 2 =? 0)%nat
       then <[(1 + i / 2)%nat := toUint8 (shl (band q 15) 4)]> buf
       else <[(1 + i / 2)%nat := toUint8 (bor (byteAt buf (1 + i / 2)) (band q 15))]> buf
     else buf)
    (match t, (fun x => x - r) <$> pcmBlock !! i with
     | Some t, Some e => Some (t + e * e)
     | _, _ => None
     end)
    r p1.
Proof.
  unfold processSample, quantizedNibble, reconstructed. cbv zeta.
  cbv beta iota delta [bs_p1 bs_p2 brrBuffer totalError].
  reflexivity.
Qed.

Lemma getPrediction_0 p1 p2 : getPrediction 0 p1 p2 = 0.
Proof. reflexivity. Qed.

Lemma Qtruncate_half (a b : Z) :
  0 < a -> 0 < b -> Qtruncate (inject_Z a / (inject_Z b / 2)) = (2 * a) / b.
Proof.
  intros Ha Hb. destruct a as [|pa|pa]; try lia. destruct b as [|pb|pb]; try lia.
  change (inject_Z (Z.pos pa) / (inject_Z (Z.pos pb) / 2))%Q
    with ((Z.pos pa * 2) # (1 * (pb * 1)))%Q.
  unfold Qtruncate. cbn [Qnum Qden]. rewrite Pos.mul_1_l, Pos.mul_1_r.
  rewrite Z.quot_div_nonneg by lia. f_equal. lia.
Qed.

(** With no prediction, the nibble of an int16 sample fits in 4 bits. *)
Lemma quantizedNibble_range x s :
  int16 x -> 0 <= s <= 12 -> -8 <= quantizedNibble (Some x) 0 s <= 7.
Proof.
  intros Hx Hs. unfold int16 in Hx. unfold quantizedNibble.
  change (default 0 (Some x)) with x. cbv zeta.
  rewrite (sar_div x 1) by (unfold int32; lia).
  assert (-16384 <= x / 2 ^ 1 <= 16383) as Hd
    by (change (2 ^ 1) with 2; pose proof (Z.div_mod x 2 ltac:(lia));
        pose proof (Z.mod_pos_bound x 2 ltac:(lia)); lia).
  rewrite Z.sub_0_r.
  assert ((Z.abs (x / 2 ^ 1) >? 16384) = false) as -> by lia.
  cbn [andb].
  assert (1 <= 2 ^ s <= 4096) as Hp.
  { split; [apply (Z.pow_le_mono_r 2 0 s); lia | apply (Z.pow_le_mono_r 2 s 12); lia]. }
  assert (shl 1 s = 2 ^ s) as ->.
  { rewrite shl_mul; unfold int32; lia. }
  rewrite (shl_mul (2 ^ s) 2) by (unfold int32; lia).
  rewrite (sar_div (2 ^ s) 2) by (unfold int32; lia).
  set (dpo := x / 2 ^ 1 + 2 ^ s * 2 ^ 2 + 2 ^ s / 2 ^ 2).
  assert (0 <= 2 ^ s / 2 ^ 2 <= 1024) as Hq.
  { change (2 ^ 2) with 4. pose proof (Z.div_mod (2 ^ s) 4 ltac:(lia)).
    pose proof (Z.mod_pos_bound (2 ^ s) 4 ltac:(lia)). lia. }
  assert (dpo <= 40000) as Hdpo by (unfold dpo; lia).
  destruct (Z.gtb_spec dpo 0) as [Hpos | Hneg]; [|lia].
  destruct (Z.gtb_spec (2 ^ s) 1) as [Hstep | Hstep].
  - rewrite Qtruncate_half by lia.
    assert (0 <= 2 * dpo / 2 ^ s <= 80000) as Hc.
    { split; [apply Z.div_pos; lia | apply Z.div_le_upper_bound; nia]. }
    unfold bor. rewrite !toInt32_id by (unfold int32; lia). rewrite Z.lor_0_r.
    destruct (Z.gtb_spec (2 * dpo / 2 ^ s) 15); lia.
  - destruct (Z.gtb_spec (dpo * 2) 15); lia.
Qed.

Section FilterZero.
Variable s : Z.
Hypothesis Hs : 0 <= s <= 12.

Local Abbreviation q x := (quantizedNibble (Some x) 0 s).
Local Abbreviation r x := (reconstructed (q x) 0 s).

Lemma pow_shift_range : 1 <= 2 ^ s <= 4096.
Proof.
  split; [apply (Z.pow_le_mono_r 2 0 s); lia | apply (Z.pow_le_mono_r 2 s 12); lia].
Qed.

(** Without prediction the reconstructed sample is twice the dequantized
    nibble; it needs no clamp and no wrap. *)
Lemma reconstructed_value x :
  int16 x ->
  r x = 2 * ((q x * 2 ^ s) / 2) /\ -16384 <= (q x * 2 ^ s) / 2 <= 14336 /\
  sar (shl (q x) s) 1 = (q x * 2 ^ s) / 2.
Proof.
  intros Hx. pose proof (quantizedNibble_range x s Hx Hs) as Hq.
  pose proof pow_shift_range as Hp.
  set (n := q x) in *.
  assert (-32768 <= n * 2 ^ s <= 28672) as Hn by nia.
  assert (sar (shl n s) 1 = (n * 2 ^ s) / 2) as Hd.
  { rewrite shl_mul by (unfold int32; lia).
    rewrite sar_div by (unfold int32; lia). reflexivity. }
  assert (-16384 <= (n * 2 ^ s) / 2 <= 14336) as Hr.
  { pose proof (Z.div_mod (n * 2 ^ s) 2 ltac:(lia)).
    pose proof (Z.mod_pos_bound (n * 2 ^ s) 2 ltac:(lia)). lia. }
  split; [|split; assumption].
  unfold reconstructed. cbv zeta. rewrite Hd, Z.add_0_l.
  rewrite clamp16_spec. unfold Spec.clamp.
  rewrite Z.min_r, Z.max_r by lia.
  rewrite wrap16_toInt16, toInt16_id by (unfold int16; lia). lia.
Qed.

Lemma nibble_bits n : band n 15 = n mod 16.
Proof.
  unfold band. rewrite (toInt32_id 15) by (unfold int32; lia).
  change 15 with (Z.ones 4). rewrite Z.land_ones by lia.
  unfold toInt32.
  change (2 ^ 4) with 16. change (2 ^ 31) with 2147483648. change (2 ^ 32) with (16 * 268435456).
  pose proof (Z.div_mod (n + 2147483648) (16 * 268435456) ltac:(lia)) as H1.
  pose proof (Z.mod_pos_bound (n + 2147483648) (16 * 268435456) ltac:(lia)) as H2.
  set (m := (n + 2147483648) mod (16 * 268435456)) in *.
  replace (m - 2147483648) with (n + (- ((n + 2147483648) / (16 * 268435456)) * 268435456) * 16) by lia.
  apply Z_mod_plus_full.
Qed.

(** A turn of the loop, for filter 0 and an int16 sample. *)
Lemma processSample_filter0 pcmBlock writeMode buf t p1 p2 i x :
  pcmBlock !! i = Some x -> int16 x ->
  processSample pcmBlock s 0 writeMode (BlockState buf (Some t) p1 p2) i =
  BlockState
    (if writeMode then
       if (i mod 2 =? 0)%nat
       then <[(1 + i / 2)%nat := 16 * (q x mod 16)]> buf
       else <[(1 + i / 2)%nat := toUint8 (bor (byteAt buf (1 + i / 2)) (q x mod 16))]> buf
     else buf)
    (Some (t + (x - r x) * (x - r x))) (r x) p1.
Proof.
  intros Hi Hx. rewrite processSample_eq. cbv zeta.
  rewrite getPrediction_0. change (sar 0 1) with 0. rewrite Hi.
  destruct (reconstructed_value x Hx) as (Hr & Hd & Hsar).
  rewrite Hsar, Z.add_0_l, clamp16_spec. unfold Spec.clamp.
  rewrite Z.min_r, Z.max_r by lia.
  assert ((((q x * 2 ^ s) / 2 * 2 >? 32767) || ((q x * 2 ^ s) / 2 * 2 <? -32768)) = false)
    as -> by lia.
  cbn [fmap option_fmap option_map].
  rewrite nibble_bits.
  assert (toUint8 (shl (q x mod 16) 4) = 16 * (q x mod 16)) as ->.
  { pose proof (Z.mod_pos_bound (q x) 16 ltac:(lia)).
    rewrite shl_mul by (unfold int32; lia).
    unfold toUint8. change (2 ^ 4) with 16. change (2 ^ 8) with 256.
    rewrite Z.mod_small by lia. lia. }
  reflexivity.
Qed.


Lemma signExtend4_nibble n : -8 <= n <= 7 -> Spec.signExtend4 (n mod 16) = n.
Proof.
  intros Hn. unfold Spec.signExtend4.
  pose proof (Z.div_mod n 16 ltac:(lia)). pose proof (Z.mod_pos_bound n 16 ltac:(lia)).
  destruct (Z.leb_spec 8 (n mod 16)); lia.
Qed.

(** The decoder, fed with the nibbles of the quantizer, rebuilds the
    reconstructed samples of the encoder, whatever its history. *)
Lemma decodeNibbles_filter0 xs :
  Forall int16 xs -> forall p,
  fst (Spec.decodeNibbles s 0 p ((fun x => q x mod 16) <$> xs)) = (fun x => r x) <$> xs.
Proof.
  induction 1 as [|x xs Hx _ IH]; intros p; [reflexivity|].
  rewrite !fmap_cons. cbn [Spec.decodeNibbles].
  set (sample := Spec.sampleOf s 0 p (q x mod 16)).
  specialize (IH (sample, fst p)).
  destruct (Spec.decodeNibbles s 0 (sample, fst p) _) as [out p']. cbn [fst] in *.
  rewrite <- IH. f_equal.
  destruct (reconstructed_value x Hx) as (Hr & Hd & _).
  pose proof (quantizedNibble_range x s Hx Hs) as Hq.
  unfold sample, Spec.sampleOf. cbv zeta.
  rewrite signExtend4_nibble by exact Hq.
  assert ((s <=? 12) = true) as -> by lia.
  rewrite getPrediction_0, Z.add_0_r. unfold Spec.clamp, Spec.wrap15.
  rewrite Z.min_r, Z.max_r by lia.
  assert ((16383 <? (q x * 2 ^ s) / 2) = false) as -> by lia.
  assert (((q x * 2 ^ s) / 2 <? -16384) = false) as -> by lia.
  unfold Spec.wrap16. rewrite Hr.
  rewrite Z.mod_small by lia. lia.
Qed.

Lemma pack_nibbles a b :
  0 <= a < 16 -> 0 <= b < 16 -> toUint8 (bor (16 * a) b) = 16 * a + b.
Proof.
  intros Ha Hb.
  assert (a = 0 \/ a = 1 \/ a = 2 \/ a = 3 \/ a = 4 \/ a = 5 \/ a = 6 \/ a = 7 \/
          a = 8 \/ a = 9 \/ a = 10 \/ a = 11 \/ a = 12 \/ a = 13 \/ a = 14 \/ a = 15)
    as Hca by lia.
  assert (b = 0 \/ b = 1 \/ b = 2 \/ b = 3 \/ b = 4 \/ b = 5 \/ b = 6 \/ b = 7 \/
          b = 8 \/ b = 9 \/ b = 10 \/ b = 11 \/ b = 12 \/ b = 13 \/ b = 14 \/ b = 15)
    as Hcb by lia.
  repeat (destruct Hca as [Hca | Hca]; [subst a | ]); [ .. | subst a];
    repeat (destruct Hcb as [Hcb | Hcb]; [subst b | ]); try subst b; reflexivity.
Qed.

Lemma packed_uint8 a b : 0 <= a < 16 -> 0 <= b < 16 -> uint8 (16 * a + b).
Proof. unfold uint8. change (2 ^ 8) with 256. lia. Qed.

Lemma unpack_nibbles a b :
  0 <= b < 16 -> (16 * a + b) / 16 = a /\ (16 * a + b) mod 16 = b.
Proof.
  intros Hb.
  pose proof (Z.div_mod (16 * a + b) 16 ltac:(lia)).
  pose proof (Z.mod_pos_bound (16 * a + b) 16 ltac:(lia)). lia.
Qed.

Lemma header_fields : (16 * s / 16) mod 16 = s /\ (16 * s / 4) mod 4 = 0.
Proof.
  replace (16 * s) with (s * 16) by lia. rewrite Z.div_mul by lia.
  replace (s * 16) with (4 * s * 4) by lia. rewrite Z.div_mul by lia.
  split; [apply Z.mod_small; lia|].
  replace (4 * s) with (s * 4) by lia. apply Z_mod_mult.
Qed.

(** The sixteen turns of the loop, one after the other. *)
Lemma processBlock_filter0 x0 x1 x2 x3 x4 x5 x6 x7 x8 x9 x10 x11 x12 x13 x14 x15 p1 p2 writeMode :
  int16 x0 -> int16 x1 -> int16 x2 -> int16 x3 -> int16 x4 -> int16 x5 -> int16 x6 -> int16 x7 -> int16 x8 -> int16 x9 -> int16 x10 -> int16 x11 -> int16 x12 -> int16 x13 -> int16 x14 -> int16 x15 ->
  fold_left (processSample [x0; x1; x2; x3; x4; x5; x6; x7; x8; x9; x10; x11; x12; x13; x14; x15] s 0 writeMode) (seq 0 16)
    (BlockState (if writeMode then replicate 9 0 else []) (Some 0) p1 p2) =
  BlockState
    (if writeMode then [0; 16 * (q x0 mod 16) + q x1 mod 16; 16 * (q x2 mod 16) + q x3 mod 16; 16 * (q x4 mod 16) + q x5 mod 16; 16 * (q x6 mod 16) + q x7 mod 16; 16 * (q x8 mod 16) + q x9 mod 16; 16 * (q x10 mod 16) + q x11 mod 16; 16 * (q x12 mod 16) + q x13 mod 16; 16 * (q x14 mod 16) + q x15 mod 16] else [])
    (Some (0 + (x0 - r x0) * (x0 - r x0) + (x1 - r x1) * (x1 - r x1) + (x2 - r x2) * (x2 - r x2) + (x3 - r x3) * (x3 - r x3) + (x4 - r x4) * (x4 - r x4) + (x5 - r x5) * (x5 - r x5) + (x6 - r x6) * (x6 - r x6) + (x7 - r x7) * (x7 - r x7) + (x8 - r x8) * (x8 - r x8) + (x9 - r x9) * (x9 - r x9) + (x10 - r x10) * (x10 - r x10) + (x11 - r x11) * (x11 - r x11) + (x12 - r x12) * (x12 - r x12) + (x13 - r x13) * (x13 - r x13) + (x14 - r x14) * (x14 - r x14) + (x15 - r x15) * (x15 - r x15))) (r x15) (r x14).
Proof.
  intros H0 H1 H2 H3 H4 H5 H6 H7 H8 H9 H10 H11 H12 H13 H14 H15.
  set (pcmBlock := [x0; x1; x2; x3; x4; x5; x6; x7; x8; x9; x10; x11; x12; x13; x14; x15]).
  change (seq 0 16) with [0; 1; 2; 3; 4; 5; 6; 7; 8; 9; 10; 11; 12; 13; 14; 15]%nat.
  destruct writeMode; cbn [replicate].
  - do 16 (rewrite fold_left_cons;
           erewrite (processSample_filter0 pcmBlock); [| reflexivity | assumption];
           cbn [Nat.modulo Nat.div Nat.divmod Nat.eqb Nat.add Nat.sub fst snd
                insert list_insert byteAt lookup list_lookup default from_option];
           unfold id;
           rewrite ?pack_nibbles by (apply Z.mod_pos_bound; lia)).
    rewrite fold_left_nil. reflexivity.
  - do 16 (rewrite fold_left_cons;
           erewrite (processSample_filter0 pcmBlock); [| reflexivity | assumption]).
    rewrite fold_left_nil. reflexivity.
Qed.

End FilterZero.

(** X20.  For filter 0 the encoder and the decoder agree.  On a block of
    sixteen int16 samples and a shift in 0..12, the block that
    [processBlock] writes (with the header [shift << 4]) decodes to the
    encoder's own reconstruction: each decoded sample is the reconstructed
    value of the nibble of its input sample alone, the last two decoded
    samples are the history that the encoder hands on, and the error of
    the trial is the mean squared difference between the input block and
    the decoded block. *)
Theorem filter0_round_trip (pcmBlock : list Z) (s p1 p2 : Z) :
  length pcmBlock = 16%nat -> Forall int16 pcmBlock -> 0 <= s <= 12 ->
  let e := processBlock pcmBlock s 0 p1 p2 true in
  let t := processBlock pcmBlock s 0 p1 p2 false in
  let decoded := decodeBRR_pcm [<[0%nat := 16 * s]> (en_block e)] in
  decoded = (fun x => reconstructed (quantizedNibble (Some x) 0 s) 0 s) <$> pcmBlock /\
  decoded !! 15%nat = Some (en_p1 e) /\
  decoded !! 14%nat = Some (en_p2 e) /\
  tr_error t = Fin (inject_Z (squaredError pcmBlock decoded) / 16).
Proof.
  intros Hlen Hint Hs. cbv zeta.
  destruct pcmBlock as [|x0 [|x1 [|x2 [|x3 [|x4 [|x5 [|x6 [|x7 [|x8 [|x9 [|x10 [|x11 [|x12 [|x13 [|x14 [|x15 [|? ?]]]]]]]]]]]]]]]]]; try discriminate.
  clear Hlen.
  repeat match goal with
         | H : Forall _ (_ :: _) |- _ => apply Forall_cons in H as [? H]
         end.
  assert (Forall int16 [x0; x1; x2; x3; x4; x5; x6; x7; x8; x9; x10; x11; x12; x13; x14; x15]) as Hall
    by (repeat (apply Forall_cons_2; [assumption|]); apply Forall_nil_2).
  pose proof (processBlock_filter0 s Hs x0 x1 x2 x3 x4 x5 x6 x7 x8 x9 x10 x11 x12 x13 x14 x15 p1 p2 true) as Hw.
  pose proof (processBlock_filter0 s Hs x0 x1 x2 x3 x4 x5 x6 x7 x8 x9 x10 x11 x12 x13 x14 x15 p1 p2 false) as Ht.
  repeat (specialize (Hw ltac:(assumption)); specialize (Ht ltac:(assumption))).
  cbv iota in Hw, Ht.
  unfold processBlock. cbv beta iota zeta. rewrite Hw, Ht.
  cbn [en_block en_p1 en_p2 tr_error brrBuffer bs_p1 bs_p2 totalError insert list_insert].
  assert (forall x, 0 <= quantizedNibble (Some x) 0 s mod 16 < 16) as Hn
    by (intros x; apply Z.mod_pos_bound; lia).
  set (block := (16 * s :: _)).
  assert (decodeBRR_pcm [block] =
          (fun x => reconstructed (quantizedNibble (Some x) 0 s) 0 s) <$>
            [x0; x1; x2; x3; x4; x5; x6; x7; x8; x9; x10; x11; x12; x13; x14; x15]) as Hdec.
  { rewrite decodeBRR_pcm_decode.
    2:{ constructor; [|constructor]. split; [reflexivity|].
        unfold block.
        repeat (constructor;
                [first [apply packed_uint8; apply Hn
                       | unfold uint8; change (2 ^ 8) with 256; lia]|]).
        constructor. }
    unfold Spec.decode. cbn [Spec.decodeBlocks].
    change (byteAt block 0) with (16 * s).
    destruct (header_fields s Hs) as [-> ->].
    assert (Spec.nibblesOf block =
            (fun x => quantizedNibble (Some x) 0 s mod 16) <$>
              [x0; x1; x2; x3; x4; x5; x6; x7; x8; x9; x10; x11; x12; x13; x14; x15]) as ->.
    { unfold Spec.nibblesOf, block.
      cbn [take drop mbind list_bind app fmap list_fmap].
      repeat match goal with
             | |- context [(16 * ?a + ?b) / 16] =>
                 destruct (unpack_nibbles a b) as [-> ->];
                 [apply Z.mod_pos_bound; lia|]
             end.
      reflexivity. }
    pose proof (decodeNibbles_filter0 s Hs _ Hall (0, 0)) as Hnib.
    destruct (Spec.decodeNibbles s 0 (0, 0) _) as [out p']. cbn [fst] in Hnib.
    rewrite app_nil_r. exact Hnib. }
  rewrite Hdec. cbn [fmap list_fmap lookup list_lookup].
  split; [reflexivity|]. split; [reflexivity|]. split; [reflexivity|].
  do 3 f_equal.
  unfold squaredError. cbn [zip_with foldr].
  repeat match goal with
         | |- context [(?a - ?b) * (?a - ?b)] =>
             generalize ((a - b) * (a - b)); intro
         end.
  lia.
Qed.

Lemma filter0_round_trip_witness :
  let e := processBlock Check.sampleBlock 12 0 0 0 true in
  let t := processBlock Check.sampleBlock 12 0 0 0 false in
  let decoded := decodeBRR_pcm [<[0%nat := 16 * 12]> (en_block e)] in
  decoded =
    (fun x => reconstructed (quantizedNibble (Some x) 0 12) 0 12) <$> Check.sampleBlock /\
  decoded !! 15%nat = Some (en_p1 e) /\
  decoded !! 14%nat = Some (en_p2 e) /\
  tr_error t = Fin (inject_Z (squaredError Check.sampleBlock decoded) / 16).
Proof.
  apply (filter0_round_trip Check.sampleBlock 12 0 0).
  - reflexivity.
  - unfold Check.sampleBlock.
    repeat (apply Forall_cons_2; [unfold int16; lia|]). apply Forall_nil_2.
  - lia.
Defined.

(** ** The search on a block that is too short *)

(** Once the error is [NaN] it stays [NaN], and a turn past the end of the
    block makes it [NaN]. *)
Lemma processSample_nan pcmBlock s f writeMode st i :
  totalError st = None \/ pcmBlock !! i = None ->
  totalError (processSample pcmBlock s f writeMode st i) = None.
Proof.
  intros Hnan. unfold processSample. cbn [totalError].
  destruct Hnan as [-> | ->].
  - destruct (_ || _); reflexivity.
  - cbn [fmap option_fmap option_map]. destruct (_ || _); destruct (totalError st);
      reflexivity.
Qed.

Lemma trial_error_nan pcmBlock s f p1 p2 :
  (length pcmBlock < 16)%nat ->
  tr_error (processBlock pcmBlock s f p1 p2 false) = NaN.
Proof.
  intros Hlen. unfold processBlock. cbn [tr_error].
  replace (seq 0 16)
    with (seq 0 (length pcmBlock) ++
          length pcmBlock :: seq (S (length pcmBlock)) (15 - length pcmBlock)).
  2:{ change (length pcmBlock :: seq (S (length pcmBlock)) (15 - length pcmBlock))
        with (seq (length pcmBlock) (S (15 - length pcmBlock))).
      replace (seq 0 16) with (seq 0 (length pcmBlock + S (15 - length pcmBlock)))
        by (f_equal; lia).
      rewrite seq_app. reflexivity. }
  rewrite fold_left_app, fold_left_cons.
  set (st := fold_left _ (seq 0 (length pcmBlock)) _).
  assert (totalError (fold_left (processSample pcmBlock s f false)
                        (seq (S (length pcmBlock)) (15 - length pcmBlock))
                        (processSample pcmBlock s f false st (length pcmBlock))) = None)
    as ->; [|reflexivity].
  apply (fold_left_invariant (fun st => totalError st = None)).
  - intros a b Ha. apply processSample_nan. left. exact Ha.
  - apply processSample_nan. right. apply lookup_ge_None_2. lia.
Qed.

(** X23.  On a block of fewer than 16 samples every trial error is [NaN],
    no candidate beats the initial [Infinity], and the search keeps shift 0
    and filter 0: the header that [findAndEncodeBlock] writes is 0. *)
Theorem searchParameters_short (pcmBlock : list Z) (p1 p2 : Z) :
  (length pcmBlock < 16)%nat ->
  searchParameters pcmBlock p1 p2 = Best Infinity 0 0 /\
  byteAt (en_block (findAndEncodeBlock pcmBlock p1 p2)) 0 = 0.
Proof.
  intros Hlen.
  assert (searchParameters pcmBlock p1 p2 = Best Infinity 0 0) as Hbest.
  { unfold searchParameters.
    apply (fold_left_invariant (fun b => b = Best Infinity 0 0)); [|reflexivity].
    intros b s ->.
    apply (fold_left_invariant (fun b => b = Best Infinity 0 0)); [|reflexivity].
    intros b f ->. unfold tryParameters. cbv zeta.
    rewrite (trial_error_nan pcmBlock s f p1 p2 Hlen). reflexivity. }
  split; [exact Hbest|].
  rewrite findAndEncodeBlock_header, Hbest. reflexivity.
Qed.

Lemma searchParameters_short_witness :
  searchParameters [1; 2; 3] 0 0 = Best Infinity 0 0 /\
  byteAt (en_block (findAndEncodeBlock [1; 2; 3] 0 0)) 0 = 0.
Proof. apply (searchParameters_short [1; 2; 3] 0 0). cbn [length]. lia. Defined.
